(** * awesimsoss: frame times, dark ramps and signal composition

    A shallow embedding of the numerical core of
    [AWESim_SOSS/sim2D/awesim.py] and [awesimsoss/generate_darks.py].

    Conventions of the embedding.
    - Python floats and numpy float arrays are idealised as exact rationals
      ([Q]); rounding and overflow are not modelled, with one exception:
      [add_pedestal] stores its sums in an array of [np.float32] before it
      drops their fractions, and there the rounding to 24 significant bits
      decides the result, so it is modelled ([float32]).  A division whose
      divisor is zero does not raise in numpy: it yields [inf] or [nan].
      Such values have no rational counterpart, so a computation that
      performs one ends in the outcome [NonFinite].
    - Python exceptions are the outcome [Raises e].
    - A numpy array is its shape together with an indexing function.
    - The global generator [np.random] is a tape of raw draws and a cursor
      on it; [np.random.seed] installs the tape of the seed, given by a
      table that stands for the generator's algorithm. *)

From Stdlib Require Import String.
From Stdlib Require Import QArith ZArith List Bool Lia Lqa Qround Qabs Qpower.
From Stdlib Require Import PeanoNat.
Import ListNotations.

Open Scope Q_scope.

(** ** Outcomes of a Python call *)

Inductive exn : Type :=
| ValueError
| IndexError
| KeyError.

Inductive outcome (A : Type) : Type :=
| Returns (a : A)
| Raises (e : exn)
| NonFinite.

Arguments Returns {A} a.
Arguments Raises {A} e.
Arguments NonFinite {A}.

Definition bind {A B : Type} (m : outcome A) (k : A -> outcome B) : outcome B :=
  match m with
  | Returns a => k a
  | Raises e => Raises e
  | NonFinite => NonFinite
  end.

Notation "x <- m ;; k" := (bind m (fun x => k))
  (at level 61, m at next level, right associativity).
Notation "' p <- m ;; k" := (bind m (fun x => let 'p := x in k))
  (at level 61, p pattern, m at next level, right associativity).

(** ** [awesim.py]: the time axis of an exposure *)

(** [frame_times = {'SUBSTRIP96':2.213, 'SUBSTRIP256':5.491, 'FULL':10.737}] *)
Definition frame_times (subarray : string) : option Q :=
  if String.eqb subarray "SUBSTRIP96" then Some (2213 # 1000)
  else if String.eqb subarray "SUBSTRIP256" then Some (5491 # 1000)
  else if String.eqb subarray "FULL" then Some (10737 # 1000)
  else None.

(** [subarray in ['SUBSTRIP256','SUBSTRIP96','FULL']] *)
Definition known_subarray (subarray : string) : bool :=
  String.eqb subarray "SUBSTRIP256" || String.eqb subarray "SUBSTRIP96"
  || String.eqb subarray "FULL".

(** [np.arange(n)] for an integer [n]: empty when [n <= 0]. *)
Definition arange (n : Z) : list Q :=
  map (fun k => inject_Z (Z.of_nat k)) (seq 0 (Z.to_nat n)).

(** [l[i:]] with Python's treatment of a negative start. *)
Definition slice_from {A : Type} (i : Z) (l : list A) : list A :=
  if (i <? 0)%Z
  then skipn (Z.to_nat (Z.max 0 (Z.of_nat (length l) + i))) l
  else skipn (Z.to_nat i) l.

(** [l[-1]]: [IndexError] on an empty sequence. *)
Definition last_item (l : list Q) : outcome Q :=
  match rev l with
  | [] => Raises IndexError
  | x :: _ => Returns x
  end.

(** The body of [for _ in range(nints)]: [n] iterations left, [t] the start
    of the next integration, [time_axis] the chunks appended so far. *)
Fixpoint integrations (n : nat) (ngrps nresets : Z) (ft t : Q)
    (time_axis : list (list Q)) : outcome (list (list Q)) :=
  match n with
  | O => Returns time_axis
  | S n' =>
      let times := map (fun a => t + a * ft) (arange (nresets + ngrps)) in
      last <- last_item times ;;
      integrations n' ngrps nresets ft (last + ft)
        (time_axis ++ [slice_from nresets times])
  end.

(** [np.concatenate]: refuses an empty list of arrays. *)
Definition concatenate (chunks : list (list Q)) : outcome (list Q) :=
  match chunks with
  | [] => Raises ValueError
  | _ => Returns (concat chunks)
  end.

(** What [get_frame_times] prints when it does not know the subarray.  The
    name is formatted after the reassignment, so the text always shows
    SUBSTRIP256. *)
Definition unknown_message : string :=
  "I do not understand subarray 'SUBSTRIP256'. Using 'SUBSTRIP256' instead.".

(** [get_frame_times(subarray, ngrps, nints, t0, nresets)]: the printed
    lines and the result. *)
Definition get_frame_times (subarray : string) (ngrps nints : Z) (t0 : Q)
    (nresets : Z) : list string * outcome (list Q) :=
  let '(subarray, stdout) :=
    if known_subarray subarray then (subarray, [])
    else ("SUBSTRIP256"%string, [unknown_message]) in
  (stdout,
   match frame_times subarray with
   | None => Raises KeyError
   | Some ft =>
       chunks <- integrations (Z.to_nat nints) ngrps nresets ft t0 [] ;;
       concatenate chunks
   end).

(** What the loop of [get_frame_times] builds: the frames of the
    integration that starts at [t], resets included; the start of the
    integration after it; the retained frames of [n] consecutive
    integrations. *)
Definition times_from (ngrps nresets : Z) (ft t : Q) : list Q :=
  map (fun a => t + a * ft) (arange (nresets + ngrps)).

Definition following (ngrps nresets : Z) (ft t : Q) : Q :=
  t + inject_Z (nresets + ngrps - 1) * ft + ft.

Fixpoint retained (n : nat) (ngrps nresets : Z) (ft t : Q) : list (list Q) :=
  match n with
  | O => []
  | S n' => slice_from nresets (times_from ngrps nresets ft t)
            :: retained n' ngrps nresets ft (following ngrps nresets ft t)
  end.

(** ** numpy arrays *)

(** A two-dimensional array: [shape = (irows, icols)]. *)
Record array2 : Type := Image {
  irows : nat;
  icols : nat;
  ipix : nat -> nat -> Q
}.

(** A three-dimensional array [frame, row, column]. *)
Record array3 : Type := Cube {
  cframes : nat;
  crows : nat;
  ccols : nat;
  cpix : nat -> nat -> nat -> Q
}.

Definition ishape (a : array2) : nat * nat := (irows a, icols a).
Definition cshape (c : array3) : nat * nat * nat := (cframes c, crows c, ccols c).

Definition shape_eqb (s1 s2 : nat * nat * nat) : bool :=
  let '(f1, r1, c1) := s1 in
  let '(f2, r2, c2) := s2 in
  (f1 =? f2)%nat && (r1 =? r2)%nat && (c1 =? c2)%nat.

(** [c[n,:,:]] for an index inside the cube. *)
Definition frame (c : array3) (n : nat) : array2 :=
  Image (crows c) (ccols c) (cpix c n).

(** Reading a list of rows as an array, and an array as a list of rows. *)
Definition image_of_rows (ncols : nat) (rows : list (list Q)) : array2 :=
  Image (length rows) ncols (fun i j => nth j (nth i rows []) 0).

Definition cube_of_frames (nrows ncols : nat) (frames : list (list (list Q)))
    : array3 :=
  Cube (length frames) nrows ncols
       (fun n i j => nth j (nth i (nth n frames []) []) 0).

Definition rows_of_image (a : array2) : list (list Q) :=
  map (fun i => map (fun j => ipix a i j) (seq 0 (icols a))) (seq 0 (irows a)).

Definition frames_of_cube (c : array3) : list (list (list Q)) :=
  map (fun n => rows_of_image (frame c n)) (seq 0 (cframes c)).

(** Elementwise operation with a scalar. *)
Definition imap (f : Q -> Q) (a : array2) : array2 :=
  Image (irows a) (icols a) (fun i j => f (ipix a i j)).

Definition cmap (f : Q -> Q) (c : array3) : array3 :=
  Cube (cframes c) (crows c) (ccols c) (fun n i j => f (cpix c n i j)).

(** Broadcasting of one axis: equal lengths, or one of them is 1. *)
Definition broadcast_dim (a b : nat) : option nat :=
  if (a =? b)%nat then Some a
  else if (a =? 1)%nat then Some b
  else if (b =? 1)%nat then Some a
  else None.

(** The entry of [a] that position [(i, j)] of a broadcast result reads. *)
Definition bget (a : array2) (i j : nat) : Q :=
  ipix a (if (irows a =? 1)%nat then 0%nat else i)
         (if (icols a =? 1)%nat then 0%nat else j).

(** Elementwise binary operation between two arrays, with numpy's
    broadcasting; incompatible shapes raise [ValueError]. *)
Definition broadcast2 (f : Q -> Q -> Q) (a b : array2) : outcome array2 :=
  match broadcast_dim (irows a) (irows b), broadcast_dim (icols a) (icols b) with
  | Some r, Some c => Returns (Image r c (fun i j => f (bget a i j) (bget b i j)))
  | _, _ => Raises ValueError
  end.

(** Whether [src] can be broadcast into a destination of shape [(r, c)]. *)
Definition fits (r c : nat) (src : array2) : bool :=
  ((irows src =? r)%nat || (irows src =? 1)%nat)
  && ((icols src =? c)%nat || (icols src =? 1)%nat).

(** [c[n,:,:] = src] *)
Definition set_frame (c : array3) (n : nat) (src : array2) : outcome array3 :=
  if negb (n <? cframes c)%nat then Raises IndexError
  else if fits (crows c) (ccols c) src
  then Returns (Cube (cframes c) (crows c) (ccols c)
                  (fun k i j => if (k =? n)%nat then bget src i j
                                else cpix c k i j))
  else Raises ValueError.

(** [c[n,:,:]] for an arbitrary index. *)
Definition get_frame (c : array3) (n : nat) : outcome array2 :=
  if (n <? cframes c)%nat then Returns (frame c n) else Raises IndexError.

(** A test on every entry of an array. *)
Definition image_all (p : Q -> bool) (a : array2) : bool :=
  forallb (fun i => forallb (fun j => p (ipix a i j)) (seq 0 (icols a)))
          (seq 0 (irows a)).

Definition Qlt_bool (a b : Q) : bool := negb (Qle_bool b a).

(** ** The global generator [np.random] *)

Record rng : Type := Rng {
  tape : nat -> Q;          (* the raw draws of the current stream *)
  cursor : nat              (* how many of them were consumed *)
}.

Definition advance (k : nat) (g : rng) : rng :=
  Rng (tape g) (cursor g + k).

(** The raw draw [k] places ahead of the cursor. *)
Definition peek (g : rng) (k : nat) : Q := tape g (cursor g + k)%nat.

(** One Poisson variate of rate [lam] read off a raw draw: any count can
    come out of a positive rate, only 0 out of rate 0. *)
Definition poisson_variate (lam raw : Q) : Z :=
  if Qeq_bool lam 0 then 0%Z else Z.abs (Qfloor raw).

(** [np.random.poisson(lam)] on an array of rates: a negative rate raises
    [ValueError]; the variates are drawn in row-major order. *)
Definition poisson (lam : array2) (g : rng) : outcome (array2 * rng) :=
  if image_all (Qle_bool 0) lam
  then Returns
         (Image (irows lam) (icols lam)
            (fun i j => inject_Z
               (poisson_variate (ipix lam i j) (peek g (i * icols lam + j)))),
          advance (irows lam * icols lam) g)
  else Raises ValueError.

(** [np.sum(np.random.poisson(lam, size=n))] for a scalar rate. *)
Definition poisson_sum (lam : Q) (n : nat) (g : rng) : outcome (Z * rng) :=
  if Qle_bool 0 lam
  then Returns
         (fold_left Z.add
            (map (fun d => poisson_variate lam (peek g d)) (seq 0 n)) 0%Z,
          advance n g)
  else Raises ValueError.

(** [np.random.uniform()]: a value of [0, 1). *)
Definition uniform (g : rng) : Q * rng :=
  let raw := peek g 0 in
  (raw - inject_Z (Qfloor raw), advance 1 g).

(** [np.random.normal(loc, scale, size=n)]: a negative scale raises
    [ValueError]; each raw draw is a standard normal deviate. *)
Definition normal (loc scale : Q) (n : nat) (g : rng) : outcome (list Q * rng) :=
  if Qle_bool 0 scale
  then Returns (map (fun d => loc + scale * peek g d) (seq 0 n), advance n g)
  else Raises ValueError.

(** Division of an array by a scalar; a zero divisor turns every entry
    into [inf] or [nan]. *)
Definition idiv (a : array2) (d : Q) : outcome array2 :=
  if Qeq_bool d 0
  then (if (irows a * icols a =? 0)%nat then Returns a else NonFinite)
  else Returns (imap (fun x => x / d) a).

Definition cdiv (c : array3) (d : Q) : outcome array3 :=
  if Qeq_bool d 0
  then (if (cframes c * crows c * ccols c =? 0)%nat then Returns c
        else NonFinite)
  else Returns (cmap (fun x => x / d) c).

(** ** [generate_darks.py]: the dark ramp *)

(** The arguments of [ng.HXRGNoise(...)] and of its [mknoise(...)]. *)
Record hxrg_args : Type := HxrgArgs {
  naxis1 : nat;
  naxis2 : nat;
  naxis3 : Z;
  pca0_file : string;
  x0 : Z;
  y0 : Z;
  det_size : Z
}.

Record mknoise_args : Type := MknoiseArgs {
  c_pink : Q;
  u_pink : Q;
  bias_amp : Q;
  bias_offset : Q;
  acn : Q;
  pca0_amp : Q;
  rd_noise : Q;
  pedestal : Q;
  dark_current : Q;
  dc_seed : Z;
  noise_seed : Z;
  gain : Q
}.

(** What [mknoise] hands back: a stack of frames, or a single frame when
    there is one group. *)
Inductive ndarray : Type :=
| Arr2 (a : array2)
| Arr3 (c : array3).

(** The calls made to the noise generator, oldest first. *)
Inductive ng_call : Type :=
| CallHXRGNoise (a : hxrg_args)
| CallMknoise (a : mknoise_args).

(** The state a call runs in: the global generator and the record of the
    calls to the noise generator. *)
Record world : Type := World {
  w_rng : rng;
  w_calls : list ng_call
}.

(** [ramp[np.newaxis,:,:]] when [len(ramp.shape)==2]. *)
Definition as_cube (r : ndarray) : array3 :=
  match r with
  | Arr3 c => c
  | Arr2 a => Cube 1 (irows a) (icols a) (fun _ i j => ipix a i j)
  end.

(** [np.transpose(ramp,(0,2,1))] *)
Definition transpose (c : array3) : array3 :=
  Cube (cframes c) (ccols c) (crows c) (fun n i j => cpix c n j i).

(** [ramp[::,::-1,::-1]] *)
Definition flip (c : array3) : array3 :=
  Cube (cframes c) (crows c) (ccols c)
       (fun n i j => cpix c n (crows c - 1 - i)%nat (ccols c - 1 - j)%nat).

Definition zeros (f r c : nat) : array3 := Cube f r c (fun _ _ _ => 0).

(** [c[lo:lo+len,:,:] = src] for a slice inside the cube, with broadcasting
    of [src]. *)
Definition set_frames (c : array3) (lo len : nat) (src : array3) : outcome array3 :=
  if ((cframes src =? len)%nat || (cframes src =? 1)%nat)
     && fits (crows c) (ccols c) (frame src 0)
  then Returns
         (Cube (cframes c) (crows c) (ccols c)
            (fun k i j =>
               if ((lo <=? k)%nat && (k <? lo + len)%nat)%bool
               then bget (frame src (if (cframes src =? 1)%nat then 0
                                     else (k - lo))%nat) i j
               else cpix c k i j))
  else Raises ValueError.

(** [not seed] for an optional integer: true of [None] and of [0]. *)
Definition falsy (seed : option Z) : bool :=
  match seed with
  | None => true
  | Some s => (s =? 0)%Z
  end.

(** A [for] loop whose body may fail. *)
Fixpoint for_each {S X : Type} (body : S -> X -> outcome S) (xs : list X)
    (st : S) : outcome S :=
  match xs with
  | [] => Returns st
  | x :: xs' => st' <- body st x ;; for_each body xs' st'
  end.

Section DarkRamp.

(** The tape that [np.random.seed(s)] installs. *)
Variable seeded : Z -> nat -> Q.

(** The noise generator of [noise_simulation], which is not part of the
    sources at hand: a function of its arguments and of the state of the
    global generator, which it may use and change. *)
Variable mknoise : hxrg_args -> mknoise_args -> rng -> ndarray * rng.

(** [np.random.seed(s)]: the legacy generator takes seeds in [0, 2^32). *)
Definition np_random_seed (s : Z) : outcome rng :=
  if ((0 <=? s) && (s <? 2 ^ 32))%Z
  then Returns (Rng (seeded s) 0)
  else Raises ValueError.

(** One turn of the loop of [add_dark_current]. *)
Definition dark_frame (gain : Q) (darksignal : array2)
    (st : array3 * array2 * rng) (n : nat) : outcome (array3 * array2 * rng) :=
  let '(ramp, total, g) := st in
  '(counts, g) <- poisson darksignal g ;;
  signal <- idiv counts gain ;;
  total <- broadcast2 Qplus total signal ;;
  sum <- broadcast2 Qplus (frame ramp n) total ;;
  ramp <- set_frame ramp n sum ;;
  Returns (ramp, total, g).

(** [add_dark_current(ramp, seed, gain, darksignal)] *)
Definition add_dark_current (ramp : array3) (seed : Z) (gain : Q)
    (darksignal : array2) : outcome (array3 * rng) :=
  g <- np_random_seed seed ;;
  let total := imap (fun x => x * 0) darksignal in
  '(ramp, _, g) <- for_each (dark_frame gain darksignal)
                     (seq 0 (cframes ramp)) (ramp, total, g) ;;
  Returns (ramp, g).

(** [if not seed: seed = k+int(np.random.uniform()*4000000000.)] *)
Definition pick_seed (k : Z) (seed : option Z) (g : rng) : Z * rng :=
  let fresh := let '(u, g') := uniform g in
               ((k + Qfloor (u * 4000000000))%Z, g') in
  match seed with
  | Some s => if falsy seed then fresh else (s, g)
  | None => fresh
  end.

(** One turn of the loop over the integrations. *)
Definition integration (noisecube : hxrg_args) (ngrps : Z)
    (darksignal : array2) (gain offset : Q) (noise_seed dc_seed : Z)
    (st : array3 * world) (loop : nat) : outcome (array3 * world) :=
  let '(simulated_data, w) := st in
  let seed1 := (noise_seed + 24 * Z.of_nat loop)%Z in
  let args := MknoiseArgs (96 # 10) (32 # 10) 0 (offset * gain) 2 0
                (1295 # 100) (1830 # 100) 0 dc_seed seed1 gain in
  let '(ramp, g) := mknoise noisecube args (w_rng w) in
  let calls := w_calls w ++ [CallMknoise args] in
  let ramp := flip (transpose (as_cube ramp)) in
  '(ramp, g) <- add_dark_current ramp dc_seed gain darksignal ;;
  simulated_data <- set_frames simulated_data (loop * Z.to_nat ngrps)
                      (Z.to_nat ngrps) ramp ;;
  Returns (simulated_data, World g calls).

(** [make_exposure(nints, ngrps, darksignal, gain, pca0_file, noise_seed,
    dark_seed, offset)]; the result [None] of Python is [None] here. *)
Definition make_exposure (nints ngrps : Z) (darksignal : array2) (gain : Q)
    (pca0 : string) (noise_seed dark_seed : option Z) (offset : Q)
    (w : world) : outcome (option array3 * world) :=
  if ((nints <? 1) || (ngrps <? 1))%Z then Returns (None, w)
  else
    let '(noise_seed, g) := pick_seed 7 noise_seed (w_rng w) in
    let '(dark_seed, g) := pick_seed 5 dark_seed g in
    g <- np_random_seed dark_seed ;;
    let nrows := irows darksignal in
    let ncols := icols darksignal in
    let simulated_data := zeros (Z.to_nat (nints * ngrps)) nrows ncols in
    let noisecube := HxrgArgs nrows ncols ngrps pca0 0 0 2048 in
    let w := World g (w_calls w ++ [CallHXRGNoise noisecube]) in
    '(simulated_data, w) <-
      for_each (integration noisecube ngrps darksignal gain offset
                  noise_seed dark_seed)
        (seq 0 (Z.to_nat nints)) (simulated_data, w) ;;
    Returns (Some simulated_data, w).

End DarkRamp.

(** ** [generate_darks.py]: adding the science signal *)

(** The pixels of a frame in the order of
    [for k in range(rows): for l in range(cols)]. *)
Definition pixels (rows cols : nat) : list (nat * nat) :=
  flat_map (fun k => map (pair k) (seq 0 cols)) (seq 0 rows).

(** [a[k,l] = v] *)
Definition set_pixel (a : array2) (k l : nat) (v : Q) : array2 :=
  Image (irows a) (icols a)
        (fun i j => if ((i =? k)%nat && (j =? l)%nat)%bool then v
                    else ipix a i j).

(** The body of the two loops over the pixels, photon yield enabled.  The
    state carries the variable [n], which the body assigns:
    [n = int(newvalues[k,l])]. *)
Definition yield_pixel (target : array2) (st : nat * array2 * rng)
    (kl : nat * nat) : outcome (nat * array2 * rng) :=
  let '(n, newvalues, g) := st in
  let '(k, l) := kl in
  if negb ((k <? irows target)%nat && (l <? icols target)%nat)
  then Raises IndexError
  else if Qlt_bool 0 (ipix target k l)
  then
    let n := Z.to_nat (Qfloor (ipix newvalues k l)) in
    '(extra, g) <- poisson_sum (ipix target k l) n g ;;
    Returns (n, set_pixel newvalues k l (ipix newvalues k l + inject_Z extra), g)
  else Returns (n, newvalues, g).

(** The new counts of one frame, and the value of [n] afterwards. *)
Definition frame_counts (photon_yield : bool) (rows cols : nat)
    (framesignal pyimage background : array2) (n : nat) (g : rng)
    : outcome (nat * array2 * rng) :=
  if photon_yield
  then
    '(newvalues, g) <- poisson framesignal g ;;
    let target := imap (fun x => x - 1) pyimage in
    '(n, newvalues, g) <- for_each (yield_pixel target) (pixels rows cols)
                            (n, newvalues, g) ;;
    '(bg, g) <- poisson background g ;;
    newvalues <- broadcast2 Qplus newvalues bg ;;
    Returns (n, newvalues, g)
  else
    prod <- broadcast2 Qmult framesignal pyimage ;;
    sum <- broadcast2 Qplus prod background ;;
    '(newvalues, g) <- poisson (imap Qabs sum) g ;;
    Returns (n, newvalues, g).

(** The body of [for n in range(dims1[0])]. *)
Definition signal_frame (signals : array3) (pyimage : array2)
    (frametime gain : Q) (background : array2) (photon_yield : bool)
    (st : array3 * rng) (n : nat) : outcome (array3 * rng) :=
  let '(newcube, g) := st in
  let framesignal := imap (fun x => x * gain * frametime) (frame signals n) in
  '(n, newvalues, g) <-
     frame_counts photon_yield (crows newcube) (ccols newcube)
       framesignal pyimage background n g ;;
  newcube <-
    (if (n =? 0)%nat then set_frame newcube n newvalues
     else
       previous <- get_frame newcube (n - 1) ;;
       sum <- broadcast2 Qplus previous newvalues ;;
       set_frame newcube n sum) ;;
  Returns (newcube, g).

(** Elementwise sum of two cubes of one shape. *)
Definition cadd (a b : array3) : array3 :=
  Cube (cframes a) (crows a) (ccols a)
       (fun n i j => cpix a n i j + cpix b n i j).

(** [add_signal(signals, cube, pyimage, frametime, gain, zodi, zodi_scale,
    photon_yield)] *)
Definition add_signal (signals cube : array3) (pyimage : array2)
    (frametime gain : Q) (zodi : array2) (zodi_scale : Q)
    (photon_yield : bool) (g : rng) : outcome (array3 * rng) :=
  if negb (shape_eqb (cshape cube) (cshape signals)) then Raises ValueError
  else
    let newcube := cmap (fun x => x * 0) cube in
    let background := imap (fun x => x * zodi_scale * frametime) zodi in
    '(newcube, g) <-
      for_each (signal_frame signals pyimage frametime gain background
                  photon_yield)
        (seq 0 (cframes cube)) (newcube, g) ;;
    scaled <- cdiv newcube gain ;;
    Returns (cadd cube scaled, g).

(** ** [generate_darks.py]: non-linearity and pedestal *)

(** [np.squeeze] on a frame.  An array of fewer than two dimensions
    broadcasts as if its shape were padded with 1 on the left, so the
    one-dimensional result of length [k] is kept as the array of shape
    [(1, k)]: a frame of a single column becomes a row. *)
Definition squeeze (a : array2) : array2 :=
  if ((icols a =? 1)%nat && negb (irows a =? 1)%nat)%bool
  then Image 1 (irows a) (fun _ j => ipix a j 0%nat)
  else a.

(** [sum1 = sum1+nonlinearity[n,:,:]*np.power(frame,n+1)] *)
Definition nl_term (nonlinearity : array3) (fr sum1 : array2) (n : nat)
    : outcome array2 :=
  term <- broadcast2 Qmult (frame nonlinearity n)
            (imap (fun x => x ^ Z.of_nat (n + 1)) fr) ;;
  broadcast2 Qplus sum1 term.

(** The body of [for k in range(dims2[0])]. *)
Definition nl_frame (nonlinearity newcube : array3) (k : nat) : outcome array3 :=
  let fr := squeeze (frame newcube k) in
  let sum1 := imap (fun x => x * 0) fr in
  sum1 <- for_each (nl_term nonlinearity fr)
            (rev (seq 0 (cframes nonlinearity))) sum1 ;;
  sum1 <- broadcast2 Qmult fr (imap (fun x => 1 + x) sum1) ;;
  set_frame newcube k sum1.

(** [non_linearity(cube, nonlinearity, offset)].  The guard compares
    [dims1[1]] with [dims2[1]] in both of its disjuncts. *)
Definition non_linearity (cube nonlinearity : array3) (offset : Q)
    : outcome array3 :=
  if (negb (crows nonlinearity =? crows cube)%nat
      || negb (crows nonlinearity =? crows cube)%nat)%bool
  then Raises ValueError
  else
    let newcube := cmap (fun x => x - offset) cube in
    newcube <- for_each (nl_frame nonlinearity) (seq 0 (cframes cube))
                 newcube ;;
    Returns (cmap (fun x => x + offset) newcube).

(** Conversion of a float to an integer: the fraction is dropped. *)
Definition Qtrunc (x : Q) : Z :=
  if Qle_bool 0 x then Qfloor x else Qceiling x.

(** [astype(np.uint32)] on one value: truncation, then the low 32 bits. *)
Definition to_uint32 (x : Q) : Z := (Qtrunc x mod 2 ^ 32)%Z.

(** Rounding to the nearest whole number, a tie going to the even one. *)
Definition round_half_even (x : Q) : Z :=
  let f := Qfloor x in
  let d := x - inject_Z f in
  if Qlt_bool d (1 # 2) then f
  else if Qlt_bool (1 # 2) d then (f + 1)%Z
  else if Z.even f then f else (f + 1)%Z.

(** The exponent [e] with [2^e <= |x| < 2^(e+1)], for [x] other than 0. *)
Definition binade (x : Q) : Z :=
  let k := (Z.log2 (Z.abs (Qnum x)) - Z.log2 (Zpos (Qden x)))%Z in
  if Qle_bool (2 ^ k) (Qabs x) then k else (k - 1)%Z.

(** The exponent of the unit in the last place of the [np.float32]
    nearest to [x]: 24 significant bits, and no exponent below the one of
    the subnormal numbers. *)
Definition ulp_exponent (x : Q) : Z := Z.max (binade x - 23) (-149).

(** The value that an array of [np.float32] keeps of [x]: the nearest
    multiple of the unit in the last place, a tie going to the even
    one. *)
Definition float32 (x : Q) : Q :=
  if Qeq_bool x 0 then 0
  else inject_Z (round_half_even (x / 2 ^ ulp_exponent x))
       * 2 ^ ulp_exponent x.

(** A value rounded to a magnitude of [2^128] or more is stored as
    [inf]. *)
Definition float32_finite (stored : Q) : bool :=
  Qlt_bool (Qabs stored) (2 ^ 128).

(** A test on every entry of a cube. *)
Definition cube_all (p : Q -> bool) (c : array3) : bool :=
  forallb (fun n => image_all p (frame c n)) (seq 0 (cframes c)).

(** [newcube[n,:,:] = cube[n,:,:]+ped1], where [newcube] is an array of
    [np.float32]: the sum is rounded as it is stored. *)
Definition pedestal_frame (cube : array3) (ped1 : array2) (newcube : array3)
    (n : nat) : outcome array3 :=
  sum <- broadcast2 Qplus (frame cube n) ped1 ;;
  set_frame newcube n (imap float32 sum).

(** [add_pedestal(cube, pedestal, offset)].  [newcube] is
    [np.zeros_like(cube, dtype=np.float32)]; a sum too large for
    [np.float32] is stored in it as [inf].  The entries of the result are
    the unsigned integers read as rationals. *)
Definition add_pedestal (cube : array3) (pedestal : array2) (offset : Q)
    : outcome array3 :=
  let ped1 := imap (fun x => x + (offset - 500)) pedestal in
  let newcube := cmap (fun _ => 0) cube in
  newcube <- for_each (pedestal_frame cube ped1) (seq 0 (cframes cube))
               newcube ;;
  if cube_all float32_finite newcube
  then Returns (cmap (fun x => inject_Z (to_uint32 x)) newcube)
  else NonFinite.

(** ** [awesim.py]: the light curve of one pixel *)

(** Division of two scalars; a zero divisor gives [inf] or [nan]. *)
Definition qdiv (a d : Q) : outcome Q :=
  if Qeq_bool d 0 then NonFinite else Returns (a / d).

(** The segment of [np.interp] that holds [x], for [x] between the first
    and the last sample point. *)
Fixpoint interp_scan (x : Q) (pts : list (Q * Q)) : Q :=
  match pts with
  | [] => 0
  | (x0, y0) :: rest =>
      match rest with
      | [] => y0
      | (x1, y1) :: _ =>
          if Qlt_bool x x1 then (y1 - y0) / (x1 - x0) * (x - x0) + y0
          else interp_scan x rest
      end
  end.

(** [np.interp(x, xp, fp, left, right)] for a scalar [x] and increasing
    sample points [xp]. *)
Definition interp (x : Q) (xp fp : list Q) (left right : Q) : outcome Q :=
  match xp with
  | [] => Raises ValueError
  | x0 :: _ =>
      if negb (length xp =? length fp)%nat then Raises ValueError
      else if Qlt_bool x x0 then Returns left
      else if Qlt_bool (last xp 0) x then Returns right
      else Returns (interp_scan x (combine xp fp))
  end.

(** [min(a)], [np.nanmin(a)]: [ValueError] on an empty sequence. *)
Definition minimum (a : list Q) : outcome Q :=
  match a with
  | [] => Raises ValueError
  | x :: rest => Returns (fold_left (fun m y => if Qlt_bool y m then y else m) rest x)
  end.

(** [np.trapz(a)] with unit spacing. *)
Fixpoint trapz (a : list Q) : Q :=
  match a with
  | x :: ((y :: _) as rest) => (x + y) / 2 + trapz rest
  | _ => 0
  end.

(** The line-spread profile tabulated in [psf_position]. *)
Definition lpsf : list Q :=
  [
    7701976722368496 # 100000000000000000000000;
    1540395344473699 # 10000000000000000000000;
    3080790688947398 # 10000000000000000000000;
    6161581377894797 # 10000000000000000000000;
    1232316275578959 # 1000000000000000000000;
    2464632551157919 # 1000000000000000000000;
    4929265102315838 # 1000000000000000000000;
    9714837387708730 # 1000000000000000000000;
    5671904909021475 # 1000000000000000000000;
    4548023730510664 # 1000000000000000000000;
    1022713226439542 # 100000000000000000000;
    6886893882507295 # 1000000000000000000000;
    8177790144225927 # 1000000000000000000000;
    1357109057534278 # 100000000000000000000;
    8916710340478584 # 1000000000000000000000;
    1239566539967818 # 100000000000000000000;
    2781745489985332 # 100000000000000000000;
    2509716449416999 # 100000000000000000000;
    2631011432652208 # 100000000000000000000;
    4830151269574756 # 100000000000000000000;
    5380108778450451 # 100000000000000000000;
    7547263667725956 # 100000000000000000000;
    1022118883162726 # 10000000000000000000;
    1420077972523748 # 10000000000000000000;
    2362241206079752 # 10000000000000000000;
    3385566380821325 # 10000000000000000000;
    5477043893594158 # 10000000000000000000;
    6696818098559376 # 10000000000000000000;
    5493319867611035 # 10000000000000000000;
    4720754680409556 # 10000000000000000000;
    2991750642213908 # 10000000000000000000;
    3058475983204190 # 10000000000000000000;
    3109660592775787 # 10000000000000000000;
    2226914950899106 # 10000000000000000000;
    2979418360802288 # 10000000000000000000;
    3397708704659941 # 10000000000000000000;
    2990017218531538 # 10000000000000000000;
    2758223087866440 # 10000000000000000000;
    3294162992516503 # 10000000000000000000;
    2381257536346881 # 10000000000000000000;
    3407167609725814 # 10000000000000000000;
    5361983993812380 # 10000000000000000000;
    6230353641937803 # 10000000000000000000;
    6140843798414508 # 10000000000000000000;
    5070604643273580 # 10000000000000000000;
    3306009460586345 # 10000000000000000000;
    2371751859966409 # 10000000000000000000;
    1155928608405077 # 10000000000000000000;
    6370671124544813 # 100000000000000000000;
    7242587988226523 # 100000000000000000000;
    3417951946560471 # 100000000000000000000;
    2799611461752616 # 100000000000000000000;
    3403609616187131 # 100000000000000000000;
    1659919620922157 # 100000000000000000000;
    1873137450902895 # 100000000000000000000;
    1825263581423098 # 100000000000000000000;
    9144579730557822 # 1000000000000000000000;
    8962197003747896 # 1000000000000000000000;
    9059127708432868 # 1000000000000000000000;
    5408733372069818 # 1000000000000000000000;
    7623564329893584 # 1000000000000000000000;
    7990429056435600 # 1000000000000000000000;
    4048852234816991 # 1000000000000000000000;
    6761537376720472 # 1000000000000000000000
  ].

(** [np.abs(np.random.normal(w, w))] for an array [w] of means and scales. *)
Definition wing (w : list Q) (g : rng) : outcome (list Q * rng) :=
  if forallb (Qle_bool 0) w
  then Returns (map (fun '(d, wi) => Qabs (wi + wi * peek g d))
                  (combine (seq 0 (length w)) w),
                advance (length w) g)
  else Raises ValueError.

(** [add_wings(a, pts)] for [pts] different from 0. *)
Definition add_wings (a : list Q) (pts : Z) (g : rng) : outcome (list Q * rng) :=
  m <- minimum a ;;
  let w := map (fun k => m * (k / inject_Z pts) * 50)
               (map (fun k => inject_Z (Z.of_nat k)) (seq 0 (Z.to_nat pts))) in
  '(lower, g) <- wing w g ;;
  '(upper, g) <- wing (rev w) g ;;
  Returns (lower ++ a ++ upper, g).

(** [psf_position(distance, extend)] *)
Definition psf_position (distance : Q) (extend : Z) (g : rng)
    : outcome (Q * rng) :=
  '(profile, g) <- (if (extend =? 0)%Z then Returns (lpsf, g)
                    else add_wings lpsf extend g) ;;
  area <- (if Qeq_bool (trapz profile) 0 then NonFinite
           else Returns (trapz profile)) ;;
  let psf := map (fun x => x / area) profile in
  let p0 := (length psf / 2)%nat in
  let half := skipn p0 psf in
  val <- interp distance
           (map (fun k => inject_Z (Z.of_nat k)) (seq 0 (length half))) half
           (hd 0 half) (last half 0) ;;
  Returns (val, g).

(** [flux *= lightcurve] on one-dimensional arrays. *)
Definition scale_by (flux lightcurve : list Q) : outcome (list Q) :=
  if (length lightcurve =? length flux)%nat
  then Returns (map (fun '(f, c) => f * c) (combine flux lightcurve))
  else match lightcurve with
       | [c] => Returns (map (fun f => f * c) flux)
       | _ => Raises ValueError
       end.

(** [flux[mask] += noise]: the entries that satisfy [mask] take the values
    of [noise] in order. *)
Fixpoint add_where (mask : Q -> bool) (flux noise : list Q) : list Q :=
  match flux with
  | [] => []
  | f :: flux' =>
      if mask f
      then match noise with
           | [] => f :: add_where mask flux' []
           | z :: noise' => (f + z) :: add_where mask flux' noise'
           end
      else f :: add_where mask flux' noise
  end.

(** [flux[flux<floor] += np.random.normal(loc=floor, scale=1,
    size=len(flux[flux<floor]))] *)
Definition low_signal (floor : Q) (flux : list Q) (g : rng)
    : outcome (list Q * rng) :=
  let low := fun x => Qlt_bool x floor in
  '(noise, g) <- normal floor 1 (length (filter low flux)) g ;;
  Returns (add_where low flux noise, g).

Section LightCurve.

(** [batman.transitmodel.TransitParams] and the light curve that
    [batman.TransitModel(params, time).light_curve(params)] returns once
    [params.limb_dark], [params.u] and [params.rp] are set; batman is not
    part of the sources at hand.  The radius ratio is the square root of
    the transit depth, which is what is passed here. *)
Variable TransitParams : Type.
Variable transit_light_curve :
  string -> list Q -> Q -> TransitParams -> list Q -> list Q.

(** The flux of a pixel on the trace, up to the scaling by the PSF: the
    [else] branch of [lambda_lightcurve] before its last assignment. *)
Definition scaled_flux (wavelength response distance : Q)
    (ld_coeffs : list Q) (ld_profile : string) (star : list Q * list Q)
    (planet : option (list Q * list Q)) (time : list Q)
    (params : TransitParams) (SNR : Q) (extend : Z) (g : rng)
    : outcome (list Q * rng) :=
  flux0 <- interp wavelength (fst star) (snd star) 0 0 ;;
  scale <- qdiv flux0 SNR ;;
  '(draws, g) <- normal flux0 scale (length time) g ;;
  let flux := map Qabs draws in
  flux <-
    match planet with
    | None => Returns flux
    | Some (pw, pd) =>
        tdepth <- interp wavelength pw pd (hd 0 pd) (last pd 0) ;;
        scale_by flux
          (transit_light_curve ld_profile ld_coeffs tdepth params time)
    end ;;
  flux <- (if Qeq_bool response 0
           then (match flux with [] => Returns flux | _ => NonFinite end)
           else Returns (map (fun x => x / response) flux)) ;;
  '(psf, g) <- psf_position distance extend g ;;
  Returns (map (fun x => x * psf) flux, g).

(** [lambda_lightcurve(wavelength, response, distance, ld_coeffs,
    ld_profile, star, planet, time, params, trace_radius, SNR, floor,
    extend)]; [planet] is [None] for the string that stands for no planet. *)
Definition lambda_lightcurve (wavelength response distance : Q)
    (ld_coeffs : list Q) (ld_profile : string) (star : list Q * list Q)
    (planet : option (list Q * list Q)) (time : list Q)
    (params : TransitParams) (trace_radius SNR floor : Q) (extend : Z)
    (g : rng) : outcome (list Q * rng) :=
  background <-
    (if Qlt_bool (trace_radius + inject_Z extend) distance then Returns true
     else m <- minimum (fst star) ;; Returns (Qlt_bool wavelength m)) ;;
  if (background : bool)
  then
    '(draws, g) <- normal floor 1 (length time) g ;;
    Returns (map Qabs draws, g)
  else
    '(flux, g) <- scaled_flux wavelength response distance ld_coeffs
                    ld_profile star planet time params SNR extend g ;;
    low_signal floor flux g.

End LightCurve.

(** ** What the loops compute *)

(** The ramp that a call of [make_exposure] returned, if it returned. *)
Definition exposure_of (o : outcome (option array3 * world))
    : outcome (option array3) :=
  '(r, _) <- o ;; Returns r.

(** The counts that [add_signal], photon yield disabled, draws for pixel
    [(i, j)] of frame [n] when called with generator [g], and their
    running sum along the frames. *)
Definition new_counts (signals : array3) (pyimage : array2)
    (frametime gain : Q) (zodi : array2) (zodi_scale : Q) (g : rng)
    (n i j : nat) : Q :=
  inject_Z
    (poisson_variate
       (Qabs (cpix signals n i j * gain * frametime * ipix pyimage i j
              + ipix zodi i j * zodi_scale * frametime))
       (peek g (n * (crows signals * ccols signals) + (i * ccols signals + j)))).

Fixpoint accumulated (new : nat -> nat -> nat -> Q) (n i j : nat) : Q :=
  match n with
  | O => new O i j
  | S m => accumulated new m i j + new (S m) i j
  end.

(** [add_signal], photon yield disabled: the ramp under construction and
    the generator once the frames before [k] are done, for the dark ramp
    [cube], the counts [new] and the generator [g0] of the call. *)
Definition frames_done (cube : array3) (new : nat -> nat -> nat -> Q)
    (g0 : rng) (k : nat) (newcube : array3) (g : rng) : Prop :=
  cframes newcube = cframes cube /\ crows newcube = crows cube
  /\ ccols newcube = ccols cube
  /\ tape g = tape g0
  /\ cursor g = (cursor g0 + k * (crows cube * ccols cube))%nat
  /\ forall n i j,
       (n < k)%nat -> (i < crows cube)%nat -> (j < ccols cube)%nat ->
       cpix newcube n i j = accumulated new n i j.

(** The correction that [non_linearity] applies to one value [x], with the
    coefficients [coeff n] taken in the order [ns]: the sum starts from
    [x*0.] and the term of [n] is [coeff n * x^(n+1)]. *)
Definition correction_sum (coeff : nat -> Q) (x : Q) (ns : list nat) (start : Q)
    : Q :=
  fold_left (fun sum1 n => sum1 + coeff n * x ^ Z.of_nat (n + 1)) ns start.

Definition corrected (coeff : nat -> Q) (ncoeff : nat) (x : Q) : Q :=
  x * (1 + correction_sum coeff x (rev (seq 0 ncoeff)) (x * 0)).

(** [non_linearity]: the cube under correction once the frames before [k]
    are done. *)
Definition corrected_before (cube nonlinearity : array3) (offset : Q)
    (k : nat) (newcube : array3) : Prop :=
  cframes newcube = cframes cube /\ crows newcube = crows cube
  /\ ccols newcube = ccols cube
  /\ forall n i j,
       (n < cframes cube)%nat -> (i < crows cube)%nat ->
       (j < ccols cube)%nat ->
       cpix newcube n i j
       = if (n <? k)%nat
         then corrected (fun m => cpix nonlinearity m i j)
                (cframes nonlinearity) (cpix cube n i j - offset)
         else cpix cube n i j - offset.


(** ** Sample inputs *)

(** A generator whose every raw draw is [q]. *)
Definition constant_rng (q : Q) : rng := Rng (fun _ => q) 0.

(** [make_exposure].  A generator algorithm and a noise generator to run
    it with: the tape of seed [s] counts up from [s], and every pixel of
    the noise ramp shows the noise seed it was made with.  Two states of
    the global generator, whose next uniform draws are 1/4 and 1/2.  A
    dark-signal map of one pixel with no dark signal. *)
Definition sample_seeded (s : Z) (k : nat) : Q :=
  inject_Z s + inject_Z (Z.of_nat k).

Definition sample_mknoise (h : hxrg_args) (a : mknoise_args) (g : rng)
    : ndarray * rng :=
  (Arr3 (Cube (Z.to_nat (naxis3 h)) (naxis2 h) (naxis1 h)
           (fun _ _ _ => inject_Z (noise_seed a))),
   g).

Definition world_quarter : world := World (constant_rng (1 # 4)) [].
Definition world_half : world := World (constant_rng (1 # 2)) [].
Definition dark_1x1 : array2 := image_of_rows 1 [[0]].

(** [add_signal]: one pixel, two frames. *)
Definition no_signal : array3 := cube_of_frames 1 1 [[[0]]; [[0]]].
Definition falling_dark : array3 := cube_of_frames 1 1 [[[5]]; [[0]]].
Definition flat_dark : array3 := cube_of_frames 1 1 [[[5]]; [[5]]].
Definition unit_signal : array3 := cube_of_frames 1 1 [[[1]]; [[1]]].
Definition unit_yield : array2 := image_of_rows 1 [[1]].
Definition double_yield : array2 := image_of_rows 1 [[2]].
Definition no_zodi : array2 := image_of_rows 1 [[0]].

(** [non_linearity]: a frame of two rows and two columns with a
    coefficient image of a single column, and a frame of a single column
    with coefficients that are all 0. *)
Definition square_ramp : array3 := cube_of_frames 2 2 [[[1; 2]; [3; 4]]].
Definition column_coefficients : array3 := cube_of_frames 2 1 [[[1]; [2]]].
Definition column_ramp : array3 := cube_of_frames 2 1 [[[1]; [3]]].
Definition column_zeros : array3 := cube_of_frames 2 1 [[[0]; [0]]].


(** [add_pedestal]: one frame of one row. *)
Definition row_ramp : array3 := cube_of_frames 1 2 [[[3 # 2; 7]]].

(** [lambda_lightcurve]: a star of constant flux 1 between 0.5 and 2
    microns, and a transit model that dims nothing. *)
Definition flat_light_curve (limb_dark : string) (u : list Q) (tdepth : Q)
    (params : unit) (time : list Q) : list Q :=
  map (fun _ => 1) time.

Definition faint_star : list Q * list Q := ([1 # 2; 2], [1; 1]).

(** ** [generate_darks.py]: the photon-yield map *)

(** The body of [for n in range(dims[0])] in [make_photon_yield]:
    [sum1 = sum1+photon_yield[n,:,:]*orders[n,:,:]] and
    [sum2 = sum2+orders[n,:,:]]. *)
Definition yield_term (photon_yield orders : array3) (st : array2 * array2)
    (n : nat) : outcome (array2 * array2) :=
  let '(sum1, sum2) := st in
  py <- get_frame photon_yield n ;;
  prod <- broadcast2 Qmult py (frame orders n) ;;
  sum1 <- broadcast2 Qplus sum1 prod ;;
  sum2 <- broadcast2 Qplus sum2 (frame orders n) ;;
  Returns (sum1, sum2).

(** Whether [np.where(sum2 == 0.)] lists the position [(i, j)]. *)
Definition no_signal_at (sum2 : array2) (i j : nat) : bool :=
  (i <? irows sum2)%nat && (j <? icols sum2)%nat
  && Qeq_bool (ipix sum2 i j) 0.

(** [pyimage = sum1/sum2; pyimage[np.where(sum2 == 0.)] = 1.]  The
    quotient has the broadcast shape.  A position listed by [np.where]
    must exist in it, or the assignment raises [IndexError]; a quotient by
    0 that the assignment does not overwrite stays [inf] or [nan]. *)
Definition yield_ratio (sum1 sum2 : array2) : outcome array2 :=
  match broadcast_dim (irows sum1) (irows sum2),
        broadcast_dim (icols sum1) (icols sum2) with
  | Some r, Some c =>
      if negb (forallb (fun '(i, j) =>
                          negb (Qeq_bool (ipix sum2 i j) 0)
                          || ((i <? r)%nat && (j <? c)%nat))
                 (pixels (irows sum2) (icols sum2)))
      then Raises IndexError
      else if negb (forallb (fun '(i, j) =>
                               no_signal_at sum2 i j
                               || negb (Qeq_bool (bget sum2 i j) 0))
                      (pixels r c))
      then NonFinite
      else Returns
             (Image r c
                (fun i j => if no_signal_at sum2 i j then 1
                            else bget sum1 i j / bget sum2 i j))
  | _, _ => Raises ValueError
  end.

(** [make_photon_yield(photon_yield, orders)] *)
Definition make_photon_yield (photon_yield orders : array3) : outcome array2 :=
  let sum1 := Image (crows orders) (ccols orders) (fun _ _ => 0) in
  let sum2 := Image (crows orders) (ccols orders) (fun _ _ => 0) in
  '(sum1, sum2) <- for_each (yield_term photon_yield orders)
                     (seq 0 (cframes orders)) (sum1, sum2) ;;
  yield_ratio sum1 sum2.

(** ** [awesim.py]: the exposure of a time series *)

(** [needle in s] for two strings. *)
Fixpoint contains (needle s : string) : bool :=
  String.prefix needle s
  || match s with
     | EmptyString => false
     | String _ rest => contains needle rest
     end.

(** [256 if '256' in subarray else 96 if '96' in subarray else 2048] *)
Definition subarray_rows (subarray : string) : nat :=
  if contains "256" subarray then 256
  else if contains "96" subarray then 96
  else 2048.

(** The entry of [a] that position [(n, i, j)] of a broadcast result
    reads. *)
Definition bget3 (a : array3) (n i j : nat) : Q :=
  cpix a (if (cframes a =? 1)%nat then 0%nat else n)
         (if (crows a =? 1)%nat then 0%nat else i)
         (if (ccols a =? 1)%nat then 0%nat else j).

(** Elementwise binary operation between two three-dimensional arrays,
    with numpy's broadcasting. *)
Definition broadcast3 (f : Q -> Q -> Q) (a b : array3) : outcome array3 :=
  match broadcast_dim (cframes a) (cframes b),
        broadcast_dim (crows a) (crows b),
        broadcast_dim (ccols a) (ccols b) with
  | Some fr, Some r, Some c =>
      Returns (Cube fr r c (fun n i j => f (bget3 a n i j) (bget3 b n i j)))
  | _, _, _ => Raises ValueError
  end.

(** [a += b]: the sum is stored in [a], so [b] has to broadcast to the
    shape of [a]. *)
Definition iadd (a b : array3) : outcome array3 :=
  if ((cframes b =? cframes a)%nat || (cframes b =? 1)%nat)
     && ((crows b =? crows a)%nat || (crows b =? 1)%nat)
     && ((ccols b =? ccols a)%nat || (ccols b =? 1)%nat)
  then Returns (Cube (cframes a) (crows a) (ccols a)
                  (fun n i j => cpix a n i j + bget3 b n i j))
  else Raises ValueError.

(** [dark_ramps(time, subarray)] *)
Definition dark_ramps (time : list Q) (subarray : string) : array3 :=
  zeros (length time) 256 2048.

(** The attributes of a [TSO] object that describe the exposure.  The
    attributes of the target ([star], [planet], [params], the limb
    darkening, [SNR], [trace_radius], [extend]) and the wavelength map
    read from a file are used only to compute the light curves, which are
    not part of this model. *)
Record TSO : Type := Tso {
  subarray : string;
  nrows : nat;
  ncols : nat;
  ngrps : Z;
  nints : Z;
  nresets : Z;
  time : list Q;
  nframes : nat;
  tso : array3
}.

(** [TSO.__init__(ngrps, nints, star, ..., subarray, t0, ...)], with the
    lines that [get_frame_times] prints. *)
Definition TSO_init (ngrps nints : Z) (subarray : string) (t0 : Q)
    : list string * outcome TSO :=
  let nrows := subarray_rows subarray in
  let ncols := 2048%nat in
  let nresets := 1%Z in
  let '(stdout, time) := get_frame_times subarray ngrps nints t0 nresets in
  (stdout,
   time <- time ;;
   let nframes := length time in
   Returns (Tso subarray nrows ncols ngrps nints nresets time nframes
              (zeros nframes nrows ncols))).

(** [self.tso = np.abs(self.tso+tso_order)] *)
Definition add_order (tso tso_order : array3) : outcome array3 :=
  sum <- broadcast3 Qplus tso tso_order ;;
  Returns (cmap Qabs sum).

(** [run_simulation] from the point where the light curves of an order
    have been put into an array: [tso_orders] lists the arrays [tso_order]
    of the orders simulated, each the result of
    [reshape([self.nframes, self.nrows, self.ncols])].  The loop adds them
    to the exposure, and the last statement adds the dark ramps:
    [self.tso += dark_ramps(self.time, self.subarray)]. *)
Definition run_simulation (self : TSO) (tso_orders : list array3)
    : outcome TSO :=
  exposure <- for_each add_order tso_orders (tso self) ;;
  exposure <- iadd exposure (dark_ramps (time self) (subarray self)) ;;
  Returns (Tso (subarray self) (nrows self) (ncols self) (ngrps self)
             (nints self) (nresets self) (time self) (nframes self)
             exposure).

(** The value that the loop over the orders leaves in a pixel. *)
Definition orders_added (tso_orders : list array3) (start : Q) (n i j : nat)
    : Q :=
  fold_left (fun acc tso_order => Qabs (acc + cpix tso_order n i j))
    tso_orders start.

(** ** What the other loops compute *)

(** The call of [mknoise] that [make_exposure] makes for the integration
    [loop], with the constants that the function defines. *)
Definition mknoise_call (gain offset : Q) (dc_seed noise_seed : Z) (loop : nat)
    : ng_call :=
  CallMknoise
    (MknoiseArgs (96 # 10) (32 # 10) 0 (offset * gain) 2 0 (1295 # 100)
       (1830 # 100) 0 dc_seed (noise_seed + 24 * Z.of_nat loop)%Z gain).

(** The dark signal that [add_dark_current] draws for pixel [(i, j)] of
    frame [n] from the tape [draws], over the gain, and its running sum
    [total], which starts from [darksignal*0.]. *)
Definition dark_signal (darksignal : array2) (gain : Q) (draws : nat -> Q)
    (n i j : nat) : Q :=
  inject_Z
    (poisson_variate (ipix darksignal i j)
       (draws (n * (irows darksignal * icols darksignal)
               + (i * icols darksignal + j))%nat))
  / gain.

Fixpoint dark_total (darksignal : array2) (gain : Q) (draws : nat -> Q)
    (n i j : nat) : Q :=
  match n with
  | O => ipix darksignal i j * 0 + dark_signal darksignal gain draws O i j
  | S m => dark_total darksignal gain draws m i j
           + dark_signal darksignal gain draws (S m) i j
  end.

(** [add_dark_current]: the ramp, the running sum and the generator once
    the frames before [k] are done. *)
Definition dark_done (ramp0 : array3) (darksignal : array2) (gain : Q)
    (draws : nat -> Q) (k : nat) (st : array3 * array2 * rng) : Prop :=
  let '(ramp, total, g) := st in
  cshape ramp = cshape ramp0
  /\ ishape total = ishape darksignal
  /\ tape g = draws
  /\ cursor g = (k * (irows darksignal * icols darksignal))%nat
  /\ (forall i j, (i < irows darksignal)%nat -> (j < icols darksignal)%nat ->
        ipix total i j
        = match k with
          | O => ipix darksignal i j * 0
          | S m => dark_total darksignal gain draws m i j
          end)
  /\ forall n i j,
       (n < cframes ramp0)%nat -> (i < crows ramp0)%nat ->
       (j < ccols ramp0)%nat ->
       cpix ramp n i j
       = if (n <? k)%nat
         then cpix ramp0 n i j + dark_total darksignal gain draws n i j
         else cpix ramp0 n i j.

(** The counts that [add_signal], photon yield enabled, draws for pixel
    [(i, j)] of frame [n] when no pixel has a yield above 1: a draw for
    the signal and, after the draws for the signal of the whole frame, a
    draw for the background. *)
Definition yield_counts (signals : array3) (frametime gain : Q)
    (zodi : array2) (zodi_scale : Q) (g : rng) (n i j : nat) : Q :=
  let size := (crows signals * ccols signals)%nat in
  inject_Z
    (poisson_variate (cpix signals n i j * gain * frametime)
       (peek g (n * (2 * size) + (i * ccols signals + j))))
  + inject_Z
      (poisson_variate (ipix zodi i j * zodi_scale * frametime)
         (peek g (n * (2 * size) + size + (i * ccols signals + j)))).

(** [add_signal], photon yield enabled: the ramp under construction and
    the generator once the frames before [k] are done. *)
Definition yield_frames_done (cube : array3) (new : nat -> nat -> nat -> Q)
    (g0 : rng) (k : nat) (newcube : array3) (g : rng) : Prop :=
  cframes newcube = cframes cube /\ crows newcube = crows cube
  /\ ccols newcube = ccols cube
  /\ tape g = tape g0
  /\ cursor g = (cursor g0 + k * (2 * (crows cube * ccols cube)))%nat
  /\ forall n i j,
       (n < k)%nat -> (i < crows cube)%nat -> (j < ccols cube)%nat ->
       cpix newcube n i j = accumulated new n i j.

(** The sum of [coeff m * x^(m+1)] over the coefficients before [n]. *)
Fixpoint power_series (coeff : nat -> Q) (x : Q) (n : nat) : Q :=
  match n with
  | O => 0
  | S m => power_series coeff x m + coeff m * x ^ Z.of_nat (m + 1)
  end.

(** [make_photon_yield]: the sums over the orders before [n] of the
    yield times the signal, and of the signal. *)
Fixpoint yield_sum (photon_yield orders : array3) (n i j : nat) : Q :=
  match n with
  | O => 0
  | S m => yield_sum photon_yield orders m i j
           + cpix photon_yield m i j * cpix orders m i j
  end.

Fixpoint order_sum (orders : array3) (n i j : nat) : Q :=
  match n with
  | O => 0
  | S m => order_sum orders m i j + cpix orders m i j
  end.

(** [make_photon_yield]: the two sums once the orders before [k] are
    done. *)
Definition yield_sums_done (photon_yield orders : array3) (k : nat)
    (st : array2 * array2) : Prop :=
  let '(sum1, sum2) := st in
  ishape sum1 = (crows orders, ccols orders)
  /\ ishape sum2 = (crows orders, ccols orders)
  /\ forall i j, (i < crows orders)%nat -> (j < ccols orders)%nat ->
       ipix sum1 i j = yield_sum photon_yield orders k i j
       /\ ipix sum2 i j = order_sum orders k i j.

(** ** More sample inputs *)

(** A dark-signal map of one pixel with a negative dark signal. *)
Definition negative_dark : array2 := image_of_rows 1 [[-1]].

(** Coefficient stacks for a frame of two rows and two columns: all 0, and
    one coefficient image with a quadratic term in two of the pixels. *)
Definition square_zeros : array3 := cube_of_frames 2 2 [[[0; 0]; [0; 0]]].
Definition square_coefficients : array3 :=
  cube_of_frames 2 2 [[[1; 0]; [0; 1 # 2]]].

(** [make_photon_yield]: two orders on a frame of one row and two columns,
    the second pixel without signal, and their photon yields. *)
Definition two_orders : array3 := cube_of_frames 1 2 [[[1; 0]]; [[3; 0]]].
Definition two_yields : array3 :=
  cube_of_frames 1 2 [[[1; 1]]; [[3 # 2; 2]]].

(** [run_simulation]: one frame of 256 rows with the count -3 everywhere,
    and one with the count 2. *)
Definition order_minus_three : array3 := Cube 2 256 2048 (fun _ _ _ => -3).
Definition order_two : array3 := Cube 2 256 2048 (fun _ _ _ => 2).

(** * Properties *)

(** ** The time axis *)

Lemma nth_map_in {A B : Type} (f : A -> B) (l : list A) (d : B) (d' : A) :
  forall i, (i < length l)%nat -> nth i (map f l) d = f (nth i l d').
Proof.
  induction l as [|x l IH]; intros [|i] H; cbn in *; try lia; auto.
  apply IH. lia.
Qed.

Section FrameTimes.

Variables (ngrps nresets : Z) (ft : Q).
Hypothesis ngrps_pos : (1 <= ngrps)%Z.
Hypothesis nresets_nonneg : (0 <= nresets)%Z.

Lemma last_item_times (t : Q) :
  last_item (times_from ngrps nresets ft t) = Returns (t + inject_Z (nresets + ngrps - 1) * ft).
Proof.
  unfold times_from, arange, last_item.
  destruct (Z.to_nat (nresets + ngrps)) as [|k] eqn:E; [lia|].
  rewrite seq_S, !map_app, rev_app_distr. cbn.
  do 3 f_equal. f_equal. lia.
Qed.

Lemma integrations_retained (n : nat) :
  forall t acc,
    integrations n ngrps nresets ft t acc
    = Returns (acc ++ retained n ngrps nresets ft t).
Proof.
  induction n as [|n IH]; intros t acc; cbn [integrations retained].
  - now rewrite app_nil_r.
  - fold (times_from ngrps nresets ft t). rewrite last_item_times. cbn [bind].
    rewrite IH, <- app_assoc. reflexivity.
Qed.

Lemma retained_chunk (t : Q) :
  slice_from nresets (times_from ngrps nresets ft t)
  = map (fun k => t + inject_Z (Z.of_nat k) * ft)
        (seq (Z.to_nat nresets) (Z.to_nat ngrps)).
Proof.
  unfold slice_from, times_from, arange.
  destruct (nresets <? 0)%Z eqn:E; [apply Z.ltb_lt in E; lia|].
  rewrite map_map, skipn_map, skipn_seq. cbn [Nat.add].
  do 2 f_equal. lia.
Qed.

Lemma retained_length (n : nat) :
  forall t, length (concat (retained n ngrps nresets ft t)) = (n * Z.to_nat ngrps)%nat.
Proof.
  induction n as [|n IH]; intros t; cbn [retained concat]; [reflexivity|].
  rewrite length_app, IH, retained_chunk, length_map, length_seq. lia.
Qed.

Lemma retained_nth (n : nat) :
  forall t i j,
    (i < n)%nat -> (j < Z.to_nat ngrps)%nat ->
    nth (i * Z.to_nat ngrps + j) (concat (retained n ngrps nresets ft t)) 0
    == t + inject_Z (Z.of_nat i * (nresets + ngrps) + nresets + Z.of_nat j) * ft.
Proof.
  induction n as [|n IH]; intros t i j Hi Hj; [lia|].
  cbn [retained concat]. rewrite retained_chunk.
  set (chunk := map _ _).
  assert (Hlen : length chunk = Z.to_nat ngrps)
    by (unfold chunk; now rewrite length_map, length_seq).
  destruct i as [|i].
  - cbn [Nat.mul Nat.add]. rewrite app_nth1 by lia.
    unfold chunk.
    rewrite (nth_map_in _ _ _ 0%nat) by (rewrite length_seq; lia).
    rewrite seq_nth by lia.
    replace (Z.of_nat (Z.to_nat nresets + j))
      with (Z.of_nat 0 * (nresets + ngrps) + nresets + Z.of_nat j)%Z by lia.
    reflexivity.
  - rewrite app_nth2 by lia.
    replace (S i * Z.to_nat ngrps + j - length chunk)%nat
      with (i * Z.to_nat ngrps + j)%nat by lia.
    rewrite IH by lia. unfold following.
    replace (Z.of_nat (S i) * (nresets + ngrps) + nresets + Z.of_nat j)%Z
      with ((nresets + ngrps - 1) + 1
            + (Z.of_nat i * (nresets + ngrps) + nresets + Z.of_nat j))%Z
      by lia.
    rewrite !inject_Z_plus. change (inject_Z 1) with 1. ring.
Qed.

Lemma get_frame_times_known (subarray : string) (nints : Z) (t0 : Q) :
  (1 <= nints)%Z ->
  frame_times subarray = Some ft ->
  get_frame_times subarray ngrps nints t0 nresets
  = ([], Returns (concat (retained (Z.to_nat nints) ngrps nresets ft t0))).
Proof.
  intros Hn Hft. unfold get_frame_times.
  assert (K : known_subarray subarray = true).
  { unfold frame_times in Hft. unfold known_subarray.
    destruct (String.eqb subarray "SUBSTRIP96"),
             (String.eqb subarray "SUBSTRIP256"),
             (String.eqb subarray "FULL"); try reflexivity; discriminate. }
  rewrite K, Hft, integrations_retained. cbn [bind app].
  destruct (Z.to_nat nints) as [|k] eqn:E; [lia|]. reflexivity.
Qed.

End FrameTimes.

Lemma frame_times_known (subarray : string) :
  In subarray ["SUBSTRIP256"; "SUBSTRIP96"; "FULL"]%string ->
  exists ft, frame_times subarray = Some ft.
Proof.
  intros [<-|[<-|[<-|[]]]]; eexists; reflexivity.
Qed.

Lemma unknown_subarray (subarray : string) :
  ~ In subarray ["SUBSTRIP256"; "SUBSTRIP96"; "FULL"]%string ->
  known_subarray subarray = false.
Proof.
  intros H. unfold known_subarray.
  destruct (String.eqb_spec subarray "SUBSTRIP256") as [->|_];
    [exfalso; apply H; cbn; auto|].
  destruct (String.eqb_spec subarray "SUBSTRIP96") as [->|_];
    [exfalso; apply H; cbn; auto|].
  destruct (String.eqb_spec subarray "FULL") as [->|_];
    [exfalso; apply H; cbn; auto|].
  reflexivity.
Qed.

(** C5. For a known subarray, at least one group and one integration and
    no negative number of resets, [get_frame_times] returns
    [nints * ngrps] values: the frames of each integration after its
    resets, so that the first retained frames of consecutive integrations
    are [(nresets + ngrps)] frame times apart.  The call
    [get_frame_times('SUBSTRIP256', 2, 3, 0, 1)] returns 6 values spaced
    in that way, with frame time 5.491. *)
Theorem get_frame_times_count_and_spacing :
  (forall (subarray : string) (ngrps nints : Z) (t0 : Q) (nresets : Z),
      In subarray ["SUBSTRIP256"; "SUBSTRIP96"; "FULL"]%string ->
      (1 <= ngrps)%Z -> (1 <= nints)%Z -> (0 <= nresets)%Z ->
      exists (ft : Q) (time_axis : list Q),
        frame_times subarray = Some ft
        /\ get_frame_times subarray ngrps nints t0 nresets
           = ([], Returns time_axis)
        /\ length time_axis = Z.to_nat (nints * ngrps)
        /\ (forall i j : nat,
               (i < Z.to_nat nints)%nat -> (j < Z.to_nat ngrps)%nat ->
               nth (i * Z.to_nat ngrps + j) time_axis 0
               == t0 + inject_Z (Z.of_nat i * (nresets + ngrps) + nresets
                                 + Z.of_nat j) * ft)
        /\ (forall i : nat,
               (S i < Z.to_nat nints)%nat ->
               nth (S i * Z.to_nat ngrps) time_axis 0
               - nth (i * Z.to_nat ngrps) time_axis 0
               == inject_Z (nresets + ngrps) * ft))
  /\ (exists time_axis : list Q,
         get_frame_times "SUBSTRIP256" 2 3 0 1 = ([], Returns time_axis)
         /\ length time_axis = 6%nat
         /\ nth 2 time_axis 0 - nth 0 time_axis 0
            == inject_Z (1 + 2) * (5491 # 1000)
         /\ nth 4 time_axis 0 - nth 2 time_axis 0
            == inject_Z (1 + 2) * (5491 # 1000)).
Proof.
  split.
  - intros subarray ngrps nints t0 nresets Hin Hg Hn Hr.
    destruct (frame_times_known subarray Hin) as [ft Hft].
    exists ft, (concat (retained (Z.to_nat nints) ngrps nresets ft t0)).
    split; [exact Hft|].
    split; [now apply get_frame_times_known|].
    split; [rewrite retained_length by lia; lia|].
    split.
    + intros i j Hi Hj. now apply retained_nth.
    + intros i Hi.
      pose proof (retained_nth ngrps nresets ft Hg Hr (Z.to_nat nints) t0
                    (S i) 0 Hi ltac:(lia)) as H1.
      pose proof (retained_nth ngrps nresets ft Hg Hr (Z.to_nat nints) t0
                    i 0 ltac:(lia) ltac:(lia)) as H0.
      rewrite !Nat.add_0_r in H1, H0. rewrite H1, H0.
      replace (Z.of_nat (S i) * (nresets + ngrps) + nresets + Z.of_nat 0)%Z
        with ((nresets + ngrps)
              + (Z.of_nat i * (nresets + ngrps) + nresets + Z.of_nat 0))%Z
        by lia.
      rewrite inject_Z_plus. ring.
  - eexists. split; [reflexivity|]. repeat split; reflexivity.
Qed.

Lemma get_frame_times_count_and_spacing_witness :
  In "FULL"%string ["SUBSTRIP256"; "SUBSTRIP96"; "FULL"]%string
  /\ (1 <= 2)%Z /\ (1 <= 3)%Z /\ (0 <= 1)%Z
  /\ exists (ft : Q) (time_axis : list Q),
       frame_times "FULL" = Some ft
       /\ get_frame_times "FULL" 2 3 (1 # 2) 1 = ([], Returns time_axis)
       /\ length time_axis = Z.to_nat (3 * 2)
       /\ (forall i j : nat,
              (i < Z.to_nat 3)%nat -> (j < Z.to_nat 2)%nat ->
              nth (i * Z.to_nat 2 + j) time_axis 0
              == (1 # 2) + inject_Z (Z.of_nat i * (1 + 2) + 1 + Z.of_nat j) * ft)
       /\ (forall i : nat,
              (S i < Z.to_nat 3)%nat ->
              nth (S i * Z.to_nat 2) time_axis 0
              - nth (i * Z.to_nat 2) time_axis 0
              == inject_Z (1 + 2) * ft).
Proof.
  assert (Hin : In "FULL"%string ["SUBSTRIP256"; "SUBSTRIP96"; "FULL"]%string)
    by (cbn; auto).
  assert (H1 : (1 <= 2)%Z) by lia.
  assert (H2 : (1 <= 3)%Z) by lia.
  assert (H3 : (0 <= 1)%Z) by lia.
  repeat split; try assumption.
  exact (proj1 get_frame_times_count_and_spacing "FULL"%string 2%Z 3%Z
           (1 # 2) 1%Z Hin H1 H2 H3).
Defined.

(** C10. A subarray that is none of the three known names raises no error
    of its own: the warning is printed, SUBSTRIP256 (frame time 5.491) is
    used, and the outcome is the one of the call with
    [subarray='SUBSTRIP256'] and the same other arguments.  With at least
    one group and one integration and no negative number of resets both
    calls return the same time axis: [nints * ngrps] values, frame [j] of
    integration [i] at [t0 + (i * (nresets + ngrps) + nresets + j) * 5.491]. *)
Theorem get_frame_times_unknown_subarray :
  forall (subarray : string) (ngrps nints : Z) (t0 : Q) (nresets : Z),
    ~ In subarray ["SUBSTRIP256"; "SUBSTRIP96"; "FULL"]%string ->
    get_frame_times subarray ngrps nints t0 nresets
    = ([unknown_message],
       snd (get_frame_times "SUBSTRIP256" ngrps nints t0 nresets))
    /\ frame_times "SUBSTRIP256" = Some (5491 # 1000)
    /\ ((1 <= ngrps)%Z -> (1 <= nints)%Z -> (0 <= nresets)%Z ->
        exists time_axis : list Q,
          get_frame_times subarray ngrps nints t0 nresets
          = ([unknown_message], Returns time_axis)
          /\ get_frame_times "SUBSTRIP256" ngrps nints t0 nresets
             = ([], Returns time_axis)
          /\ length time_axis = Z.to_nat (nints * ngrps)
          /\ forall i j : nat,
               (i < Z.to_nat nints)%nat -> (j < Z.to_nat ngrps)%nat ->
               nth (i * Z.to_nat ngrps + j) time_axis 0
               == t0 + inject_Z (Z.of_nat i * (nresets + ngrps) + nresets
                                 + Z.of_nat j) * (5491 # 1000)).
Proof.
  intros subarray ngrps nints t0 nresets Hun.
  assert (E : get_frame_times subarray ngrps nints t0 nresets
              = ([unknown_message],
                 snd (get_frame_times "SUBSTRIP256" ngrps nints t0 nresets))).
  { unfold get_frame_times. rewrite (unknown_subarray _ Hun). reflexivity. }
  split; [exact E|]. split; [reflexivity|].
  intros Hg Hn Hr. rewrite E.
  rewrite (get_frame_times_known ngrps nresets (5491 # 1000) Hg Hr
             "SUBSTRIP256" nints t0 Hn eq_refl).
  cbn [snd]. eexists. split; [reflexivity|]. split; [reflexivity|].
  split; [rewrite retained_length by lia; lia|].
  intros i j Hi Hj. now apply retained_nth.
Qed.

Lemma get_frame_times_unknown_subarray_witness :
  ~ In "SUBSTRIP"%string ["SUBSTRIP256"; "SUBSTRIP96"; "FULL"]%string
  /\ get_frame_times "SUBSTRIP" 2 3 0 1
     = ([unknown_message], snd (get_frame_times "SUBSTRIP256" 2 3 0 1))
  /\ exists time_axis : list Q,
       get_frame_times "SUBSTRIP" 2 3 0 1
       = ([unknown_message], Returns time_axis)
       /\ get_frame_times "SUBSTRIP256" 2 3 0 1 = ([], Returns time_axis)
       /\ length time_axis = 6%nat
       /\ nth 5 time_axis 0 == inject_Z 8 * (5491 # 1000).
Proof.
  assert (Hun : ~ In "SUBSTRIP"%string
                    ["SUBSTRIP256"; "SUBSTRIP96"; "FULL"]%string).
  { intros [H|[H|[H|[]]]]; discriminate H. }
  split; [exact Hun|].
  destruct (get_frame_times_unknown_subarray "SUBSTRIP"%string 2%Z 3%Z 0
              1%Z Hun) as (E & _ & Haxis).
  split; [exact E|].
  destruct (Haxis ltac:(lia) ltac:(lia) ltac:(lia))
    as (time_axis & E1 & E2 & Hlen & Hnth).
  exists time_axis. split; [exact E1|]. split; [exact E2|].
  split; [exact Hlen|].
  rewrite (Hnth 2%nat 1%nat) by (cbn; lia). reflexivity.
Defined.

(** ** The dark ramp *)

Section MakeExposure.

Variable seeded : Z -> nat -> Q.
Variable mknoise : hxrg_args -> mknoise_args -> rng -> ndarray * rng.

(** C9. With fewer than one integration or fewer than one group,
    [make_exposure] returns [None]: nothing is raised, and the state it was
    called in is the state it leaves, so the noise generator was not called
    and the global generator was not touched. *)
Theorem make_exposure_degenerate :
  forall (nints ngrps : Z) (darksignal : array2) (gain : Q) (pca0 : string)
         (noise_seed dark_seed : option Z) (offset : Q) (w : world),
    (nints < 1 \/ ngrps < 1)%Z ->
    make_exposure seeded mknoise nints ngrps darksignal gain pca0 noise_seed
      dark_seed offset w
    = Returns (None, w).
Proof.
  intros nints ngrps darksignal gain pca0 noise_seed dark_seed offset w H.
  unfold make_exposure.
  destruct H as [H|H]; apply Z.ltb_lt in H; rewrite H;
    [reflexivity | now rewrite orb_true_r].
Qed.

(** A seed that is given and is not 0 is the seed used, and no draw is
    made for it. *)
Lemma pick_seed_given (k s : Z) (g : rng) :
  s <> 0%Z -> pick_seed k (Some s) g = (s, g).
Proof.
  intros H. unfold pick_seed, falsy.
  destruct (Z.eqb_spec s 0); [contradiction | reflexivity].
Qed.

(** An integration reads the global generator and the ramp built so far,
    never the record of calls. *)
Lemma integration_calls (noisecube : hxrg_args) (ngrps : Z)
    (darksignal : array2) (gain offset : Q) (ns ds : Z) (loop : nat)
    (data : array3) (g : rng) (calls1 calls2 : list ng_call) :
  match
    integration seeded mknoise noisecube ngrps darksignal gain offset ns ds
      (data, World g calls1) loop,
    integration seeded mknoise noisecube ngrps darksignal gain offset ns ds
      (data, World g calls2) loop
  with
  | Returns (d1, w1), Returns (d2, w2) => d1 = d2 /\ w_rng w1 = w_rng w2
  | Raises e1, Raises e2 => e1 = e2
  | NonFinite, NonFinite => True
  | _, _ => False
  end.
Proof.
  unfold integration. cbn [w_rng w_calls]. cbv zeta.
  match goal with |- context [mknoise ?h ?a g] =>
    destruct (mknoise h a g) as [ramp g1] end.
  match goal with |- context [add_dark_current ?s ?r ?d ?gn ?dk] =>
    destruct (add_dark_current s r d gn dk) as [[ramp' g2]| |] end;
    cbn [bind]; auto.
  match goal with |- context [set_frames ?c ?lo ?len ?src] =>
    destruct (set_frames c lo len src) as [data'| |] end;
    cbn [bind w_rng]; auto.
Qed.

Lemma integrations_calls (noisecube : hxrg_args) (ngrps : Z)
    (darksignal : array2) (gain offset : Q) (ns ds : Z) (loops : list nat) :
  forall (data : array3) (g : rng) (calls1 calls2 : list ng_call),
    exposure_of
      ('(d, w) <- for_each (integration seeded mknoise noisecube ngrps
                              darksignal gain offset ns ds)
                    loops (data, World g calls1) ;;
       Returns (Some d, w))
    = exposure_of
        ('(d, w) <- for_each (integration seeded mknoise noisecube ngrps
                                darksignal gain offset ns ds)
                      loops (data, World g calls2) ;;
         Returns (Some d, w)).
Proof.
  induction loops as [|loop loops IH]; intros data g calls1 calls2;
    [reflexivity|].
  cbn [for_each].
  pose proof (integration_calls noisecube ngrps darksignal gain offset ns ds
                loop data g calls1 calls2) as H.
  destruct (integration _ _ _ _ _ _ _ _ _ (data, World g calls1) loop)
    as [[d1 [g1 c1]]| e1 |];
    destruct (integration _ _ _ _ _ _ _ _ _ (data, World g calls2) loop)
    as [[d2 [g2 c2]]| e2 |]; try contradiction; cbn [bind].
  - destruct H as [-> H]. cbn in H. subst g2. apply IH.
  - now subst e2.
  - reflexivity.
Qed.

(** Seeds that are given and are not 0 fix the ramp: it is the same in
    whatever state the call is made. *)
Lemma make_exposure_reproducible :
  forall (nints ngrps : Z) (darksignal : array2) (gain : Q) (pca0 : string)
         (noise_seed dark_seed : Z) (offset : Q) (w1 w2 : world),
    noise_seed <> 0%Z -> dark_seed <> 0%Z ->
    exposure_of (make_exposure seeded mknoise nints ngrps darksignal gain
                   pca0 (Some noise_seed) (Some dark_seed) offset w1)
    = exposure_of (make_exposure seeded mknoise nints ngrps darksignal gain
                     pca0 (Some noise_seed) (Some dark_seed) offset w2).
Proof.
  intros nints ngrps darksignal gain pca0 ns ds offset w1 w2 Hns Hds.
  unfold make_exposure.
  destruct ((nints <? 1) || (ngrps <? 1))%Z; [reflexivity|].
  rewrite !pick_seed_given by assumption.
  destruct (np_random_seed seeded ds) as [g| |]; cbn [bind]; try reflexivity.
  apply integrations_calls.
Qed.

End MakeExposure.

Lemma make_exposure_degenerate_witness :
  (0 < 1 \/ 5 < 1)%Z
  /\ make_exposure sample_seeded sample_mknoise 0 5 dark_1x1 1 "pca0.fits"
       None None 500 world_half
     = Returns (None, world_half).
Proof.
  assert (H : (0 < 1 \/ 5 < 1)%Z) by (left; lia).
  split; [exact H|].
  exact (make_exposure_degenerate sample_seeded sample_mknoise 0%Z 5%Z
           dark_1x1 1 "pca0.fits"%string None None 500 world_half H).
Defined.

(** C4, at the seed 0.  [noise_seed=0] is taken for a seed that was not
    given: the noise seed is drawn from the global generator, so the same
    call made in two states of that generator returns two different
    ramps. *)
Theorem make_exposure_seed_zero_not_reproducible :
  match
    make_exposure sample_seeded sample_mknoise 1 1 dark_1x1 1 "pca0.fits"
      (Some 0%Z) (Some 1%Z) 500 world_quarter,
    make_exposure sample_seeded sample_mknoise 1 1 dark_1x1 1 "pca0.fits"
      (Some 0%Z) (Some 1%Z) 500 world_half
  with
  | Returns (Some ramp1, _), Returns (Some ramp2, _) =>
      cpix ramp1 0 0 0 == 1000000007 /\ cpix ramp2 0 0 0 == 2000000007
  | _, _ => False
  end.
Proof.
  vm_compute. split; reflexivity.
Qed.

(** ** Arrays and broadcasting *)

Lemma bget_in (a : array2) (i j : nat) :
  (i < irows a)%nat -> (j < icols a)%nat -> bget a i j = ipix a i j.
Proof.
  intros Hi Hj. unfold bget.
  destruct (Nat.eqb_spec (irows a) 1), (Nat.eqb_spec (icols a) 1);
    f_equal; lia.
Qed.

Lemma broadcast_dim_same (a : nat) : broadcast_dim a a = Some a.
Proof. unfold broadcast_dim. now rewrite Nat.eqb_refl. Qed.

Lemma broadcast2_same (f : Q -> Q -> Q) (a b : array2) :
  irows a = irows b -> icols a = icols b ->
  broadcast2 f a b
  = Returns (Image (irows a) (icols a)
               (fun i j => f (bget a i j) (bget b i j))).
Proof.
  intros Hr Hc. unfold broadcast2.
  now rewrite <- Hr, <- Hc, !broadcast_dim_same.
Qed.

Lemma fits_same (a : array2) : fits (irows a) (icols a) a = true.
Proof. unfold fits. now rewrite !Nat.eqb_refl. Qed.

Lemma fits_shape (r c : nat) (a : array2) :
  irows a = r -> icols a = c -> fits r c a = true.
Proof. intros <- <-. apply fits_same. Qed.

Lemma image_all_true (p : Q -> bool) (a : array2) :
  (forall i j, p (ipix a i j) = true) -> image_all p a = true.
Proof.
  intros H. unfold image_all.
  apply forallb_forall. intros i _. apply forallb_forall. intros j _. apply H.
Qed.

Lemma poisson_variate_nonneg (lam raw : Q) :
  0 <= inject_Z (poisson_variate lam raw).
Proof.
  unfold poisson_variate. destruct (Qeq_bool lam 0).
  - apply Qle_refl.
  - change 0 with (inject_Z 0). rewrite <- Zle_Qle. apply Z.abs_nonneg.
Qed.

Lemma poisson_variate_zero (lam raw : Q) :
  lam == 0 -> poisson_variate lam raw = 0%Z.
Proof.
  intros H. unfold poisson_variate. now rewrite (Qeq_eq_bool _ _ H).
Qed.

(** ** Adding the signal, photon yield disabled *)

Section AddSignalPlain.

Variables (signals cube : array3) (pyimage zodi : array2).
Variables (frametime gain zodi_scale : Q) (g0 : rng).

Hypothesis same_shape : cshape cube = cshape signals.
Hypothesis yield_shape : ishape pyimage = (crows cube, ccols cube).
Hypothesis zodi_shape : ishape zodi = (crows cube, ccols cube).

Let F := cframes cube.
Let R := crows cube.
Let C := ccols cube.
Let background := imap (fun x => x * zodi_scale * frametime) zodi.
Let new := new_counts signals pyimage frametime gain zodi zodi_scale g0.

Lemma shapes_unfold :
  cframes signals = F /\ crows signals = R /\ ccols signals = C
  /\ irows pyimage = R /\ icols pyimage = C
  /\ irows zodi = R /\ icols zodi = C.
Proof.
  unfold cshape, ishape in *.
  injection same_shape as H1 H2 H3. injection yield_shape as H4 H5.
  injection zodi_shape as H6 H7. subst F R C. repeat split; congruence.
Qed.

(** The counts of frame [n], drawn with the generator [k] frames along. *)
Lemma frame_counts_plain (n v : nat) (g : rng) :
  (n < F)%nat ->
  tape g = tape g0 -> cursor g = (cursor g0 + n * (R * C))%nat ->
  exists newvalues g',
    frame_counts false R C
      (imap (fun x => x * gain * frametime) (frame signals n))
      pyimage background v g
    = Returns (v, newvalues, g')
    /\ irows newvalues = R /\ icols newvalues = C
    /\ tape g' = tape g0 /\ cursor g' = (cursor g0 + S n * (R * C))%nat
    /\ forall i j, (i < R)%nat -> (j < C)%nat ->
                   ipix newvalues i j = new n i j.
Proof.
  intros Hn Ht Hc.
  destruct shapes_unfold as (HF & HR & HC & HpR & HpC & HzR & HzC).
  unfold frame_counts.
  rewrite broadcast2_same by (cbn; congruence). cbn [bind].
  rewrite broadcast2_same by (cbn; congruence). cbn [bind].
  unfold poisson. rewrite image_all_true.
  2:{ intros i j. cbn [ipix imap]. apply Qle_bool_iff, Qabs_nonneg. }
  cbn [bind irows icols imap frame].
  eexists _, _. split; [reflexivity|].
  cbn [irows icols tape cursor advance].
  split; [exact HR|]. split; [exact HC|]. split; [exact Ht|].
  split; [rewrite Hc, HR, HC; lia|].
  intros i j Hi Hj. cbn [ipix].
  unfold new, new_counts, peek.
  rewrite Ht, Hc, HR, HC.
  cbn [ipix imap].
  rewrite (bget_in (Image R C _)), (bget_in background)
    by (cbn [irows icols imap background]; lia).
  cbn [ipix imap background].
  rewrite (bget_in (imap _ _)), (bget_in pyimage)
    by (cbn [irows icols imap frame]; lia).
  cbn [ipix imap frame]. do 3 f_equal. lia.
Qed.

Lemma signal_frame_plain (k : nat) (newcube : array3) (g : rng) :
  (k < F)%nat -> frames_done cube new g0 k newcube g ->
  exists newcube' g',
    signal_frame signals pyimage frametime gain background false
      (newcube, g) k
    = Returns (newcube', g')
    /\ frames_done cube new g0 (S k) newcube' g'.
Proof.
  intros Hk (HF & HR & HC & Ht & Hc & Hacc).
  fold F in HF. fold R in HR, Hc, Hacc. fold C in HC, Hc, Hacc.
  unfold signal_frame. rewrite HR, HC.
  destruct (frame_counts_plain k k g Hk Ht Hc)
    as (nv & g' & -> & HnR & HnC & Ht' & Hc' & Hnv).
  cbn [bind].
  assert (Hfit : forall a, irows a = R -> icols a = C ->
                           fits (crows newcube) (ccols newcube) a = true).
  { intros a Ha Hb. rewrite <- HR, <- HC in *. rewrite <- Ha, <- Hb.
    apply fits_same. }
  destruct k as [|m].
  - cbn [Nat.eqb]. unfold set_frame.
    rewrite HF. destruct (Nat.ltb_spec 0 F) as [_|]; [|lia]. cbn [negb].
    rewrite Hfit by assumption. cbn [bind].
    eexists _, _. split; [reflexivity|].
    unfold frames_done. cbn [cframes crows ccols cpix]. fold F R C.
    repeat (split; [first [assumption | reflexivity]|]).
    intros n i j Hn Hi Hj. replace n with 0%nat by lia.
    cbn [Nat.eqb accumulated]. rewrite bget_in by lia. now apply Hnv.
  - cbn [Nat.eqb]. unfold get_frame.
    replace (S m - 1)%nat with m by lia. rewrite HF.
    destruct (Nat.ltb_spec m F) as [_|]; [|lia]. cbn [bind].
    rewrite broadcast2_same by (cbn [irows icols frame]; congruence).
    cbn [bind]. unfold set_frame. rewrite HF.
    destruct (Nat.ltb_spec (S m) F) as [_|]; [|lia]. cbn [negb].
    rewrite Hfit by (cbn [irows icols frame]; assumption). cbn [bind].
    eexists _, _. split; [reflexivity|].
    unfold frames_done. cbn [cframes crows ccols cpix]. fold F R C.
    repeat (split; [first [assumption | reflexivity]|]).
    intros n i j Hn Hi Hj.
    destruct (Nat.eqb_spec n (S m)) as [->|Hne].
    + rewrite bget_in by (cbn [irows icols frame]; lia).
      cbn [ipix accumulated].
      rewrite !bget_in by (cbn [irows icols frame]; lia).
      cbn [ipix frame]. rewrite Hacc, Hnv by lia. reflexivity.
    + apply Hacc; lia.
Qed.

Lemma signal_frames_plain (m : nat) :
  forall (k : nat) (newcube : array3) (g : rng),
    (k + m = F)%nat -> frames_done cube new g0 k newcube g ->
    exists newcube' g',
      for_each (signal_frame signals pyimage frametime gain background false)
        (seq k m) (newcube, g)
      = Returns (newcube', g')
      /\ frames_done cube new g0 F newcube' g'.
Proof.
  induction m as [|m IH]; intros k newcube g Hk Hdone.
  - exists newcube, g. split; [reflexivity|].
    now replace F with k by lia.
  - cbn [seq for_each].
    destruct (signal_frame_plain k newcube g ltac:(lia) Hdone)
      as (nc1 & g1 & -> & Hdone1).
    cbn [bind]. apply IH; [lia | exact Hdone1].
Qed.

Lemma shape_eqb_refl (s : nat * nat * nat) : shape_eqb s s = true.
Proof. destruct s as [[f r] c]. cbn. now rewrite !Nat.eqb_refl. Qed.

(** With photon yield disabled and a gain that is not 0, [add_signal]
    returns the dark ramp plus the running sum of the counts over the
    gain. *)
Lemma add_signal_plain :
  ~ gain == 0 ->
  exists out g',
    add_signal signals cube pyimage frametime gain zodi zodi_scale false g0
    = Returns (out, g')
    /\ cshape out = cshape cube
    /\ forall n i j, (n < F)%nat -> (i < R)%nat -> (j < C)%nat ->
                     cpix out n i j
                     = cpix cube n i j + accumulated new n i j / gain.
Proof.
  intros Hgain. unfold add_signal.
  rewrite <- same_shape, shape_eqb_refl. cbn [negb].
  destruct (signal_frames_plain F 0 (cmap (fun x => x * 0) cube) g0)
    as (nc & g' & E & HF & HR & HC & _ & _ & Hacc).
  { reflexivity. }
  { unfold frames_done. cbn [cframes crows ccols cmap].
    repeat (split; [reflexivity|]). split; [lia|]. intros; lia. }
  fold R C in Hacc.
  fold background. fold F. rewrite E. cbn [bind].
  unfold cdiv. destruct (Qeq_bool gain 0) eqn:Eg;
    [apply Qeq_bool_eq in Eg; contradiction|].
  cbn [bind]. eexists _, _. split; [reflexivity|].
  split; [reflexivity|].
  intros n i j Hn Hi Hj. cbn [cpix cadd cmap]. now rewrite Hacc.
Qed.

End AddSignalPlain.

Lemma accumulated_step_le (new : nat -> nat -> nat -> Q) (n i j : nat) :
  (forall m, 0 <= new m i j) ->
  accumulated new n i j <= accumulated new (S n) i j.
Proof.
  intros H. cbn [accumulated]. specialize (H (S n)). lra.
Qed.

Lemma accumulated_zero (new : nat -> nat -> nat -> Q) (n i j : nat) :
  (forall m, new m i j == 0) -> accumulated new n i j == 0.
Proof.
  intros H. induction n as [|n IH]; cbn [accumulated].
  - apply H.
  - rewrite IH, H. reflexivity.
Qed.

Lemma Qdiv_nonneg (a d : Q) : 0 <= a -> 0 < d -> 0 <= a / d.
Proof.
  intros Ha Hd. unfold Qdiv. apply Qmult_le_0_compat; [exact Ha|].
  apply Qlt_le_weak, Qinv_lt_0_compat, Hd.
Qed.

(** C1, amended.  With photon yield disabled, a signal cube and a dark
    ramp of one shape, maps of the shape of a frame and a positive gain,
    [add_signal] returns the dark ramp plus the accumulated counts over the
    gain.  The counts accumulate as a ramp: frame 0 holds the counts drawn
    for it, frame [n+1] those of frame [n] plus the counts drawn for frame
    [n+1].  Counts are never negative, so the accumulated counts never
    decrease along the frames, and the returned ramp does not decrease
    between two frames wherever the dark ramp does not. *)
Theorem add_signal_ramp :
  forall (signals cube : array3) (pyimage : array2) (frametime gain : Q)
         (zodi : array2) (zodi_scale : Q) (g : rng),
    cshape cube = cshape signals ->
    ishape pyimage = (crows cube, ccols cube) ->
    ishape zodi = (crows cube, ccols cube) ->
    0 < gain ->
    let new := new_counts signals pyimage frametime gain zodi zodi_scale g in
    exists (out : array3) (g' : rng),
      add_signal signals cube pyimage frametime gain zodi zodi_scale false g
      = Returns (out, g')
      /\ cshape out = cshape cube
      /\ (forall i j, accumulated new 0 i j = new 0%nat i j)
      /\ (forall n i j,
             accumulated new (S n) i j = accumulated new n i j + new (S n) i j)
      /\ (forall n i j, 0 <= new n i j)
      /\ (forall n i j,
             (n < cframes cube)%nat -> (i < crows cube)%nat ->
             (j < ccols cube)%nat ->
             cpix out n i j = cpix cube n i j + accumulated new n i j / gain)
      /\ (forall n i j,
             accumulated new n i j <= accumulated new (S n) i j)
      /\ (forall n i j,
             (S n < cframes cube)%nat -> (i < crows cube)%nat ->
             (j < ccols cube)%nat ->
             cpix cube n i j <= cpix cube (S n) i j ->
             cpix out n i j <= cpix out (S n) i j).
Proof.
  intros signals cube pyimage frametime gain zodi zodi_scale g Hs Hy Hz Hgain
         new.
  assert (Hnew : forall n i j, 0 <= new n i j)
    by (intros; apply poisson_variate_nonneg).
  destruct (add_signal_plain signals cube pyimage zodi frametime gain
              zodi_scale g Hs Hy Hz) as (out & g' & E & Hshape & Hout).
  { intros H. rewrite H in Hgain. now apply Qlt_irrefl in Hgain. }
  exists out, g'. split; [exact E|]. split; [exact Hshape|].
  split; [reflexivity|]. split; [reflexivity|]. split; [exact Hnew|].
  split; [exact Hout|].
  split; [intros; apply accumulated_step_le; intros; apply Hnew|].
  intros n i j Hn Hi Hj Hdark.
  rewrite !Hout by lia. cbn [accumulated]. fold new.
  assert (0 <= new (S n) i j / gain) by (apply Qdiv_nonneg; auto).
  unfold Qdiv in *. lra.
Qed.

Lemma add_signal_ramp_witness :
  exists (out : array3) (g' : rng),
    add_signal unit_signal flat_dark unit_yield 1 2 no_zodi 0 false
      (constant_rng 3)
    = Returns (out, g')
    /\ cpix out 0 0 0 <= cpix out 1 0 0.
Proof.
  assert (Hs : cshape flat_dark = cshape unit_signal) by reflexivity.
  assert (Hy : ishape unit_yield = (crows flat_dark, ccols flat_dark))
    by reflexivity.
  assert (Hz : ishape no_zodi = (crows flat_dark, ccols flat_dark))
    by reflexivity.
  assert (Hgain : 0 < 2) by reflexivity.
  destruct (add_signal_ramp unit_signal flat_dark unit_yield 1 2 no_zodi 0
              (constant_rng 3) Hs Hy Hz Hgain)
    as (out & g' & E & _ & _ & _ & _ & _ & _ & Hmono).
  exists out, g'. split; [exact E|].
  apply Hmono; cbn; try lia. apply Qle_refl.
Defined.

(** C1 as stated fails.  With equal shapes and every map, scale, time and
    gain non-negative, the output is the dark ramp plus counts that do not
    decrease: where the dark ramp falls by more than the counts rise, the
    output falls.  Here there is no signal and the dark ramp goes from 5
    to 0. *)
Lemma add_signal_ramp_counterexample :
  cshape falling_dark = cshape no_signal
  /\ 0 <= ipix unit_yield 0 0 /\ 0 <= ipix no_zodi 0 0
  /\ match
       add_signal no_signal falling_dark unit_yield 1 1 no_zodi 0 false
         (constant_rng 3)
     with
     | Returns (out, _) => ~ cpix out 0 0 0 <= cpix out 1 0 0
     | _ => False
     end.
Proof.
  split; [reflexivity|]. split; [discriminate|]. split; [discriminate|].
  vm_compute. intros H. apply H. reflexivity.
Qed.

(** C6, amended.  With photon yield disabled, a signal cube of zeros, a
    dark ramp of the same shape, maps of the shape of a frame, a zodi
    scale of 0 and a gain that is not 0, [add_signal] returns a cube equal
    to the dark ramp. *)
Theorem add_signal_no_signal :
  forall (signals cube : array3) (pyimage : array2) (frametime gain : Q)
         (zodi : array2) (zodi_scale : Q) (g : rng),
    cshape cube = cshape signals ->
    ishape pyimage = (crows cube, ccols cube) ->
    ishape zodi = (crows cube, ccols cube) ->
    (forall n i j, cpix signals n i j == 0) ->
    zodi_scale == 0 ->
    ~ gain == 0 ->
    exists (out : array3) (g' : rng),
      add_signal signals cube pyimage frametime gain zodi zodi_scale false g
      = Returns (out, g')
      /\ cshape out = cshape cube
      /\ forall n i j,
           (n < cframes cube)%nat -> (i < crows cube)%nat ->
           (j < ccols cube)%nat ->
           cpix out n i j == cpix cube n i j.
Proof.
  intros signals cube pyimage frametime gain zodi zodi_scale g Hs Hy Hz
         Hzero Hscale Hgain.
  destruct (add_signal_plain signals cube pyimage zodi frametime gain
              zodi_scale g Hs Hy Hz Hgain) as (out & g' & E & Hshape & Hout).
  exists out, g'. split; [exact E|]. split; [exact Hshape|].
  intros n i j Hn Hi Hj. rewrite Hout by assumption.
  rewrite accumulated_zero.
  - field. exact Hgain.
  - intros m. unfold new_counts. rewrite poisson_variate_zero; [reflexivity|].
    rewrite Hzero, Hscale.
    setoid_replace (0 * gain * frametime * ipix pyimage i j
                    + ipix zodi i j * 0 * frametime) with 0 by ring.
    reflexivity.
Qed.

Lemma add_signal_no_signal_witness :
  exists (out : array3) (g' : rng),
    add_signal no_signal falling_dark double_yield 1 2 no_zodi 0 false
      (constant_rng 3)
    = Returns (out, g')
    /\ cpix out 1 0 0 == cpix falling_dark 1 0 0.
Proof.
  assert (Hs : cshape falling_dark = cshape no_signal) by reflexivity.
  assert (Hy : ishape double_yield = (crows falling_dark, ccols falling_dark))
    by reflexivity.
  assert (Hz : ishape no_zodi = (crows falling_dark, ccols falling_dark))
    by reflexivity.
  assert (Hzero : forall n i j, cpix no_signal n i j == 0).
  { intros [|[|[|n]]] [|[|i]] [|[|j]]; reflexivity. }
  assert (Hscale : 0 == 0) by reflexivity.
  assert (Hgain : ~ 2 == 0) by discriminate.
  destruct (add_signal_no_signal no_signal falling_dark double_yield 1 2
              no_zodi 0 (constant_rng 3) Hs Hy Hz Hzero Hscale Hgain)
    as (out & g' & E & _ & Hout).
  exists out, g'. split; [exact E|]. apply Hout; cbn; lia.
Defined.

(** C6 as stated fails for the gain 0: the counts, all 0, are divided by
    the gain, and 0/0 is not a number, so the cube returned is not the
    dark ramp. *)
Lemma add_signal_no_signal_counterexample :
  cshape flat_dark = cshape no_signal
  /\ 0 <= ipix unit_yield 0 0
  /\ add_signal no_signal flat_dark unit_yield 1 0 no_zodi 0 false
       (constant_rng 3)
     = NonFinite.
Proof.
  split; [reflexivity|]. split; [discriminate|]. reflexivity.
Qed.

(** With photon yield enabled and a yield above 1, the loop over the
    pixels assigns [n], the index of the frame, the count of the last such
    pixel.  With a count of 1 in each of two frames the new counts of
    both, 2 each, are written to frame 1 and frame 0 stays empty; with a
    count of 3 the index is outside the cube. *)
Example add_signal_photon_yield_index :
  match
    add_signal unit_signal flat_dark double_yield 1 1 no_zodi 0 true
      (constant_rng 1)
  with
  | Returns (out, _) =>
      map (map (map Qred)) (frames_of_cube out) = [[[5]]; [[7]]]
  | _ => False
  end
  /\ add_signal unit_signal flat_dark double_yield 1 1 no_zodi 0 true
       (constant_rng 3)
     = Raises IndexError.
Proof.
  split; reflexivity.
Qed.

(** ** Non-linearity *)

(** The guard of [non_linearity] does refuse a coefficient stack whose
    number of rows is not the one of the cube. *)
Lemma non_linearity_rows_differ (cube nonlinearity : array3) (offset : Q) :
  crows nonlinearity <> crows cube ->
  non_linearity cube nonlinearity offset = Raises ValueError.
Proof.
  intros H. unfold non_linearity.
  destruct (Nat.eqb_spec (crows nonlinearity) (crows cube)); [contradiction|].
  reflexivity.
Qed.

(** C3, at a coefficient stack of one column against a cube of two.  The
    numbers of columns differ, the numbers of rows do not, and the guard
    only looks at the rows: the call returns, with the single column of
    coefficients spread over both columns of the frame. *)
Theorem non_linearity_columns_differ_returns :
  crows column_coefficients = crows square_ramp
  /\ ccols column_coefficients <> ccols square_ramp
  /\ match non_linearity square_ramp column_coefficients 0 with
     | Returns out =>
         map (map (map Qred)) (frames_of_cube out) = [[[2; 6]; [21; 36]]]
     | _ => False
     end.
Proof.
  split; [reflexivity|]. split; [discriminate|]. vm_compute. reflexivity.
Qed.

(** C7, at a cube whose frames have a single column and two rows.  The
    coefficients have the shape of the frames and are all 0, and the call
    raises [ValueError] instead of returning the cube: [np.squeeze] makes
    the frame a one-dimensional array of length 2, its product with the
    coefficient image of shape (2, 1) has shape (2, 2), and that does not
    fit the frame it is assigned to. *)
Theorem non_linearity_single_column_raises :
  crows column_zeros = crows column_ramp
  /\ ccols column_zeros = ccols column_ramp
  /\ (forall n i j, cpix column_zeros n i j == 0)
  /\ non_linearity column_ramp column_zeros 0 = Raises ValueError.
Proof.
  split; [reflexivity|]. split; [reflexivity|]. split; [|reflexivity].
  intros [|[|n]] [|[|[|i]]] [|[|j]]; reflexivity.
Qed.

Section NonLinearity.

Variables (cube nonlinearity : array3) (offset : Q).

Hypothesis same_rows : crows nonlinearity = crows cube.
Hypothesis same_cols : ccols nonlinearity = ccols cube.
(** The frames are not a single column of several rows. *)
Hypothesis not_a_column : ccols cube <> 1%nat \/ crows cube = 1%nat.

Let F := cframes cube.
Let R := crows cube.
Let C := ccols cube.

Lemma squeeze_frame (c : array3) (k : nat) :
  crows c = R -> ccols c = C -> squeeze (frame c k) = frame c k.
Proof.
  intros HR HC. unfold squeeze. cbn [irows icols frame]. rewrite HR, HC.
  unfold R, C. destruct not_a_column as [H|H].
  - destruct (Nat.eqb_spec (ccols cube) 1) as [E|_]; [contradiction|].
    reflexivity.
  - rewrite H, Nat.eqb_refl, andb_false_r. reflexivity.
Qed.

(** The sum over the coefficients [ns], for a frame [fr]. *)
Lemma nl_terms (fr : array2) (ns : list nat) :
  irows fr = R -> icols fr = C ->
  forall sum1 : array2,
    irows sum1 = R -> icols sum1 = C ->
    exists sum1' : array2,
      for_each (nl_term nonlinearity fr) ns sum1 = Returns sum1'
      /\ irows sum1' = R /\ icols sum1' = C
      /\ forall i j, (i < R)%nat -> (j < C)%nat ->
           ipix sum1' i j
           = correction_sum (fun n => cpix nonlinearity n i j) (ipix fr i j)
               ns (ipix sum1 i j).
Proof.
  intros HfR HfC. induction ns as [|n ns IH]; intros sum1 HsR HsC.
  - exists sum1. repeat split; assumption.
  - cbn [for_each]. unfold nl_term at 1.
    rewrite broadcast2_same
      by (cbn [irows icols frame imap]; unfold R, C in *; congruence).
    cbn [bind].
    rewrite broadcast2_same
      by (cbn [irows icols frame imap]; unfold R, C in *; congruence).
    cbn [bind].
    match goal with |- context [for_each _ ns ?s] =>
      destruct (IH s) as (s' & -> & HR' & HC' & Hpix) end;
      [cbn [irows]; exact HsR | cbn [icols]; exact HsC |].
    exists s'. repeat (split; [first [reflexivity | assumption]|]).
    intros i j Hi Hj. rewrite Hpix by assumption.
    unfold correction_sum. cbn [fold_left ipix]. f_equal.
    rewrite (bget_in sum1), (bget_in (Image _ _ _))
      by (cbn [irows icols frame]; unfold R, C in *; lia).
    cbn [ipix].
    rewrite (bget_in (frame _ _)), (bget_in (imap _ _))
      by (cbn [irows icols frame imap]; unfold R, C in *; lia).
    reflexivity.
Qed.

Lemma nl_frame_corrects (k : nat) (newcube : array3) :
  (k < F)%nat -> corrected_before cube nonlinearity offset k newcube ->
  exists newcube',
    nl_frame nonlinearity newcube k = Returns newcube'
    /\ corrected_before cube nonlinearity offset (S k) newcube'.
Proof.
  intros Hk (HF & HR & HC & Hpix).
  fold F in HF, Hpix. fold R in HR, Hpix. fold C in HC, Hpix.
  unfold nl_frame.
  rewrite squeeze_frame by assumption.
  destruct (nl_terms (frame newcube k) (rev (seq 0 (cframes nonlinearity)))
              HR HC (imap (fun x => x * 0) (frame newcube k)) HR HC)
    as (sum1 & -> & HsR & HsC & Hsum).
  cbn [bind].
  rewrite broadcast2_same by (cbn [irows icols frame imap]; congruence).
  cbn [bind]. unfold set_frame. rewrite HF.
  destruct (Nat.ltb_spec k F) as [_|]; [|lia]. cbn [negb].
  cbn [irows icols frame]. rewrite fits_shape by reflexivity.
  eexists. split; [reflexivity|].
  unfold corrected_before. cbn [cframes crows ccols cpix]. fold F R C.
  repeat (split; [first [reflexivity | assumption]|]).
  intros n i j Hn Hi Hj.
  destruct (Nat.eqb_spec n k) as [->|Hne].
  - destruct (Nat.ltb_spec k (S k)) as [_|]; [|lia].
    rewrite bget_in by (cbn [irows icols]; fold R C; rewrite ?HR, ?HC; lia).
    cbn [ipix].
    rewrite (bget_in (frame _ _)), (bget_in (imap _ _))
      by (cbn [irows icols frame imap]; lia).
    cbn [ipix imap frame]. rewrite Hsum by assumption.
    cbn [ipix imap frame]. rewrite Hpix by assumption.
    destruct (Nat.ltb_spec k k) as [|_]; [lia|]. reflexivity.
  - rewrite Hpix by assumption.
    destruct (Nat.ltb_spec n k), (Nat.ltb_spec n (S k)); try lia; reflexivity.
Qed.

Lemma nl_frames_correct (m : nat) :
  forall (k : nat) (newcube : array3),
    (k + m = F)%nat -> corrected_before cube nonlinearity offset k newcube ->
    exists newcube',
      for_each (nl_frame nonlinearity) (seq k m) newcube = Returns newcube'
      /\ corrected_before cube nonlinearity offset F newcube'.
Proof.
  induction m as [|m IH]; intros k newcube Hk Hdone.
  - exists newcube. split; [reflexivity|]. now replace F with k by lia.
  - cbn [seq for_each].
    destruct (nl_frame_corrects k newcube ltac:(lia) Hdone)
      as (nc1 & -> & Hdone1).
    cbn [bind]. apply IH; [lia | exact Hdone1].
Qed.

(** When the coefficient images have the shape of the frames, and the
    frames are not a single column of several rows, [non_linearity] turns
    every value [v] into [corrected (v - offset) + offset]: the offset is
    subtracted, [x] becomes [x * (1 + sum of coeff[n] * x^(n+1))], and the
    offset is added again. *)
Lemma non_linearity_polynomial :
  exists out : array3,
    non_linearity cube nonlinearity offset = Returns out
    /\ cshape out = cshape cube
    /\ forall n i j, (n < F)%nat -> (i < R)%nat -> (j < C)%nat ->
         cpix out n i j
         = corrected (fun m => cpix nonlinearity m i j)
             (cframes nonlinearity) (cpix cube n i j - offset)
           + offset.
Proof.
  unfold non_linearity. rewrite same_rows, Nat.eqb_refl. cbn [negb orb].
  fold F.
  destruct (nl_frames_correct F 0 (cmap (fun x => x - offset) cube))
    as (nc & -> & HF & HR & HC & Hpix).
  { reflexivity. }
  { unfold corrected_before. cbn [cframes crows ccols cmap cpix].
    repeat (split; [reflexivity|]). intros n i j _ _ _. reflexivity. }
  cbn [bind]. eexists. split; [reflexivity|].
  split; [unfold cshape; cbn [cframes crows ccols cmap];
          unfold F, R, C in *; congruence|].
  intros n i j Hn Hi Hj. cbn [cpix cmap]. rewrite Hpix by assumption.
  destruct (Nat.ltb_spec n F); [reflexivity | lia].
Qed.

Lemma correction_sum_zero (coeff : nat -> Q) (x : Q) (ns : list nat) :
  (forall n, coeff n == 0) ->
  forall start, correction_sum coeff x ns start == start.
Proof.
  intros Hzero. induction ns as [|n ns IH]; intros start; [reflexivity|].
  unfold correction_sum in *. cbn [fold_left]. rewrite IH, Hzero. ring.
Qed.

(** Under the same conditions, coefficients that are all 0 leave the cube
    as it is. *)
Lemma non_linearity_zero_coefficients :
  (forall n i j, cpix nonlinearity n i j == 0) ->
  exists out : array3,
    non_linearity cube nonlinearity offset = Returns out
    /\ cshape out = cshape cube
    /\ forall n i j, (n < F)%nat -> (i < R)%nat -> (j < C)%nat ->
         cpix out n i j == cpix cube n i j.
Proof.
  intros Hzero.
  destruct non_linearity_polynomial as (out & E & Hshape & Hpix).
  exists out. split; [exact E|]. split; [exact Hshape|].
  intros n i j Hn Hi Hj. rewrite Hpix by assumption. unfold corrected.
  rewrite correction_sum_zero by (intros; apply Hzero). ring.
Qed.

End NonLinearity.

(** ** Conversion to unsigned integers *)




(** ** Storage as float32 *)



(** ** Rounding to float32 *)





Lemma two_neq_0 : ~ 2 == 0.
Proof. discriminate. Qed.


Lemma pow2_succ (e : Z) : 2 ^ (e + 1) == 2 * 2 ^ e.
Proof. rewrite Qpower_plus by exact two_neq_0. ring. Qed.

Lemma pow2_pred (e : Z) : 2 ^ (e - 1) == (1 # 2) * 2 ^ e.
Proof.
  replace e with ((e - 1) + 1)%Z at 2 by lia. rewrite pow2_succ. ring.
Qed.























(** ** Pedestal *)

Section Pedestal.

Variables (cube : array3) (pedestal : array2) (offset : Q).
Hypothesis pedestal_shape : ishape pedestal = (crows cube, ccols cube).

Let F := cframes cube.
Let R := crows cube.
Let C := ccols cube.
Let ped1 := imap (fun x => x + (offset - 500)) pedestal.

Hypothesis stored_finite :
  forall n i j, (n < F)%nat -> (i < R)%nat -> (j < C)%nat ->
    Qabs (float32 (cpix cube n i j + (ipix pedestal i j + (offset - 500))))
    < 2 ^ 128.




End Pedestal.




(** ** The light curve of a pixel *)

(** [flux[mask] += noise] leaves the entries outside the mask as they are
    and adds a value of [noise] to each entry inside it: the entry is not
    replaced. *)
Lemma add_where_adds (mask : Q -> bool) (flux : list Q) :
  forall noise : list Q,
    length noise = length (filter mask flux) ->
    Forall2 (fun before after =>
               if mask before
               then exists z, In z noise /\ after = before + z
               else after = before)
            flux (add_where mask flux noise).
Proof.
  induction flux as [|f flux IH]; intros noise Hlen; cbn [add_where].
  - constructor.
  - cbn [filter] in Hlen. destruct (mask f) eqn:E.
    + destruct noise as [|z noise]; [discriminate|].
      cbn [length] in Hlen. injection Hlen as Hlen.
      constructor.
      * rewrite E. exists z. split; [now left | reflexivity].
      * eapply Forall2_impl; [|apply IH; exact Hlen].
        intros before after. cbn beta. destruct (mask before); [|auto].
        intros (z' & Hin & ->). exists z'. split; [now right | reflexivity].
    + constructor; [now rewrite E | now apply IH].
Qed.

(** The step written to replace the low values: every entry below the
    floor comes out as the entry itself plus the floor plus a deviate, and
    the other entries are kept. *)
Lemma low_signal_adds (floor : Q) (flux : list Q) (g : rng) :
  exists (out : list Q) (g' : rng),
    low_signal floor flux g = Returns (out, g')
    /\ Forall2 (fun before after =>
                  if Qlt_bool before floor
                  then exists deviate, after = before + (floor + 1 * deviate)
                  else after = before)
               flux out.
Proof.
  unfold low_signal, normal. change (Qle_bool 0 1) with true. cbn [bind].
  eexists _, _. split; [reflexivity|].
  eapply Forall2_impl; [|apply add_where_adds; now rewrite length_map, length_seq].
  intros before after. cbn beta. destruct (Qlt_bool before floor); [|auto].
  intros (z & Hin & ->). apply in_map_iff in Hin.
  destruct Hin as (d & <- & _). now exists (peek g d).
Qed.

(** C2.  For a pixel on the trace, with a wavelength the star covers, the
    light curve returned is the flux after the division by the response
    and the scaling by the PSF, passed through the step on low values; and
    that step does not replace an entry below the floor by the floor plus
    noise: the entry comes out as its own value plus the floor plus the
    deviate, so it still depends on the value it had.  For the flux
    [1; 5], the floor 2 and deviates 0 the step gives [3; 5], where a
    replacement would give [2; 5]. *)
Theorem lambda_lightcurve_low_signal_adds :
  (forall (TransitParams : Type)
          (transit_light_curve :
             string -> list Q -> Q -> TransitParams -> list Q -> list Q)
          (wavelength response distance : Q) (ld_coeffs : list Q)
          (ld_profile : string) (star : list Q * list Q)
          (planet : option (list Q * list Q)) (time : list Q)
          (params : TransitParams) (trace_radius SNR floor : Q) (extend : Z)
          (g : rng) (coverage : Q),
      distance <= trace_radius + inject_Z extend ->
      minimum (fst star) = Returns coverage ->
      coverage <= wavelength ->
      lambda_lightcurve TransitParams transit_light_curve wavelength response
        distance ld_coeffs ld_profile star planet time params trace_radius
        SNR floor extend g
      = ('(flux, g1) <- scaled_flux TransitParams transit_light_curve
                          wavelength response distance ld_coeffs ld_profile
                          star planet time params SNR extend g ;;
         low_signal floor flux g1)
      /\ forall (flux : list Q) (g1 : rng),
           exists (out : list Q) (g' : rng),
             low_signal floor flux g1 = Returns (out, g')
             /\ Forall2 (fun before after =>
                           if Qlt_bool before floor
                           then exists deviate,
                                  after = before + (floor + 1 * deviate)
                           else after = before)
                        flux out)
  /\ low_signal 2 [1; 5] (constant_rng 0)
     = Returns ([1 + (2 + 1 * 0); 5], advance 1 (constant_rng 0)).
Proof.
  split; [|reflexivity].
  intros TransitParams tlc wavelength response distance ld_coeffs ld_profile
         star planet time params trace_radius SNR floor extend g coverage
         Hdist Hmin Hcov.
  split; [|intros; apply low_signal_adds].
  unfold lambda_lightcurve, Qlt_bool.
  apply Qle_bool_iff in Hdist. apply Qle_bool_iff in Hcov.
  rewrite Hdist, Hmin. cbn [negb bind]. rewrite Hcov. reflexivity.
Qed.

Lemma lambda_lightcurve_low_signal_adds_witness :
  0 <= 25 + inject_Z 0
  /\ minimum (fst faint_star) = Returns (1 # 2)
  /\ (1 # 2) <= 1
  /\ lambda_lightcurve unit flat_light_curve 1 1 0 [] "quadratic" faint_star
       None [0; 1] tt 25 100 2 0 (constant_rng 0)
     = ('(flux, g1) <- scaled_flux unit flat_light_curve 1 1 0 []
                         "quadratic" faint_star None [0; 1] tt 100 0
                         (constant_rng 0) ;;
        low_signal 2 flux g1).
Proof.
  assert (Hdist : 0 <= 25 + inject_Z 0) by discriminate.
  assert (Hmin : minimum (fst faint_star) = Returns (1 # 2)) by reflexivity.
  assert (Hcov : (1 # 2) <= 1) by discriminate.
  split; [exact Hdist|]. split; [exact Hmin|]. split; [exact Hcov|].
  exact (proj1 (proj1 lambda_lightcurve_low_signal_adds unit flat_light_curve
                  1 1 0 [] "quadratic"%string faint_star None [0; 1] tt 25
                  100 2 0%Z (constant_rng 0) (1 # 2) Hdist Hmin Hcov)).
Defined.

(** * Further properties *)

(** ** The time axis: degenerate counts and order *)

Lemma known_frame_time (subarray : string) :
  known_subarray subarray = true -> exists ft, frame_times subarray = Some ft.
Proof.
  unfold known_subarray, frame_times. intros H.
  destruct (String.eqb subarray "SUBSTRIP96"); [eexists; reflexivity|].
  destruct (String.eqb subarray "SUBSTRIP256"); [eexists; reflexivity|].
  destruct (String.eqb subarray "FULL"); [eexists; reflexivity|].
  discriminate.
Qed.

(** The frame time that a call uses, whatever the name it is given. *)
Lemma frame_time_used (subarray : string) (ngrps nints : Z) (t0 : Q)
    (nresets : Z) :
  exists ft,
    0 < ft
    /\ snd (get_frame_times subarray ngrps nints t0 nresets)
       = (chunks <- integrations (Z.to_nat nints) ngrps nresets ft t0 [] ;;
          concatenate chunks).
Proof.
  unfold get_frame_times.
  destruct (known_subarray subarray) eqn:K.
  - unfold known_subarray in K. unfold frame_times.
    destruct (String.eqb subarray "SUBSTRIP96");
      [eexists; split; [|reflexivity]; reflexivity|].
    destruct (String.eqb subarray "SUBSTRIP256");
      [eexists; split; [|reflexivity]; reflexivity|].
    destruct (String.eqb subarray "FULL");
      [eexists; split; [|reflexivity]; reflexivity|].
    discriminate.
  - eexists. split; [|reflexivity]. reflexivity.
Qed.

(** Without an integration there is nothing to concatenate: for every
    subarray name and every other argument, [nints <= 0] ends in the
    [ValueError] of [np.concatenate]. *)
Theorem get_frame_times_no_integration :
  forall (subarray : string) (ngrps nints : Z) (t0 : Q) (nresets : Z),
    (nints <= 0)%Z ->
    snd (get_frame_times subarray ngrps nints t0 nresets) = Raises ValueError.
Proof.
  intros subarray ngrps nints t0 nresets H.
  destruct (frame_time_used subarray ngrps nints t0 nresets) as (ft & _ & ->).
  replace (Z.to_nat nints) with 0%nat by lia. reflexivity.
Qed.

Lemma get_frame_times_no_integration_witness :
  (0 <= 0)%Z
  /\ snd (get_frame_times "FULL" 5 0 0 1) = Raises ValueError.
Proof.
  assert (H : (0 <= 0)%Z) by lia.
  split; [exact H|].
  exact (get_frame_times_no_integration "FULL"%string 5%Z 0%Z 0 1%Z H).
Defined.

(** With an integration to make but no frame in it, resets included,
    [times[-1]] has nothing to read: [nresets + ngrps <= 0] ends in
    [IndexError]. *)
Theorem get_frame_times_no_frame :
  forall (subarray : string) (ngrps nints : Z) (t0 : Q) (nresets : Z),
    (1 <= nints)%Z -> (nresets + ngrps <= 0)%Z ->
    snd (get_frame_times subarray ngrps nints t0 nresets) = Raises IndexError.
Proof.
  intros subarray ngrps nints t0 nresets Hn Hf.
  destruct (frame_time_used subarray ngrps nints t0 nresets) as (ft & _ & ->).
  destruct (Z.to_nat nints) as [|k] eqn:E; [lia|].
  cbn [integrations]. unfold arange.
  replace (Z.to_nat (nresets + ngrps)) with 0%nat by lia. reflexivity.
Qed.

Lemma get_frame_times_no_frame_witness :
  (1 <= 3)%Z /\ (0 + 0 <= 0)%Z
  /\ snd (get_frame_times "SUBSTRIP96" 0 3 0 0) = Raises IndexError.
Proof.
  assert (Hn : (1 <= 3)%Z) by lia.
  assert (Hf : (0 + 0 <= 0)%Z) by lia.
  split; [exact Hn|]. split; [exact Hf|].
  exact (get_frame_times_no_frame "SUBSTRIP96"%string 0%Z 3%Z 0 0%Z Hn Hf).
Defined.

Lemma concatenate_retained (n : nat) (ngrps nresets : Z) (ft t : Q) :
  (1 <= n)%nat ->
  concatenate (retained n ngrps nresets ft t)
  = Returns (concat (retained n ngrps nresets ft t)).
Proof. destruct n; [lia | reflexivity]. Qed.

(** Position [k] of a time axis of [G] frames per integration. *)
Lemma split_index (G k : nat) :
  (0 < G)%nat -> k = ((k / G) * G + k mod G)%nat /\ (k mod G < G)%nat.
Proof.
  intros HG. split.
  - rewrite Nat.mul_comm. apply Nat.div_mod_eq.
  - apply Nat.mod_upper_bound. lia.
Qed.

(** For every subarray name, at least one group and one integration and
    no negative number of resets, the time axis is strictly increasing:
    each frame is later than the one before it. *)
Theorem get_frame_times_increasing :
  forall (subarray : string) (ngrps nints : Z) (t0 : Q) (nresets : Z),
    (1 <= ngrps)%Z -> (1 <= nints)%Z -> (0 <= nresets)%Z ->
    exists time_axis : list Q,
      snd (get_frame_times subarray ngrps nints t0 nresets) = Returns time_axis
      /\ forall k : nat,
           (S k < length time_axis)%nat ->
           nth k time_axis 0 < nth (S k) time_axis 0.
Proof.
  intros subarray ngrps nints t0 nresets Hg Hn Hr.
  destruct (frame_time_used subarray ngrps nints t0 nresets)
    as (ft & Hft & ->).
  rewrite integrations_retained by assumption. cbn [bind app].
  rewrite concatenate_retained by lia.
  eexists. split; [reflexivity|].
  intros k Hk. rewrite retained_length in Hk by assumption.
  remember (Z.to_nat ngrps) as G eqn:EG.
  assert (HG : (0 < G)%nat) by lia.
  destruct (split_index G k HG) as [Ek Hj].
  remember (k / G)%nat as i eqn:Ei. remember (k mod G)%nat as j eqn:Ej.
  assert (Hi : (i < Z.to_nat nints)%nat) by nia.
  pose proof (retained_nth ngrps nresets ft Hg Hr (Z.to_nat nints) t0 i j Hi)
    as Hk0.
  rewrite <- EG, <- Ek in Hk0. rewrite Hk0 by exact Hj.
  destruct (Nat.eq_dec (S j) G) as [Elast|Hmid].
  - pose proof (retained_nth ngrps nresets ft Hg Hr (Z.to_nat nints) t0
                  (S i) 0) as Hk1.
    rewrite <- EG in Hk1.
    replace (S i * G + 0)%nat with (S k) in Hk1 by (cbn [Nat.mul]; lia).
    rewrite Hk1 by nia.
    apply Qplus_lt_r. apply Qmult_lt_compat_r; [exact Hft|].
    rewrite <- Zlt_Qlt. lia.
  - pose proof (retained_nth ngrps nresets ft Hg Hr (Z.to_nat nints) t0
                  i (S j) Hi) as Hk1.
    rewrite <- EG in Hk1.
    replace (i * G + S j)%nat with (S k) in Hk1 by lia.
    rewrite Hk1 by lia.
    apply Qplus_lt_r. apply Qmult_lt_compat_r; [exact Hft|].
    rewrite <- Zlt_Qlt. lia.
Qed.

Lemma get_frame_times_increasing_witness :
  exists time_axis : list Q,
    snd (get_frame_times "SUBSTRIP96" 2 3 0 1) = Returns time_axis
    /\ nth 1 time_axis 0 < nth 2 time_axis 0.
Proof.
  assert (Hg : (1 <= 2)%Z) by lia.
  assert (Hn : (1 <= 3)%Z) by lia.
  assert (Hr : (0 <= 1)%Z) by lia.
  destruct (get_frame_times_increasing "SUBSTRIP96"%string 2%Z 3%Z 0 1%Z
              Hg Hn Hr) as (ts & E & Hinc).
  exists ts. split; [exact E|]. apply Hinc.
  cbn in E. injection E as <-. cbn. lia.
Defined.

(** ** A pedestal of another shape *)

Lemma broadcast_dim_fits (a b r : nat) :
  broadcast_dim a b = Some r ->
  ((r =? a)%nat || (r =? 1)%nat) = ((b =? a)%nat || (b =? 1)%nat).
Proof.
  unfold broadcast_dim.
  destruct (Nat.eqb_spec a b) as [->|Hab].
  { intros H. injection H as <-. reflexivity. }
  destruct (Nat.eqb_spec a 1) as [->|Ha].
  { intros H. injection H as <-. reflexivity. }
  destruct (Nat.eqb_spec b 1) as [->|Hb]; [|discriminate].
  intros H. injection H as <-. rewrite Nat.eqb_refl.
  now rewrite orb_true_r.
Qed.

(** [add_pedestal] takes a pedestal that broadcasts into a frame of the
    cube and no other: when the cube has a frame and the pedestal has
    neither the rows of the cube nor a single row, or neither its columns
    nor a single column, the call raises [ValueError], whatever the
    offset. *)
Theorem add_pedestal_shape_mismatch :
  forall (cube : array3) (pedestal : array2) (offset : Q),
    (0 < cframes cube)%nat ->
    fits (crows cube) (ccols cube) pedestal = false ->
    add_pedestal cube pedestal offset = Raises ValueError.
Proof.
  intros cube pedestal offset Hframes Hfits. unfold add_pedestal.
  destruct (cframes cube) as [|k] eqn:Ek; [lia|].
  cbn [seq for_each]. unfold pedestal_frame at 1, broadcast2.
  cbn [frame imap irows icols].
  destruct (broadcast_dim (crows cube) (irows pedestal)) as [r|] eqn:Er;
    [|reflexivity].
  destruct (broadcast_dim (ccols cube) (icols pedestal)) as [c|] eqn:Ec;
    [|reflexivity].
  cbn [bind]. unfold set_frame. cbn [cmap cframes crows ccols].
  rewrite Ek. cbn [Nat.ltb Nat.leb negb].
  unfold fits in *. cbn [irows icols imap].
  rewrite (broadcast_dim_fits _ _ _ Er), (broadcast_dim_fits _ _ _ Ec), Hfits.
  reflexivity.
Qed.

Lemma add_pedestal_shape_mismatch_witness :
  add_pedestal row_ramp (frame square_ramp 0) 500 = Raises ValueError.
Proof.
  assert (Hframes : (0 < cframes row_ramp)%nat) by (cbn; lia).
  assert (Hfits : fits (crows row_ramp) (ccols row_ramp)
                    (frame square_ramp 0) = false) by reflexivity.
  exact (add_pedestal_shape_mismatch row_ramp (frame square_ramp 0) 500
           Hframes Hfits).
Defined.

(** ** The dark ramp: seeds, calls and dark current *)

Lemma make_exposure_reproducible_witness :
  3%Z <> 0%Z /\ 5%Z <> 0%Z
  /\ exposure_of (make_exposure sample_seeded sample_mknoise 2 1 dark_1x1 1
                    "pca0.fits" (Some 3%Z) (Some 5%Z) 500 world_quarter)
     = exposure_of (make_exposure sample_seeded sample_mknoise 2 1 dark_1x1 1
                      "pca0.fits" (Some 3%Z) (Some 5%Z) 500 world_half).
Proof.
  assert (Hn : 3%Z <> 0%Z) by discriminate.
  assert (Hd : 5%Z <> 0%Z) by discriminate.
  split; [exact Hn|]. split; [exact Hd|].
  exact (make_exposure_reproducible sample_seeded sample_mknoise 2%Z 1%Z
           dark_1x1 1 "pca0.fits"%string 3%Z 5%Z 500 world_quarter world_half
           Hn Hd).
Defined.

Lemma set_frames_shape (c : array3) (lo len : nat) (src c' : array3) :
  set_frames c lo len src = Returns c' -> cshape c' = cshape c.
Proof.
  unfold set_frames. destruct (_ && _); [|discriminate].
  intros H. injection H as <-. reflexivity.
Qed.

Section MakeExposureCalls.

Variable seeded : Z -> nat -> Q.
Variable mknoise : hxrg_args -> mknoise_args -> rng -> ndarray * rng.
Variables (noisecube : hxrg_args) (ngrps : Z) (darksignal : array2).
Variables (gain offset : Q) (ns ds : Z).

(** The integrations keep the shape of the ramp and record one call of
    [mknoise] each, with the noise seed of their index. *)
Lemma integrations_record (m : nat) :
  forall (k : nat) (data : array3) (w : world) (data' : array3) (w' : world),
    for_each (integration seeded mknoise noisecube ngrps darksignal gain
                offset ns ds)
      (seq k m) (data, w)
    = Returns (data', w') ->
    cshape data' = cshape data
    /\ w_calls w' = w_calls w ++ map (mknoise_call gain offset ds ns) (seq k m).
Proof.
  induction m as [|m IH]; intros k data w data' w' H.
  - cbn in H. injection H as <- <-. split; [reflexivity|].
    cbn. now rewrite app_nil_r.
  - cbn [seq for_each] in H.
    destruct (integration _ _ _ _ _ _ _ _ _ (data, w) k)
      as [[data1 w1]| |] eqn:E; cbn [bind] in H; try discriminate.
    apply IH in H. destruct H as [Hs Hc].
    unfold integration in E. cbv zeta in E.
    match type of E with context [mknoise ?h ?a ?g] =>
      destruct (mknoise h a g) as [ramp g1] end.
    match type of E with context [add_dark_current ?s ?r ?d ?gn ?dk] =>
      destruct (add_dark_current s r d gn dk) as [[ramp' g2]| |] end;
      cbn [bind] in E; try discriminate.
    match type of E with context [set_frames ?c ?lo ?len ?src] =>
      destruct (set_frames c lo len src) as [data2| |] eqn:Es end;
      cbn [bind] in E; try discriminate.
    injection E as <- <-. apply set_frames_shape in Es.
    split; [congruence|].
    rewrite Hc. cbn [w_calls map]. rewrite <- app_assoc. reflexivity.
Qed.

End MakeExposureCalls.

(** When [make_exposure], given seeds that are not 0, returns a ramp, the
    ramp has [nints * ngrps] frames of the shape of the dark-signal map,
    and the noise generator was built once and then asked for one ramp per
    integration, integration [loop] with the noise seed
    [noise_seed + 24 * loop] and the dark seed as [dc_seed]. *)
Theorem make_exposure_calls :
  forall (seeded : Z -> nat -> Q)
         (mknoise : hxrg_args -> mknoise_args -> rng -> ndarray * rng)
         (nints ngrps : Z) (darksignal : array2) (gain : Q) (pca0 : string)
         (noise_seed dark_seed : Z) (offset : Q) (w w' : world)
         (ramp : array3),
    noise_seed <> 0%Z -> dark_seed <> 0%Z ->
    make_exposure seeded mknoise nints ngrps darksignal gain pca0
      (Some noise_seed) (Some dark_seed) offset w
    = Returns (Some ramp, w') ->
    cshape ramp = (Z.to_nat (nints * ngrps), irows darksignal, icols darksignal)
    /\ w_calls w'
       = w_calls w
         ++ CallHXRGNoise (HxrgArgs (irows darksignal) (icols darksignal)
                             ngrps pca0 0 0 2048)
         :: map (mknoise_call gain offset dark_seed noise_seed)
              (seq 0 (Z.to_nat nints)).
Proof.
  intros seeded mknoise nints ngrps darksignal gain pca0 ns ds offset w w'
         ramp Hns Hds H.
  unfold make_exposure in H.
  destruct ((nints <? 1) || (ngrps <? 1))%Z; [discriminate|].
  rewrite !pick_seed_given in H by assumption.
  destruct (np_random_seed seeded ds) as [g| |]; cbn [bind] in H;
    try discriminate.
  match type of H with context [for_each ?b ?l ?s] =>
    destruct (for_each b l s) as [[data w1]| |] eqn:E end;
    cbn [bind] in H; try discriminate.
  injection H as <- <-.
  apply integrations_record in E. destruct E as [Hs Hc].
  split; [exact Hs|].
  rewrite Hc. cbn [w_calls]. rewrite <- app_assoc. reflexivity.
Qed.

Lemma make_exposure_calls_witness :
  match
    make_exposure sample_seeded sample_mknoise 2 1 dark_1x1 1 "pca0.fits"
      (Some 3%Z) (Some 5%Z) 500 world_half
  with
  | Returns (Some ramp, w') =>
      cframes ramp = 2%nat
      /\ w_calls w'
         = [CallHXRGNoise (HxrgArgs 1 1 1 "pca0.fits" 0 0 2048);
            mknoise_call 1 500 5 3 0; mknoise_call 1 500 5 3 1]
  | _ => False
  end.
Proof.
  assert (Hn : 3%Z <> 0%Z) by discriminate.
  assert (Hd : 5%Z <> 0%Z) by discriminate.
  destruct (make_exposure sample_seeded sample_mknoise 2 1 dark_1x1 1
              "pca0.fits" (Some 3%Z) (Some 5%Z) 500 world_half)
    as [[[ramp|] w']| e |] eqn:E; try (vm_compute in E; discriminate E).
  destruct (make_exposure_calls sample_seeded sample_mknoise 2%Z 1%Z dark_1x1
              1 "pca0.fits"%string 3%Z 5%Z 500 world_half w' ramp Hn Hd E)
    as [Hs Hc].
  split; [now injection Hs | exact Hc].
Defined.

Lemma image_all_in (p : Q -> bool) (a : array2) :
  (forall i j, (i < irows a)%nat -> (j < icols a)%nat ->
               p (ipix a i j) = true) ->
  image_all p a = true.
Proof.
  intros H. unfold image_all.
  apply forallb_forall. intros i Hi. apply forallb_forall. intros j Hj.
  apply in_seq in Hi. apply in_seq in Hj. apply H; lia.
Qed.

Lemma image_all_out (p : Q -> bool) (a : array2) (i j : nat) :
  (i < irows a)%nat -> (j < icols a)%nat -> p (ipix a i j) = false ->
  image_all p a = false.
Proof.
  intros Hi Hj H. destruct (image_all p a) eqn:E; [|reflexivity].
  unfold image_all in E. rewrite forallb_forall in E.
  specialize (E i ltac:(apply in_seq; lia)).
  rewrite forallb_forall in E.
  specialize (E j ltac:(apply in_seq; lia)). congruence.
Qed.

Section AddDarkCurrent.

Variables (ramp0 : array3) (darksignal : array2) (gain : Q) (draws : nat -> Q).

Hypothesis dark_shape : ishape darksignal = (crows ramp0, ccols ramp0).
Hypothesis dark_nonneg :
  forall i j, (i < irows darksignal)%nat -> (j < icols darksignal)%nat ->
              0 <= ipix darksignal i j.
Hypothesis gain_nonzero : ~ gain == 0.

Lemma dark_frame_adds (k : nat) (st : array3 * array2 * rng) :
  (k < cframes ramp0)%nat ->
  dark_done ramp0 darksignal gain draws k st ->
  exists st',
    dark_frame gain darksignal st k = Returns st'
    /\ dark_done ramp0 darksignal gain draws (S k) st'.
Proof.
  destruct st as [[ramp total] g].
  intros Hk (Hs & Ht & Htape & Hcur & Htot & Hpix).
  unfold ishape in dark_shape, Ht. injection dark_shape as HdR HdC.
  injection Ht as HtR HtC.
  unfold cshape in Hs. injection Hs as HsF HsR HsC.
  unfold dark_frame, poisson.
  rewrite image_all_in
    by (intros; apply Qle_bool_iff; now apply dark_nonneg).
  cbn [bind]. unfold idiv.
  destruct (Qeq_bool gain 0) eqn:Eg;
    [apply Qeq_bool_eq in Eg; contradiction|].
  cbn [bind].
  rewrite broadcast2_same by (cbn [irows icols imap]; congruence).
  cbn [bind].
  rewrite broadcast2_same by (cbn [irows icols imap frame]; congruence).
  cbn [bind]. unfold set_frame. rewrite HsF.
  destruct (Nat.ltb_spec k (cframes ramp0)) as [_|]; [|lia]. cbn [negb].
  rewrite fits_shape by reflexivity.
  eexists (_, _, _). split; [reflexivity|].
  unfold dark_done, cshape, ishape.
  cbn [cframes crows ccols cpix irows icols ipix tape cursor advance].
  split; [congruence|]. split; [congruence|]. split; [exact Htape|].
  split; [rewrite Hcur; lia|].
  assert (Hnew : forall i j,
             (i < irows darksignal)%nat -> (j < icols darksignal)%nat ->
             bget total i j
             + bget (imap (fun x => x / gain)
                       (Image (irows darksignal) (icols darksignal)
                          (fun i0 j0 =>
                             inject_Z
                               (poisson_variate (ipix darksignal i0 j0)
                                  (peek g (i0 * icols darksignal + j0)))))) i j
             = dark_total darksignal gain draws k i j).
  { intros i j Hi Hj.
    rewrite (bget_in total), (bget_in (imap _ _))
      by (cbn [irows icols imap]; lia).
    cbn [ipix imap]. rewrite Htot by assumption.
    unfold peek. rewrite Htape, Hcur.
    destruct k as [|m]; cbn [dark_total]; unfold dark_signal;
      repeat f_equal; lia. }
  split; [exact Hnew|].
  intros n i j Hn Hi Hj.
  destruct (Nat.eqb_spec n k) as [->|Hne].
  - destruct (Nat.ltb_spec k (S k)) as [_|]; [|lia].
    rewrite bget_in by (cbn [irows icols frame]; lia). cbn [ipix].
    rewrite (bget_in (frame _ _)), (bget_in (Image _ _ _))
      by (cbn [irows icols frame]; lia).
    cbn [ipix frame]. rewrite Hnew by lia. rewrite Hpix by assumption.
    destruct (Nat.ltb_spec k k) as [|_]; [lia|]. reflexivity.
  - rewrite Hpix by assumption.
    destruct (Nat.ltb_spec n k), (Nat.ltb_spec n (S k)); try lia; reflexivity.
Qed.

Lemma dark_frames_add (m : nat) :
  forall (k : nat) (st : array3 * array2 * rng),
    (k + m = cframes ramp0)%nat ->
    dark_done ramp0 darksignal gain draws k st ->
    exists st',
      for_each (dark_frame gain darksignal) (seq k m) st = Returns st'
      /\ dark_done ramp0 darksignal gain draws (cframes ramp0) st'.
Proof.
  induction m as [|m IH]; intros k st Hk Hdone.
  - exists st. split; [reflexivity|].
    now replace (cframes ramp0) with k by lia.
  - cbn [seq for_each].
    destruct (dark_frame_adds k st ltac:(lia) Hdone) as (st1 & -> & Hdone1).
    cbn [bind]. apply IH; [lia | exact Hdone1].
Qed.

End AddDarkCurrent.

Lemma dark_signal_nonneg (darksignal : array2) (gain : Q) (draws : nat -> Q)
    (n i j : nat) :
  0 < gain -> 0 <= dark_signal darksignal gain draws n i j.
Proof.
  intros Hg. unfold dark_signal. apply Qdiv_nonneg; [|exact Hg].
  apply poisson_variate_nonneg.
Qed.

(** [add_dark_current] seeds the generator before it draws.  For a seed
    that [np.random.seed] accepts, a dark-signal map of the shape of the
    frames with no negative entry and a gain that is not 0, it returns the
    ramp with the running sum of the dark signal added: frame [n] gains
    the signal drawn for the frames 0 to [n], each the Poisson counts over
    the gain, read from the tape of the seed.  With a positive gain what
    is added never decreases from a frame to the next. *)
Theorem add_dark_current_accumulates :
  forall (seeded : Z -> nat -> Q) (ramp : array3) (seed : Z) (gain : Q)
         (darksignal : array2),
    (0 <= seed < 2 ^ 32)%Z ->
    ishape darksignal = (crows ramp, ccols ramp) ->
    (forall i j, (i < irows darksignal)%nat -> (j < icols darksignal)%nat ->
                 0 <= ipix darksignal i j) ->
    ~ gain == 0 ->
    exists (out : array3) (g' : rng),
      add_dark_current seeded ramp seed gain darksignal = Returns (out, g')
      /\ cshape out = cshape ramp
      /\ tape g' = seeded seed
      /\ (forall n i j,
             (n < cframes ramp)%nat -> (i < crows ramp)%nat ->
             (j < ccols ramp)%nat ->
             cpix out n i j
             = cpix ramp n i j
               + dark_total darksignal gain (seeded seed) n i j)
      /\ (0 < gain ->
          forall n i j,
            dark_total darksignal gain (seeded seed) n i j
            <= dark_total darksignal gain (seeded seed) (S n) i j).
Proof.
  intros seeded ramp seed gain darksignal Hseed Hshape Hnonneg Hgain.
  unfold add_dark_current, np_random_seed.
  replace ((0 <=? seed) && (seed <? 2 ^ 32))%Z with true
    by (symmetry; apply andb_true_iff; split;
        [apply Z.leb_le | apply Z.ltb_lt]; lia).
  cbn [bind].
  destruct (dark_frames_add ramp darksignal gain (seeded seed) Hshape Hnonneg
              Hgain (cframes ramp) 0
              (ramp, imap (fun x => x * 0) darksignal, Rng (seeded seed) 0))
    as ([[out total] g'] & -> & Hs & _ & Htape & _ & _ & Hpix).
  { reflexivity. }
  { unfold dark_done. cbn [tape cursor].
    repeat (split; [reflexivity|]); intros; reflexivity. }
  cbn [bind]. exists out, g'. split; [reflexivity|].
  split; [exact Hs|]. split; [exact Htape|]. split.
  - intros n i j Hn Hi Hj. rewrite Hpix by assumption.
    destruct (Nat.ltb_spec n (cframes ramp)); [reflexivity | lia].
  - intros Hpos n i j. cbn [dark_total].
    pose proof (dark_signal_nonneg darksignal gain (seeded seed) (S n) i j
                  Hpos). lra.
Qed.

Lemma add_dark_current_accumulates_witness :
  exists (out : array3) (g' : rng),
    add_dark_current sample_seeded flat_dark 4 2 unit_yield = Returns (out, g')
    /\ cpix out 1 0 0
       = cpix flat_dark 1 0 0 + dark_total unit_yield 2 (sample_seeded 4) 1 0 0.
Proof.
  assert (Hseed : (0 <= 4 < 2 ^ 32)%Z) by (split; [lia | reflexivity]).
  assert (Hshape : ishape unit_yield = (crows flat_dark, ccols flat_dark))
    by reflexivity.
  assert (Hnonneg : forall i j,
             (i < irows unit_yield)%nat -> (j < icols unit_yield)%nat ->
             0 <= ipix unit_yield i j).
  { intros [|i] [|j] Hi Hj; cbn in Hi, Hj; try lia. cbn. discriminate. }
  assert (Hgain : ~ 2 == 0) by discriminate.
  destruct (add_dark_current_accumulates sample_seeded flat_dark 4%Z 2
              unit_yield Hseed Hshape Hnonneg Hgain)
    as (out & g' & E & _ & _ & Hpix & _).
  exists out, g'. split; [exact E|]. apply Hpix; cbn; lia.
Defined.

(** A dark-signal map with a negative entry makes [np.random.poisson]
    raise [ValueError] at the first frame, whatever the ramp holds. *)
Theorem add_dark_current_negative_signal :
  forall (seeded : Z -> nat -> Q) (ramp : array3) (seed : Z) (gain : Q)
         (darksignal : array2) (i j : nat),
    (0 <= seed < 2 ^ 32)%Z ->
    (0 < cframes ramp)%nat ->
    (i < irows darksignal)%nat -> (j < icols darksignal)%nat ->
    ipix darksignal i j < 0 ->
    add_dark_current seeded ramp seed gain darksignal = Raises ValueError.
Proof.
  intros seeded ramp seed gain darksignal i j Hseed Hf Hi Hj Hneg.
  unfold add_dark_current, np_random_seed.
  replace ((0 <=? seed) && (seed <? 2 ^ 32))%Z with true
    by (symmetry; apply andb_true_iff; split;
        [apply Z.leb_le | apply Z.ltb_lt]; lia).
  cbn [bind].
  destruct (cframes ramp) as [|f]; [lia|].
  cbn [seq for_each]. unfold dark_frame at 1, poisson.
  rewrite (image_all_out _ darksignal i j Hi Hj); [reflexivity|].
  destruct (Qle_bool 0 (ipix darksignal i j)) eqn:E; [|reflexivity].
  apply Qle_bool_iff in E. exfalso. eapply Qlt_not_le; eassumption.
Qed.

Lemma add_dark_current_negative_signal_witness :
  add_dark_current sample_seeded flat_dark 4 2 negative_dark
  = Raises ValueError.
Proof.
  assert (Hseed : (0 <= 4 < 2 ^ 32)%Z) by (split; [lia | reflexivity]).
  assert (Hf : (0 < cframes flat_dark)%nat) by (cbn; lia).
  assert (Hi : (0 < irows negative_dark)%nat) by (cbn; lia).
  assert (Hj : (0 < icols negative_dark)%nat) by (cbn; lia).
  assert (Hneg : ipix negative_dark 0 0 < 0) by reflexivity.
  exact (add_dark_current_negative_signal sample_seeded flat_dark 4%Z 2
           negative_dark 0%nat 0%nat Hseed Hf Hi Hj Hneg).
Defined.

(** ** Adding the signal: shapes and photon yield *)

(** [add_signal] compares the shapes of its two cubes first: when they
    differ it raises [ValueError], with photon yield enabled or not, and
    draws nothing. *)
Theorem add_signal_shape_mismatch :
  forall (signals cube : array3) (pyimage : array2) (frametime gain : Q)
         (zodi : array2) (zodi_scale : Q) (photon_yield : bool) (g : rng),
    cshape cube <> cshape signals ->
    add_signal signals cube pyimage frametime gain zodi zodi_scale
      photon_yield g
    = Raises ValueError.
Proof.
  intros signals cube pyimage frametime gain zodi zodi_scale photon_yield g H.
  unfold add_signal.
  destruct (shape_eqb (cshape cube) (cshape signals)) eqn:E; [|reflexivity].
  exfalso. apply H. unfold cshape, shape_eqb in *.
  apply andb_true_iff in E. destruct E as [E E3].
  apply andb_true_iff in E. destruct E as [E1 E2].
  apply Nat.eqb_eq in E1, E2, E3. congruence.
Qed.

Lemma add_signal_shape_mismatch_witness :
  cshape flat_dark <> cshape square_ramp
  /\ add_signal square_ramp flat_dark unit_yield 1 1 no_zodi 0 true
       (constant_rng 3)
     = Raises ValueError.
Proof.
  assert (H : cshape flat_dark <> cshape square_ramp) by discriminate.
  split; [exact H|].
  exact (add_signal_shape_mismatch square_ramp flat_dark unit_yield 1 1
           no_zodi 0 true (constant_rng 3) H).
Defined.

Lemma pixels_in (rows cols k l : nat) :
  In (k, l) (pixels rows cols) -> (k < rows)%nat /\ (l < cols)%nat.
Proof.
  unfold pixels. intros H. apply in_flat_map in H.
  destruct H as (k' & Hk & H). apply in_map_iff in H.
  destruct H as (l' & E & Hl). injection E as -> ->.
  apply in_seq in Hk. apply in_seq in Hl. lia.
Qed.

(** Where no yield is above 1 the loop over the pixels changes nothing:
    not the counts, not the generator, and not the index [n]. *)
Lemma yield_pixels_idle (target : array2) (kls : list (nat * nat)) :
  (forall k l, In (k, l) kls ->
               (k < irows target)%nat /\ (l < icols target)%nat
               /\ ipix target k l <= 0) ->
  forall st, for_each (yield_pixel target) kls st = Returns st.
Proof.
  induction kls as [|[k l] kls IH]; intros H st; [reflexivity|].
  cbn [for_each]. destruct st as [[n nv] g].
  destruct (H k l (or_introl eq_refl)) as (Hk & Hl & Hle).
  unfold yield_pixel at 1.
  destruct (Nat.ltb_spec k (irows target)) as [_|]; [|lia].
  destruct (Nat.ltb_spec l (icols target)) as [_|]; [|lia].
  cbn [andb negb]. unfold Qlt_bool.
  apply Qle_bool_iff in Hle. rewrite Hle. cbn [negb bind].
  apply IH. intros k' l' Hin. apply H. now right.
Qed.

Section AddSignalYield.

Variables (signals cube : array3) (pyimage zodi : array2).
Variables (frametime gain zodi_scale : Q) (g0 : rng).

Hypothesis same_shape : cshape cube = cshape signals.
Hypothesis yield_shape : ishape pyimage = (crows cube, ccols cube).
Hypothesis zodi_shape : ishape zodi = (crows cube, ccols cube).
Hypothesis rate_nonneg :
  forall n i j, (n < cframes cube)%nat -> (i < crows cube)%nat ->
                (j < ccols cube)%nat ->
                0 <= cpix signals n i j * gain * frametime.
Hypothesis background_nonneg :
  forall i j, (i < crows cube)%nat -> (j < ccols cube)%nat ->
              0 <= ipix zodi i j * zodi_scale * frametime.
Hypothesis yield_at_most_one :
  forall i j, (i < crows cube)%nat -> (j < ccols cube)%nat ->
              ipix pyimage i j <= 1.

Let F := cframes cube.
Let R := crows cube.
Let C := ccols cube.
Let background := imap (fun x => x * zodi_scale * frametime) zodi.
Let new := yield_counts signals frametime gain zodi zodi_scale g0.

Lemma frame_counts_yield (n : nat) (g : rng) :
  (n < F)%nat ->
  tape g = tape g0 -> cursor g = (cursor g0 + n * (2 * (R * C)))%nat ->
  exists newvalues g',
    frame_counts true R C
      (imap (fun x => x * gain * frametime) (frame signals n))
      pyimage background n g
    = Returns (n, newvalues, g')
    /\ irows newvalues = R /\ icols newvalues = C
    /\ tape g' = tape g0
    /\ cursor g' = (cursor g0 + S n * (2 * (R * C)))%nat
    /\ forall i j, (i < R)%nat -> (j < C)%nat ->
                   ipix newvalues i j = new n i j.
Proof.
  intros Hn Ht Hc.
  destruct (shapes_unfold signals cube pyimage zodi same_shape yield_shape
              zodi_shape) as (HF & HR & HC & HpR & HpC & HzR & HzC).
  fold F in HF. fold R in HR, HpR, HzR. fold C in HC, HpC, HzC.
  unfold frame_counts, poisson.
  rewrite image_all_in.
  2:{ intros i j Hi Hj. cbn [irows icols imap frame ipix] in *.
      apply Qle_bool_iff. apply rate_nonneg; fold F R C; lia. }
  cbn [bind]. rewrite yield_pixels_idle.
  2:{ intros k l Hin. apply pixels_in in Hin. cbn [irows icols imap ipix].
      split; [lia|]. split; [lia|].
      pose proof (yield_at_most_one k l ltac:(fold R; lia) ltac:(fold C; lia)).
      lra. }
  cbn [bind]. rewrite image_all_in.
  2:{ intros i j Hi Hj. cbn [irows icols imap background ipix] in *.
      apply Qle_bool_iff. apply background_nonneg; fold R C; lia. }
  cbn [bind].
  rewrite broadcast2_same
    by (cbn [irows icols imap frame background]; congruence).
  cbn [bind irows icols imap frame].
  eexists _, _. split; [reflexivity|].
  cbn [irows icols tape cursor advance imap background].
  split; [exact HR|]. split; [exact HC|]. split; [exact Ht|].
  split; [rewrite Hc, HR, HC, HzR, HzC; lia|].
  intros i j Hi Hj. cbn [ipix].
  rewrite !bget_in by (cbn [irows icols imap background]; lia).
  cbn [ipix imap frame background].
  unfold new, yield_counts, peek. cbn [tape cursor advance].
  rewrite Ht, Hc, HR, HC, HzC.
  f_equal; do 3 f_equal; lia.
Qed.

Lemma signal_frame_yield (k : nat) (newcube : array3) (g : rng) :
  (k < F)%nat -> yield_frames_done cube new g0 k newcube g ->
  exists newcube' g',
    signal_frame signals pyimage frametime gain background true
      (newcube, g) k
    = Returns (newcube', g')
    /\ yield_frames_done cube new g0 (S k) newcube' g'.
Proof.
  intros Hk (HF & HR & HC & Ht & Hc & Hacc).
  fold F in HF. fold R in HR, Hc, Hacc. fold C in HC, Hc, Hacc.
  unfold signal_frame. rewrite HR, HC.
  destruct (frame_counts_yield k g Hk Ht Hc)
    as (nv & g' & -> & HnR & HnC & Ht' & Hc' & Hnv).
  cbn [bind].
  destruct k as [|m].
  - cbn [Nat.eqb]. unfold set_frame.
    rewrite HF. destruct (Nat.ltb_spec 0 F) as [_|]; [|lia]. cbn [negb].
    rewrite fits_shape by congruence. cbn [bind].
    eexists _, _. split; [reflexivity|].
    unfold yield_frames_done. cbn [cframes crows ccols cpix]. fold F R C.
    repeat (split; [first [assumption | reflexivity]|]).
    intros n i j Hn Hi Hj. replace n with 0%nat by lia.
    cbn [Nat.eqb accumulated]. rewrite bget_in by lia. now apply Hnv.
  - cbn [Nat.eqb]. unfold get_frame.
    replace (S m - 1)%nat with m by lia. rewrite HF.
    destruct (Nat.ltb_spec m F) as [_|]; [|lia]. cbn [bind].
    rewrite broadcast2_same by (cbn [irows icols frame]; congruence).
    cbn [bind]. unfold set_frame. rewrite HF.
    destruct (Nat.ltb_spec (S m) F) as [_|]; [|lia]. cbn [negb].
    rewrite fits_shape by reflexivity. cbn [bind].
    eexists _, _. split; [reflexivity|].
    unfold yield_frames_done. cbn [cframes crows ccols cpix]. fold F R C.
    repeat (split; [first [assumption | reflexivity]|]).
    intros n i j Hn Hi Hj.
    destruct (Nat.eqb_spec n (S m)) as [->|Hne].
    + rewrite bget_in by (cbn [irows icols frame]; lia).
      cbn [ipix accumulated].
      rewrite !bget_in by (cbn [irows icols frame]; lia).
      cbn [ipix frame]. rewrite Hacc, Hnv by lia. reflexivity.
    + apply Hacc; lia.
Qed.

Lemma signal_frames_yield (m : nat) :
  forall (k : nat) (newcube : array3) (g : rng),
    (k + m = F)%nat -> yield_frames_done cube new g0 k newcube g ->
    exists newcube' g',
      for_each (signal_frame signals pyimage frametime gain background true)
        (seq k m) (newcube, g)
      = Returns (newcube', g')
      /\ yield_frames_done cube new g0 F newcube' g'.
Proof.
  induction m as [|m IH]; intros k newcube g Hk Hdone.
  - exists newcube, g. split; [reflexivity|].
    now replace F with k by lia.
  - cbn [seq for_each].
    destruct (signal_frame_yield k newcube g ltac:(lia) Hdone)
      as (nc1 & g1 & -> & Hdone1).
    cbn [bind]. apply IH; [lia | exact Hdone1].
Qed.

Lemma add_signal_yield :
  ~ gain == 0 ->
  exists out g',
    add_signal signals cube pyimage frametime gain zodi zodi_scale true g0
    = Returns (out, g')
    /\ cshape out = cshape cube
    /\ forall n i j, (n < F)%nat -> (i < R)%nat -> (j < C)%nat ->
                     cpix out n i j
                     = cpix cube n i j + accumulated new n i j / gain.
Proof.
  intros Hgain. unfold add_signal.
  rewrite <- same_shape, shape_eqb_refl. cbn [negb].
  destruct (signal_frames_yield F 0 (cmap (fun x => x * 0) cube) g0)
    as (nc & g' & E & HF & HR & HC & _ & _ & Hacc).
  { reflexivity. }
  { unfold yield_frames_done. cbn [cframes crows ccols cmap].
    repeat (split; [reflexivity|]). split; [lia|]. intros; lia. }
  fold R C in Hacc.
  fold background. fold F. rewrite E. cbn [bind].
  unfold cdiv. destruct (Qeq_bool gain 0) eqn:Eg;
    [apply Qeq_bool_eq in Eg; contradiction|].
  cbn [bind]. eexists _, _. split; [reflexivity|].
  split; [reflexivity|].
  intros n i j Hn Hi Hj. cbn [cpix cadd cmap]. now rewrite Hacc.
Qed.

End AddSignalYield.

Lemma yield_counts_nonneg (signals : array3) (frametime gain : Q)
    (zodi : array2) (zodi_scale : Q) (g : rng) (n i j : nat) :
  0 <= yield_counts signals frametime gain zodi zodi_scale g n i j.
Proof.
  unfold yield_counts. cbv zeta.
  pose proof (poisson_variate_nonneg (cpix signals n i j * gain * frametime)
                (peek g (n * (2 * (crows signals * ccols signals))
                         + (i * ccols signals + j)))).
  pose proof (poisson_variate_nonneg (ipix zodi i j * zodi_scale * frametime)
                (peek g (n * (2 * (crows signals * ccols signals))
                         + crows signals * ccols signals
                         + (i * ccols signals + j)))).
  lra.
Qed.

(** With photon yield enabled, cubes of one shape, maps of the shape of a
    frame, no yield above 1, Poisson rates that are not negative and a
    positive gain, [add_signal] returns the dark ramp plus the accumulated
    counts over the gain, the counts of a frame being a draw for the
    signal plus a draw for the background.  No pixel asks for extra
    yield, so the index of the frame is left alone and the counts
    accumulate frame after frame; the output does not decrease between
    two frames wherever the dark ramp does not. *)
Theorem add_signal_photon_yield_ramp :
  forall (signals cube : array3) (pyimage : array2) (frametime gain : Q)
         (zodi : array2) (zodi_scale : Q) (g : rng),
    cshape cube = cshape signals ->
    ishape pyimage = (crows cube, ccols cube) ->
    ishape zodi = (crows cube, ccols cube) ->
    (forall n i j, (n < cframes cube)%nat -> (i < crows cube)%nat ->
                   (j < ccols cube)%nat ->
                   0 <= cpix signals n i j * gain * frametime) ->
    (forall i j, (i < crows cube)%nat -> (j < ccols cube)%nat ->
                 0 <= ipix zodi i j * zodi_scale * frametime) ->
    (forall i j, (i < crows cube)%nat -> (j < ccols cube)%nat ->
                 ipix pyimage i j <= 1) ->
    0 < gain ->
    let new := yield_counts signals frametime gain zodi zodi_scale g in
    exists (out : array3) (g' : rng),
      add_signal signals cube pyimage frametime gain zodi zodi_scale true g
      = Returns (out, g')
      /\ cshape out = cshape cube
      /\ (forall n i j,
             (n < cframes cube)%nat -> (i < crows cube)%nat ->
             (j < ccols cube)%nat ->
             cpix out n i j = cpix cube n i j + accumulated new n i j / gain)
      /\ (forall n i j,
             (S n < cframes cube)%nat -> (i < crows cube)%nat ->
             (j < ccols cube)%nat ->
             cpix cube n i j <= cpix cube (S n) i j ->
             cpix out n i j <= cpix out (S n) i j).
Proof.
  intros signals cube pyimage frametime gain zodi zodi_scale g Hs Hy Hz
         Hrate Hback Hyield Hgain new.
  destruct (add_signal_yield signals cube pyimage zodi frametime gain
              zodi_scale g Hs Hy Hz Hrate Hback Hyield)
    as (out & g' & E & Hshape & Hout).
  { intros H. rewrite H in Hgain. now apply Qlt_irrefl in Hgain. }
  exists out, g'. split; [exact E|]. split; [exact Hshape|].
  split; [exact Hout|].
  intros n i j Hn Hi Hj Hdark.
  rewrite !Hout by lia. cbn [accumulated]. fold new.
  assert (0 <= new (S n) i j / gain)
    by (apply Qdiv_nonneg; [apply yield_counts_nonneg | exact Hgain]).
  unfold Qdiv in *. lra.
Qed.

Lemma add_signal_photon_yield_ramp_witness :
  exists (out : array3) (g' : rng),
    add_signal unit_signal flat_dark unit_yield 1 2 no_zodi 0 true
      (constant_rng 3)
    = Returns (out, g')
    /\ cpix out 0 0 0 <= cpix out 1 0 0.
Proof.
  assert (Hs : cshape flat_dark = cshape unit_signal) by reflexivity.
  assert (Hy : ishape unit_yield = (crows flat_dark, ccols flat_dark))
    by reflexivity.
  assert (Hz : ishape no_zodi = (crows flat_dark, ccols flat_dark))
    by reflexivity.
  assert (Hrate : forall n i j,
             (n < cframes flat_dark)%nat -> (i < crows flat_dark)%nat ->
             (j < ccols flat_dark)%nat ->
             0 <= cpix unit_signal n i j * 2 * 1).
  { intros [|[|n]] [|i] [|j] Hn Hi Hj; cbn in Hn, Hi, Hj; try lia;
      cbn; discriminate. }
  assert (Hback : forall i j,
             (i < crows flat_dark)%nat -> (j < ccols flat_dark)%nat ->
             0 <= ipix no_zodi i j * 0 * 1).
  { intros [|i] [|j] Hi Hj; cbn in Hi, Hj; try lia; cbn; discriminate. }
  assert (Hyield : forall i j,
             (i < crows flat_dark)%nat -> (j < ccols flat_dark)%nat ->
             ipix unit_yield i j <= 1).
  { intros [|i] [|j] Hi Hj; cbn in Hi, Hj; try lia; cbn; discriminate. }
  assert (Hgain : 0 < 2) by reflexivity.
  destruct (add_signal_photon_yield_ramp unit_signal flat_dark unit_yield 1 2
              no_zodi 0 (constant_rng 3) Hs Hy Hz Hrate Hback Hyield Hgain)
    as (out & g' & E & _ & _ & Hmono).
  exists out, g'. split; [exact E|].
  apply Hmono; cbn; try lia. apply Qle_refl.
Defined.

(** With photon yield enabled a negative signal is not tolerated: when a
    pixel of the first frame has a negative rate [signal*gain*frametime],
    [np.random.poisson] raises [ValueError].  (With photon yield disabled
    the rates go through [np.abs] first.) *)
Theorem add_signal_photon_yield_negative_rate :
  forall (signals cube : array3) (pyimage : array2) (frametime gain : Q)
         (zodi : array2) (zodi_scale : Q) (g : rng) (i j : nat),
    cshape cube = cshape signals ->
    (0 < cframes cube)%nat -> (i < crows cube)%nat -> (j < ccols cube)%nat ->
    cpix signals 0 i j * gain * frametime < 0 ->
    add_signal signals cube pyimage frametime gain zodi zodi_scale true g
    = Raises ValueError.
Proof.
  intros signals cube pyimage frametime gain zodi zodi_scale g i j Hs Hf Hi
         Hj Hneg.
  unfold add_signal. rewrite <- Hs, shape_eqb_refl. cbn [negb].
  unfold cshape in Hs. injection Hs as HF HR HC.
  destruct (cframes cube) as [|f]; [lia|].
  cbn [seq for_each]. unfold signal_frame at 1, frame_counts, poisson.
  rewrite (image_all_out _ _ i j); [reflexivity| | |].
  - cbn [irows imap frame]. lia.
  - cbn [icols imap frame]. lia.
  - cbn [ipix imap frame].
    destruct (Qle_bool 0 (cpix signals 0 i j * gain * frametime)) eqn:E;
      [|reflexivity].
    apply Qle_bool_iff in E. exfalso. eapply Qlt_not_le; eassumption.
Qed.

Lemma add_signal_photon_yield_negative_rate_witness :
  add_signal unit_signal flat_dark unit_yield 1 (-1) no_zodi 0 true
    (constant_rng 3)
  = Raises ValueError.
Proof.
  assert (Hs : cshape flat_dark = cshape unit_signal) by reflexivity.
  assert (Hf : (0 < cframes flat_dark)%nat) by (cbn; lia).
  assert (Hi : (0 < crows flat_dark)%nat) by (cbn; lia).
  assert (Hj : (0 < ccols flat_dark)%nat) by (cbn; lia).
  assert (Hneg : cpix unit_signal 0 0 0 * (-1) * 1 < 0) by reflexivity.
  exact (add_signal_photon_yield_negative_rate unit_signal flat_dark
           unit_yield 1 (-1) no_zodi 0 (constant_rng 3) 0%nat 0%nat Hs Hf Hi
           Hj Hneg).
Defined.

(** ** Non-linearity: the guard, the polynomial and the identity *)

Lemma non_linearity_rows_differ_witness :
  crows flat_dark <> crows square_ramp
  /\ non_linearity square_ramp flat_dark 0 = Raises ValueError.
Proof.
  assert (H : crows flat_dark <> crows square_ramp) by discriminate.
  split; [exact H|].
  exact (non_linearity_rows_differ square_ramp flat_dark 0 H).
Defined.

(** Coefficient images that are 0 everywhere switch the correction off:
    when they have the shape of the frames, and the frames are not a
    single column of several rows, [non_linearity] returns a cube with the
    shape and the values of the one it was given, whatever the offset. *)
Theorem non_linearity_no_correction :
  forall (cube nonlinearity : array3) (offset : Q),
    crows nonlinearity = crows cube ->
    ccols nonlinearity = ccols cube ->
    ccols cube <> 1%nat \/ crows cube = 1%nat ->
    (forall n i j, cpix nonlinearity n i j == 0) ->
    exists out : array3,
      non_linearity cube nonlinearity offset = Returns out
      /\ cshape out = cshape cube
      /\ forall n i j,
           (n < cframes cube)%nat -> (i < crows cube)%nat ->
           (j < ccols cube)%nat ->
           cpix out n i j == cpix cube n i j.
Proof.
  intros cube nonlinearity offset Hr Hc Hn Hzero.
  destruct (non_linearity_polynomial cube nonlinearity offset Hr Hc Hn)
    as (out & E & Hs & Hpix).
  exists out. split; [exact E|]. split; [exact Hs|].
  intros n i j Hf Hi Hj. rewrite Hpix by assumption. unfold corrected.
  rewrite correction_sum_zero by (intros; apply Hzero). ring.
Qed.

Lemma non_linearity_no_correction_witness :
  exists out : array3,
    non_linearity square_ramp square_zeros 7 = Returns out
    /\ cpix out 0 1 1 == cpix square_ramp 0 1 1.
Proof.
  assert (Hr : crows square_zeros = crows square_ramp) by reflexivity.
  assert (Hc : ccols square_zeros = ccols square_ramp) by reflexivity.
  assert (Hn : ccols square_ramp <> 1%nat \/ crows square_ramp = 1%nat)
    by (left; discriminate).
  assert (Hz : forall n i j, cpix square_zeros n i j == 0).
  { intros [|[|n]] [|[|[|i]]] [|[|[|j]]]; reflexivity. }
  destruct (non_linearity_no_correction square_ramp square_zeros 7 Hr Hc
              Hn Hz) as (out & E & _ & Hpix).
  exists out. split; [exact E|]. apply Hpix; cbn; lia.
Defined.

Lemma correction_sum_series (coeff : nat -> Q) (x : Q) (n : nat) :
  forall start,
    correction_sum coeff x (rev (seq 0 n)) start
    == start + power_series coeff x n.
Proof.
  induction n as [|n IH]; intros start.
  - cbn. ring.
  - rewrite seq_S, rev_app_distr. cbn [rev app Nat.add].
    unfold correction_sum in *. cbn [fold_left]. rewrite IH.
    cbn [power_series]. ring.
Qed.

(** When the coefficient images have the shape of the frames, and the
    frames are not a single column of several rows, [non_linearity] maps
    every value [v] of the cube to [x * (1 + sum) + offset] with
    [x = v - offset] and [sum] the sum of [coeff[n] * x^(n+1)] over the
    coefficient images [n]: a polynomial in [x] without constant term,
    evaluated pixel by pixel, around the offset. *)
Theorem non_linearity_power_series :
  forall (cube nonlinearity : array3) (offset : Q),
    crows nonlinearity = crows cube ->
    ccols nonlinearity = ccols cube ->
    ccols cube <> 1%nat \/ crows cube = 1%nat ->
    exists out : array3,
      non_linearity cube nonlinearity offset = Returns out
      /\ cshape out = cshape cube
      /\ forall n i j,
           (n < cframes cube)%nat -> (i < crows cube)%nat ->
           (j < ccols cube)%nat ->
           let x := cpix cube n i j - offset in
           cpix out n i j
           == x * (1 + power_series (fun m => cpix nonlinearity m i j) x
                         (cframes nonlinearity))
              + offset.
Proof.
  intros cube nonlinearity offset Hr Hc Hn.
  destruct (non_linearity_polynomial cube nonlinearity offset Hr Hc Hn)
    as (out & E & Hs & Hpix).
  exists out. split; [exact E|]. split; [exact Hs|].
  intros n i j Hf Hi Hj x. rewrite Hpix by assumption.
  unfold corrected. fold x. rewrite correction_sum_series. ring.
Qed.

Lemma non_linearity_power_series_witness :
  exists out : array3,
    non_linearity square_ramp square_coefficients 1 = Returns out
    /\ cpix out 0 1 1 == (4 - 1) * (1 + (1 # 2) * (4 - 1)) + 1.
Proof.
  assert (Hr : crows square_coefficients = crows square_ramp) by reflexivity.
  assert (Hc : ccols square_coefficients = ccols square_ramp) by reflexivity.
  assert (Hn : ccols square_ramp <> 1%nat \/ crows square_ramp = 1%nat)
    by (left; discriminate).
  destruct (non_linearity_power_series square_ramp square_coefficients 1 Hr
              Hc Hn) as (out & E & _ & Hpix).
  exists out. split; [exact E|].
  rewrite (Hpix 0%nat 1%nat 1%nat) by (cbn; lia). reflexivity.
Defined.

(** ** The photon-yield map *)

Lemma pixels_all (rows cols : nat) (p : nat * nat -> bool) :
  (forall i j, (i < rows)%nat -> (j < cols)%nat -> p (i, j) = true) ->
  forallb p (pixels rows cols) = true.
Proof.
  intros H. apply forallb_forall. intros [i j] Hin.
  apply pixels_in in Hin. now apply H.
Qed.

Section MakePhotonYield.

Variables (photon_yield orders : array3).

Hypothesis same_rows : crows photon_yield = crows orders.
Hypothesis same_cols : ccols photon_yield = ccols orders.
Hypothesis enough_yields : (cframes orders <= cframes photon_yield)%nat.

Lemma yield_term_adds (k : nat) (st : array2 * array2) :
  (k < cframes orders)%nat ->
  yield_sums_done photon_yield orders k st ->
  exists st',
    yield_term photon_yield orders st k = Returns st'
    /\ yield_sums_done photon_yield orders (S k) st'.
Proof.
  destruct st as [sum1 sum2]. intros Hk (H1 & H2 & Hpix).
  unfold ishape in H1, H2. injection H1 as H1R H1C. injection H2 as H2R H2C.
  unfold yield_term, get_frame.
  destruct (Nat.ltb_spec k (cframes photon_yield)) as [_|]; [|lia].
  cbn [bind].
  rewrite broadcast2_same by (cbn [irows icols frame]; congruence).
  cbn [bind].
  rewrite broadcast2_same by (cbn [irows icols frame]; congruence).
  cbn [bind].
  rewrite broadcast2_same by (cbn [irows icols frame]; congruence).
  cbn [bind].
  eexists (_, _). split; [reflexivity|].
  unfold yield_sums_done, ishape. cbn [irows icols ipix frame].
  split; [congruence|]. split; [congruence|].
  intros i j Hi Hj. destruct (Hpix i j Hi Hj) as [E1 E2].
  rewrite (bget_in sum1), (bget_in sum2), (bget_in (Image _ _ _)),
    (bget_in (frame orders k))
    by (cbn [irows icols frame]; lia).
  cbn [ipix frame].
  rewrite (bget_in (frame photon_yield k)), (bget_in (frame orders k))
    by (cbn [irows icols frame]; lia).
  cbn [ipix frame yield_sum order_sum]. now rewrite E1, E2.
Qed.

Lemma yield_terms_add (m : nat) :
  forall (k : nat) (st : array2 * array2),
    (k + m = cframes orders)%nat ->
    yield_sums_done photon_yield orders k st ->
    exists st',
      for_each (yield_term photon_yield orders) (seq k m) st = Returns st'
      /\ yield_sums_done photon_yield orders (cframes orders) st'.
Proof.
  induction m as [|m IH]; intros k st Hk Hdone.
  - exists st. split; [reflexivity|].
    now replace (cframes orders) with k by lia.
  - cbn [seq for_each].
    destruct (yield_term_adds k st ltac:(lia) Hdone) as (st1 & -> & Hdone1).
    cbn [bind]. apply IH; [lia | exact Hdone1].
Qed.

(** The map is 1 where the orders sum to 0 and the quotient of the two
    sums elsewhere. *)
Lemma make_photon_yield_values :
  exists pyimage : array2,
    make_photon_yield photon_yield orders = Returns pyimage
    /\ ishape pyimage = (crows orders, ccols orders)
    /\ forall i j, (i < crows orders)%nat -> (j < ccols orders)%nat ->
         ipix pyimage i j
         = if Qeq_bool (order_sum orders (cframes orders) i j) 0 then 1
           else yield_sum photon_yield orders (cframes orders) i j
                / order_sum orders (cframes orders) i j.
Proof.
  unfold make_photon_yield.
  destruct (yield_terms_add (cframes orders) 0
              (Image (crows orders) (ccols orders) (fun _ _ => 0),
               Image (crows orders) (ccols orders) (fun _ _ => 0)))
    as ([sum1 sum2] & -> & H1 & H2 & Hpix).
  { reflexivity. }
  { unfold yield_sums_done, ishape. cbn [irows icols ipix].
    repeat (split; [reflexivity|]). intros; split; reflexivity. }
  cbn [bind]. unfold ishape in H1, H2.
  injection H1 as H1R H1C. injection H2 as H2R H2C.
  unfold yield_ratio. rewrite H1R, H1C, H2R, H2C, !broadcast_dim_same.
  rewrite pixels_all.
  2:{ intros i j Hi Hj.
      destruct (Nat.ltb_spec i (crows orders)); [|lia].
      destruct (Nat.ltb_spec j (ccols orders)); [|lia].
      apply orb_true_r. }
  cbn [negb]. rewrite pixels_all.
  2:{ intros i j Hi Hj. unfold no_signal_at. rewrite H2R, H2C.
      destruct (Nat.ltb_spec i (crows orders)); [|lia].
      destruct (Nat.ltb_spec j (ccols orders)); [|lia].
      rewrite bget_in by lia. cbn [andb].
      destruct (Qeq_bool (ipix sum2 i j) 0); reflexivity. }
  cbn [negb]. eexists. split; [reflexivity|].
  split; [reflexivity|].
  intros i j Hi Hj. cbn [ipix]. unfold no_signal_at. rewrite H2R, H2C.
  destruct (Nat.ltb_spec i (crows orders)); [|lia].
  destruct (Nat.ltb_spec j (ccols orders)); [|lia].
  cbn [andb]. rewrite !bget_in by lia.
  destruct (Hpix i j Hi Hj) as [-> ->]. reflexivity.
Qed.

End MakePhotonYield.

Lemma order_sum_nonneg (orders : array3) (i j n : nat) :
  (forall m, (m < n)%nat -> 0 <= cpix orders m i j) ->
  0 <= order_sum orders n i j.
Proof.
  induction n as [|n IH]; intros H; cbn [order_sum]; [apply Qle_refl|].
  specialize (IH (fun m Hm => H m ltac:(lia))).
  specialize (H n ltac:(lia)). lra.
Qed.

Lemma yield_sum_between (photon_yield orders : array3) (lo hi : Q)
    (i j n : nat) :
  (forall m, (m < n)%nat ->
             0 <= cpix orders m i j
             /\ lo <= cpix photon_yield m i j <= hi) ->
  lo * order_sum orders n i j <= yield_sum photon_yield orders n i j
  /\ yield_sum photon_yield orders n i j <= hi * order_sum orders n i j.
Proof.
  induction n as [|n IH]; intros H; cbn [order_sum yield_sum].
  - split; ring_simplify; apply Qle_refl.
  - destruct (IH (fun m Hm => H m ltac:(lia))) as [IHlo IHhi].
    destruct (H n ltac:(lia)) as (Ho & Hlo & Hhi).
    assert (Hl : lo * cpix orders n i j
                 <= cpix photon_yield n i j * cpix orders n i j)
      by (apply Qmult_le_compat_r; assumption).
    assert (Hh : cpix photon_yield n i j * cpix orders n i j
                 <= hi * cpix orders n i j)
      by (apply Qmult_le_compat_r; assumption).
    split; ring_simplify; lra.
Qed.

(** For a stack of photon yields and a stack of orders whose frames have
    one shape, [make_photon_yield] returns a map of that shape.  A pixel
    where the orders sum to 0 gets the yield 1; any other pixel gets the
    mean of the yields of the orders weighted by their signals, which,
    when no signal is negative, lies between any two bounds that hold for
    the yields of that pixel. *)
Theorem make_photon_yield_weighted_mean :
  forall photon_yield orders : array3,
    crows photon_yield = crows orders ->
    ccols photon_yield = ccols orders ->
    (cframes orders <= cframes photon_yield)%nat ->
    exists pyimage : array2,
      make_photon_yield photon_yield orders = Returns pyimage
      /\ ishape pyimage = (crows orders, ccols orders)
      /\ forall i j,
           (i < crows orders)%nat -> (j < ccols orders)%nat ->
           let total := order_sum orders (cframes orders) i j in
           (total == 0 -> ipix pyimage i j = 1)
           /\ (~ total == 0 ->
               ipix pyimage i j
               = yield_sum photon_yield orders (cframes orders) i j / total
               /\ forall lo hi : Q,
                    (forall m, (m < cframes orders)%nat ->
                               0 <= cpix orders m i j
                               /\ lo <= cpix photon_yield m i j <= hi) ->
                    lo <= ipix pyimage i j <= hi).
Proof.
  intros photon_yield orders Hr Hc Hf.
  destruct (make_photon_yield_values photon_yield orders Hr Hc Hf)
    as (pyimage & E & Hs & Hpix).
  exists pyimage. split; [exact E|]. split; [exact Hs|].
  intros i j Hi Hj total. specialize (Hpix i j Hi Hj). fold total in Hpix.
  split.
  - intros Hz. now rewrite (Qeq_eq_bool _ _ Hz) in Hpix.
  - intros Hnz. destruct (Qeq_bool total 0) eqn:Ez;
      [apply Qeq_bool_eq in Ez; contradiction|].
    split; [exact Hpix|].
    intros lo hi Hb. rewrite Hpix.
    assert (Hpos : 0 < total).
    { assert (0 <= total)
        by (apply order_sum_nonneg; intros m Hm; apply Hb, Hm).
      apply Qle_lt_or_eq in H. destruct H as [H|H]; [exact H|].
      exfalso. apply Hnz. now symmetry. }
    destruct (yield_sum_between photon_yield orders lo hi i j
                (cframes orders) Hb) as [Hlo Hhi].
    fold total in Hlo, Hhi.
    split.
    + apply Qle_shift_div_l; assumption.
    + apply Qle_shift_div_r; assumption.
Qed.

Lemma make_photon_yield_weighted_mean_witness :
  exists pyimage : array2,
    make_photon_yield two_yields two_orders = Returns pyimage
    /\ ipix pyimage 0 1 = 1
    /\ 1 <= ipix pyimage 0 0 <= 3 # 2.
Proof.
  assert (Hr : crows two_yields = crows two_orders) by reflexivity.
  assert (Hc : ccols two_yields = ccols two_orders) by reflexivity.
  assert (Hf : (cframes two_orders <= cframes two_yields)%nat) by (cbn; lia).
  destruct (make_photon_yield_weighted_mean two_yields two_orders Hr Hc Hf)
    as (pyimage & E & _ & Hpix).
  exists pyimage. split; [exact E|]. split.
  - apply (Hpix 0%nat 1%nat); [cbn; lia | cbn; lia | reflexivity].
  - destruct (Hpix 0%nat 0%nat ltac:(cbn; lia) ltac:(cbn; lia))
      as [_ Hmean].
    destruct Hmean as [_ Hb]; [discriminate|].
    apply Hb. intros [|[|m]] Hm; cbn in Hm; try lia;
      cbn; repeat split; discriminate.
Defined.

(** ** The profile across the trace *)

Lemma lpsf_positive : Forall (fun x => 0 < x) lpsf.
Proof.
  apply Forall_forall. intros x Hin.
  assert (H : forallb (fun y => Qlt_bool 0 y) lpsf = true) by reflexivity.
  rewrite forallb_forall in H. specialize (H x Hin).
  unfold Qlt_bool in H. apply negb_true_iff in H.
  apply Qnot_le_lt. intros Hle. apply Qle_bool_iff in Hle. congruence.
Qed.

Lemma minimum_fold_in (rest : list Q) :
  forall x : Q,
    let m := fold_left (fun m y => if Qlt_bool y m then y else m) rest x in
    m = x \/ In m rest.
Proof.
  induction rest as [|y rest IH]; intros x; cbn [fold_left]; [now left|].
  destruct (Qlt_bool y x).
  - destruct (IH y) as [->|H]; right; [now left | now right].
  - destruct (IH x) as [->|H]; [now left | right; now right].
Qed.

Lemma minimum_in (a : list Q) :
  a <> [] -> exists m, minimum a = Returns m /\ In m a.
Proof.
  destruct a as [|x rest]; [congruence|]. intros _. cbn [minimum].
  eexists. split; [reflexivity|].
  destruct (minimum_fold_in rest x) as [->|H]; [now left | now right].
Qed.

Lemma wing_returns (w : list Q) (g : rng) :
  Forall (fun x => 0 <= x) w ->
  exists l,
    wing w g = Returns (l, advance (length w) g)
    /\ Forall (fun x => 0 <= x) l.
Proof.
  intros Hw. unfold wing.
  assert (E : forallb (Qle_bool 0) w = true).
  { apply forallb_forall. intros x Hin. apply Qle_bool_iff.
    rewrite Forall_forall in Hw. now apply Hw. }
  rewrite E. eexists. split; [reflexivity|].
  apply Forall_forall. intros x Hin. apply in_map_iff in Hin.
  destruct Hin as ([d wi] & <- & _). apply Qabs_nonneg.
Qed.

Lemma wing_means_nonneg (m : Q) (pts : Z) (ks : list nat) :
  0 < m -> (pts <> 0)%Z -> (ks = [] \/ 0 < pts)%Z ->
  Forall (fun x => 0 <= x)
    (map (fun k => m * (k / inject_Z pts) * 50)
       (map (fun k => inject_Z (Z.of_nat k)) ks)).
Proof.
  intros Hm Hp [->|Hpos]; [constructor|].
  apply Forall_forall. intros x Hin. apply in_map_iff in Hin.
  destruct Hin as (q & <- & Hin). apply in_map_iff in Hin.
  destruct Hin as (k & <- & _).
  assert (Hk : 0 <= inject_Z (Z.of_nat k)).
  { change 0 with (inject_Z 0). rewrite <- Zle_Qle. lia. }
  assert (Hq : 0 < inject_Z pts).
  { change 0 with (inject_Z 0). now rewrite <- Zlt_Qlt. }
  assert (Hd : 0 <= inject_Z (Z.of_nat k) / inject_Z pts).
  { apply Qle_shift_div_l; [exact Hq|]. now rewrite Qmult_0_l. }
  apply Qmult_le_0_compat; [|discriminate].
  apply Qmult_le_0_compat; [now apply Qlt_le_weak | exact Hd].
Qed.

Lemma trapz_nonneg (a : list Q) :
  Forall (fun x => 0 <= x) a -> 0 <= trapz a.
Proof.
  induction a as [|x a IH]; intros H; [apply Qle_refl|].
  inversion H as [|? ? Hx Hrest]; subst. specialize (IH Hrest).
  destruct a as [|y rest]; [apply Qle_refl|].
  inversion Hrest as [|? ? Hy _]; subst.
  change (trapz (x :: y :: rest)) with ((x + y) / 2 + trapz (y :: rest)).
  assert (0 <= (x + y) / 2) by (apply Qle_shift_div_l; [reflexivity | lra]).
  lra.
Qed.

Lemma trapz_positive (pre : list Q) :
  forall (x : Q) (post : list Q),
    Forall (fun v => 0 <= v) (pre ++ x :: post) ->
    0 < x -> (2 <= length (pre ++ x :: post))%nat ->
    0 < trapz (pre ++ x :: post).
Proof.
  induction pre as [|p pre IH]; intros x post Hall Hx Hlen.
  - cbn [app] in *. destruct post as [|y rest]; [cbn in Hlen; lia|].
    change (trapz (x :: y :: rest)) with ((x + y) / 2 + trapz (y :: rest)).
    inversion Hall as [|? ? _ Hrest]; subst.
    pose proof (trapz_nonneg _ Hrest) as Ht.
    inversion Hrest as [|? ? Hy _]; subst.
    assert (0 < (x + y) / 2) by (apply Qlt_shift_div_l; [reflexivity | lra]).
    lra.
  - cbn [app] in *. inversion Hall as [|? ? Hp Hrest]; subst.
    pose proof (trapz_nonneg _ Hrest) as Ht.
    destruct (le_lt_dec 2 (length (pre ++ x :: post))) as [Hl|Hl].
    + specialize (IH x post Hrest Hx Hl).
      destruct (pre ++ x :: post) as [|z rest]; [cbn in Hl; lia|].
      change (trapz (p :: z :: rest))
        with ((p + z) / 2 + trapz (z :: rest)).
      assert (Hz : 0 <= z) by (now inversion Hrest).
      assert (0 <= (p + z) / 2)
        by (apply Qle_shift_div_l; [reflexivity | lra]).
      lra.
    + assert (pre = [] /\ post = []) as [-> ->].
      { destruct pre as [|? pre]; [destruct post; [auto | cbn in Hl; lia]|].
        cbn in Hl. rewrite length_app in Hl. cbn in Hl. lia. }
      cbn [app].
      change (trapz [p; x]) with ((p + x) / 2 + 0).
      assert (0 < (p + x) / 2)
        by (apply Qlt_shift_div_l; [reflexivity | lra]).
      lra.
Qed.

Lemma inject_nat_succ (k : nat) :
  inject_Z (Z.of_nat (S k)) == inject_Z (Z.of_nat k) + 1.
Proof. rewrite Nat2Z.inj_succ, <- Z.add_1_r, inject_Z_plus. reflexivity. Qed.

(** Between sample points one apart, linear interpolation of values that
    are not negative is not negative. *)
Lemma interp_scan_nonneg (ys : list Q) :
  forall (k : nat) (x : Q),
    Forall (fun y => 0 <= y) ys ->
    inject_Z (Z.of_nat k) <= x ->
    0 <= interp_scan x
           (combine (map (fun k => inject_Z (Z.of_nat k))
                       (seq k (length ys))) ys).
Proof.
  induction ys as [|y0 ys IH]; intros k x Hall Hx; [apply Qle_refl|].
  inversion Hall as [|? ? Hy0 Hrest]; subst.
  cbn [length seq map combine]. specialize (IH (S k) x Hrest).
  destruct ys as [|y1 ys']; [exact Hy0|].
  cbn [length seq map combine] in *. cbn [interp_scan].
  inversion Hrest as [|? ? Hy1 _]; subst.
  destruct (Qlt_bool x (inject_Z (Z.of_nat (S k)))) eqn:E.
  - unfold Qlt_bool in E. apply negb_true_iff in E.
    assert (Hlt : x < inject_Z (Z.of_nat (S k))).
    { apply Qnot_le_lt. intros Hle. apply Qle_bool_iff in Hle. congruence. }
    pose proof (inject_nat_succ k) as Hs.
    set (x0 := inject_Z (Z.of_nat k)) in *.
    set (x1 := inject_Z (Z.of_nat (S k))) in *.
    assert (E1 : x1 - x0 == 1) by (rewrite Hs; ring).
    rewrite E1.
    assert (E2 : (y1 - y0) / 1 * (x - x0) + y0
                 == y1 * (x - x0) + y0 * (x1 - x)).
    { field_simplify. rewrite Hs. field_simplify. reflexivity. }
    rewrite E2.
    assert (0 <= y1 * (x - x0)) by (apply Qmult_le_0_compat; lra).
    assert (0 <= y0 * (x1 - x)) by (apply Qmult_le_0_compat; lra).
    lra.
  - apply IH. unfold Qlt_bool in E. apply negb_false_iff in E.
    now apply Qle_bool_iff.
Qed.

Lemma last_nonneg (l : list Q) :
  Forall (fun y => 0 <= y) l -> 0 <= last l 0.
Proof.
  induction l as [|x l IH]; intros H; [apply Qle_refl|].
  inversion H as [|? ? Hx Hrest]; subst.
  destruct l as [|y rest]; [exact Hx | now apply IH].
Qed.

Lemma interp_unit_nonneg (x : Q) (half : list Q) :
  half <> [] ->
  Forall (fun y => 0 <= y) half ->
  exists val,
    interp x (map (fun k => inject_Z (Z.of_nat k)) (seq 0 (length half)))
      half (hd 0 half) (last half 0) = Returns val
    /\ 0 <= val.
Proof.
  intros Hne Hall. destruct half as [|h t]; [congruence|].
  pose proof (interp_scan_nonneg (h :: t) 0 x Hall) as Hscan.
  unfold interp. cbn [length seq map] in *.
  rewrite length_map, length_seq, Nat.eqb_refl. cbn [negb].
  destruct (Qlt_bool x (inject_Z (Z.of_nat 0))) eqn:E0.
  { eexists. split; [reflexivity|]. cbn [hd]. now inversion Hall. }
  match goal with
  | |- context [if ?b then _ else _] => destruct b
  end.
  { eexists. split; [reflexivity|]. now apply last_nonneg. }
  eexists. split; [reflexivity|]. apply Hscan.
  unfold Qlt_bool in E0. apply negb_false_iff in E0.
  now apply Qle_bool_iff.
Qed.

Lemma Forall_skipn_nonneg (n : nat) (l : list Q) :
  Forall (fun y => 0 <= y) l -> Forall (fun y => 0 <= y) (skipn n l).
Proof.
  intros H. rewrite <- (firstn_skipn n l) in H.
  now apply Forall_app in H.
Qed.

(** The normalisation and the interpolation at the end of [psf_position],
    on a profile without negative entries and with a positive area. *)
Lemma profile_value_nonneg (profile : list Q) (distance : Q) (g : rng) :
  profile <> [] ->
  Forall (fun y => 0 <= y) profile ->
  0 < trapz profile ->
  exists val,
    (area <- (if Qeq_bool (trapz profile) 0 then NonFinite
              else Returns (trapz profile)) ;;
     let psf := map (fun x => x / area) profile in
     let p0 := (length psf / 2)%nat in
     let half := skipn p0 psf in
     val <- interp distance
              (map (fun k => inject_Z (Z.of_nat k)) (seq 0 (length half)))
              half (hd 0 half) (last half 0) ;;
     Returns (val, g)) = Returns (val, g)
    /\ 0 <= val.
Proof.
  intros Hne Hall Harea.
  destruct (Qeq_bool (trapz profile) 0) eqn:E.
  { apply Qeq_bool_eq in E. rewrite E in Harea. discriminate. }
  cbn [bind]. cbv zeta.
  set (psf := map (fun x => x / trapz profile) profile).
  assert (Hpsf : Forall (fun y => 0 <= y) psf).
  { apply Forall_forall. intros y Hin. apply in_map_iff in Hin.
    destruct Hin as (x & <- & Hin). rewrite Forall_forall in Hall.
    apply Qle_shift_div_l; [exact Harea|]. rewrite Qmult_0_l.
    now apply Hall. }
  assert (Hlen : (0 < length psf)%nat).
  { unfold psf. rewrite length_map. destruct profile; [congruence|].
    cbn. lia. }
  set (half := skipn (length psf / 2) psf).
  assert (Hhalf : half <> []).
  { intros E0. apply (f_equal (@length Q)) in E0. unfold half in E0.
    rewrite length_skipn in E0. cbn [length] in E0.
    pose proof (Nat.div_lt (length psf) 2 Hlen ltac:(lia)). lia. }
  destruct (interp_unit_nonneg distance half Hhalf
              (Forall_skipn_nonneg _ _ Hpsf)) as (val & -> & Hval).
  exists val. split; [reflexivity | exact Hval].
Qed.

Lemma profile_area_positive (lower upper : list Q) :
  Forall (fun y => 0 <= y) lower ->
  Forall (fun y => 0 <= y) upper ->
  Forall (fun y => 0 <= y) (lower ++ lpsf ++ upper)
  /\ 0 < trapz (lower ++ lpsf ++ upper)
  /\ lower ++ lpsf ++ upper <> [].
Proof.
  intros Hl Hu. pose proof lpsf_positive as Hpos.
  assert (Hlen : (2 <= length lpsf)%nat) by (cbv; lia).
  destruct lpsf as [|x rest]; [cbn in Hlen; lia|].
  assert (Hall : Forall (fun y => 0 <= y) (lower ++ (x :: rest) ++ upper)).
  { apply Forall_app. split; [exact Hl|]. apply Forall_app.
    split; [|exact Hu]. eapply Forall_impl; [|exact Hpos].
    intros a. apply Qlt_le_weak. }
  split; [exact Hall|]. split.
  - cbn [app] in *. apply trapz_positive; [exact Hall | now inversion Hpos|].
    rewrite length_app. cbn [length] in *. rewrite length_app. lia.
  - destruct lower; discriminate.
Qed.

(** [psf_position] never fails and never returns a negative weight: for
    every distance, every number of wing points and every state of the
    generator it returns a value that is 0 or more.  It reads the generator
    only for the wings: [extend] draws for each of the two when [extend]
    is positive, none otherwise. *)
Theorem psf_position_nonneg :
  forall (distance : Q) (extend : Z) (g : rng),
    exists (val : Q) (g' : rng),
      psf_position distance extend g = Returns (val, g')
      /\ tape g' = tape g
      /\ cursor g' = (cursor g + 2 * Z.to_nat extend)%nat
      /\ 0 <= val.
Proof.
  intros distance extend g. unfold psf_position.
  destruct (Z.eqb_spec extend 0) as [->|Hext].
  - cbn [bind].
    destruct (profile_area_positive [] [] ltac:(constructor)
                ltac:(constructor)) as (Hall & Harea & Hne).
    cbn [app] in *. rewrite app_nil_r in *.
    destruct (profile_value_nonneg lpsf distance g Hne Hall Harea)
      as (val & E & Hval).
    exists val, g. split; [exact E|]. split; [reflexivity|].
    split; [cbn; lia | exact Hval].
  - unfold add_wings.
    destruct (minimum_in lpsf ltac:(discriminate)) as (m & -> & Hin).
    cbn [bind].
    assert (Hm : 0 < m).
    { pose proof lpsf_positive as Hpos. rewrite Forall_forall in Hpos.
      now apply Hpos. }
    set (ks := seq 0 (Z.to_nat extend)).
    assert (Hks : (ks = [] \/ 0 < extend)%Z).
    { destruct (Z.lt_ge_cases 0 extend) as [|Hle]; [now right|]. left.
      unfold ks. replace (Z.to_nat extend) with 0%nat by lia.
      reflexivity. }
    pose proof (wing_means_nonneg m extend ks Hm Hext Hks) as Hw.
    set (w := map _ (map _ ks)) in *.
    destruct (wing_returns w g Hw) as (lower & -> & Hlower).
    cbn [bind].
    assert (Hrev : Forall (fun x => 0 <= x) (rev w)).
    { apply Forall_forall. intros x Hx. apply in_rev in Hx.
      rewrite Forall_forall in Hw. now apply Hw. }
    destruct (wing_returns (rev w) (advance (length w) g) Hrev)
      as (upper & -> & Hupper).
    cbn [bind].
    destruct (profile_area_positive lower upper Hlower Hupper)
      as (Hall & Harea & Hne).
    destruct (profile_value_nonneg (lower ++ lpsf ++ upper) distance
                (advance (length (rev w)) (advance (length w) g))
                Hne Hall Harea) as (val & E & Hval).
    exists val, (advance (length (rev w)) (advance (length w) g)).
    split; [exact E|]. split; [reflexivity|].
    split; [|exact Hval].
    cbn [cursor advance]. rewrite length_rev. unfold w, ks.
    rewrite !length_map, length_seq. lia.
Qed.

(** ** The light curve of a pixel: background and length *)

Lemma bind_returns {A B : Type} (m : outcome A) (k : A -> outcome B) (b : B) :
  bind m k = Returns b -> exists a, m = Returns a /\ k a = Returns b.
Proof.
  destruct m as [a|e|]; cbn [bind]; intros H; try discriminate.
  now exists a.
Qed.

Lemma normal_length (loc scale : Q) (n : nat) (g g' : rng) (draws : list Q) :
  normal loc scale n g = Returns (draws, g') -> length draws = n.
Proof.
  unfold normal. destruct (Qle_bool 0 scale); [|discriminate].
  intros H. injection H as <- _. now rewrite length_map, length_seq.
Qed.

Lemma scale_by_length (flux lightcurve out : list Q) :
  scale_by flux lightcurve = Returns out -> length out = length flux.
Proof.
  unfold scale_by.
  destruct (Nat.eqb_spec (length lightcurve) (length flux)) as [E|_].
  - intros H. injection H as <-. rewrite length_map, length_combine. lia.
  - destruct lightcurve as [|c [|? ?]]; try discriminate.
    intros H. injection H as <-. apply length_map.
Qed.

Lemma add_where_length (mask : Q -> bool) (flux : list Q) :
  forall noise, length (add_where mask flux noise) = length flux.
Proof.
  induction flux as [|f flux IH]; intros noise; cbn [add_where];
    [reflexivity|].
  destruct (mask f); [destruct noise|]; cbn [length]; now rewrite IH.
Qed.

Lemma low_signal_length (floor : Q) (flux out : list Q) (g g' : rng) :
  low_signal floor flux g = Returns (out, g') -> length out = length flux.
Proof.
  unfold low_signal. intros H. apply bind_returns in H.
  destruct H as ([noise g1] & _ & H). injection H as <- _.
  apply add_where_length.
Qed.

Section LightCurveLength.

Variable TransitParams : Type.
Variable transit_light_curve :
  string -> list Q -> Q -> TransitParams -> list Q -> list Q.

Lemma scaled_flux_length (wavelength response distance : Q)
    (ld_coeffs : list Q) (ld_profile : string) (star : list Q * list Q)
    (planet : option (list Q * list Q)) (time : list Q)
    (params : TransitParams) (SNR : Q) (extend : Z) (g g' : rng)
    (flux : list Q) :
  scaled_flux TransitParams transit_light_curve wavelength response distance
    ld_coeffs ld_profile star planet time params SNR extend g
  = Returns (flux, g') ->
  length flux = length time.
Proof.
  unfold scaled_flux. intros H.
  apply bind_returns in H. destruct H as (flux0 & _ & H).
  apply bind_returns in H. destruct H as (scale & _ & H).
  apply bind_returns in H. destruct H as ([draws g1] & Hdraws & H).
  apply normal_length in Hdraws.
  apply bind_returns in H. destruct H as (flux1 & H1 & H).
  apply bind_returns in H. destruct H as (flux2 & H2 & H).
  apply bind_returns in H. destruct H as ([psf g2] & _ & H).
  injection H as <- _. rewrite length_map.
  assert (L1 : length flux1 = length time).
  { destruct planet as [[pw pd]|].
    - apply bind_returns in H1. destruct H1 as (tdepth & _ & H1).
      apply scale_by_length in H1. now rewrite H1, length_map.
    - injection H1 as <-. now rewrite length_map. }
  destruct (Qeq_bool response 0).
  - destruct flux1; [|discriminate]. now injection H2 as <-.
  - injection H2 as <-. now rewrite length_map.
Qed.

End LightCurveLength.

(** Away from the trace, [lambda_lightcurve] is noise only.  For a pixel
    farther from the trace than [trace_radius + extend], or at a
    wavelength below the shortest one of the star, it returns one value
    per time, each the absolute value of the floor plus a standard normal
    deviate, and so never negative.  The star's flux, the planet, the
    response, the limb darkening and the signal-to-noise play no part: the
    call cannot fail on them, and it takes [len(time)] draws from the
    generator. *)
Theorem lambda_lightcurve_background :
  forall (TransitParams : Type)
         (transit_light_curve :
            string -> list Q -> Q -> TransitParams -> list Q -> list Q)
         (wavelength response distance : Q) (ld_coeffs : list Q)
         (ld_profile : string) (star : list Q * list Q)
         (planet : option (list Q * list Q)) (time : list Q)
         (params : TransitParams) (trace_radius SNR floor : Q) (extend : Z)
         (g : rng),
    trace_radius + inject_Z extend < distance
    \/ (exists shortest, minimum (fst star) = Returns shortest
                         /\ wavelength < shortest) ->
    exists out : list Q,
      lambda_lightcurve TransitParams transit_light_curve wavelength response
        distance ld_coeffs ld_profile star planet time params trace_radius
        SNR floor extend g
      = Returns (out, advance (length time) g)
      /\ length out = length time
      /\ forall k, (k < length time)%nat ->
           nth k out 0 = Qabs (floor + 1 * peek g k) /\ 0 <= nth k out 0.
Proof.
  intros TP tlc wavelength response distance ld_coeffs ld_profile star
         planet time params trace_radius SNR floor extend g Hback.
  assert (E : (if Qlt_bool (trace_radius + inject_Z extend) distance
               then Returns true
               else m <- minimum (fst star) ;;
                    Returns (Qlt_bool wavelength m))
              = Returns true).
  { destruct (Qlt_bool (trace_radius + inject_Z extend) distance) eqn:Ed;
      [reflexivity|].
    destruct Hback as [Hd|(shortest & -> & Hw)].
    - unfold Qlt_bool in Ed. apply negb_false_iff, Qle_bool_iff in Ed.
      exfalso. apply (Qlt_not_le _ _ Hd Ed).
    - cbn [bind]. f_equal. unfold Qlt_bool. apply negb_true_iff.
      destruct (Qle_bool shortest wavelength) eqn:El; [|reflexivity].
      apply Qle_bool_iff in El. exfalso. apply (Qlt_not_le _ _ Hw El). }
  unfold lambda_lightcurve. rewrite E. cbn [bind].
  unfold normal. change (Qle_bool 0 1) with true. cbn [bind].
  eexists. split; [reflexivity|].
  split; [now rewrite !length_map, length_seq|].
  intros k Hk.
  assert (Hnth : nth k (map Qabs
                          (map (fun d => floor + 1 * peek g d)
                             (seq 0 (length time)))) 0
                 = Qabs (floor + 1 * peek g k)).
  { rewrite map_map.
    rewrite (nth_indep _ 0 (Qabs (floor + 1 * peek g 0)))
      by (now rewrite length_map, length_seq).
    rewrite (map_nth (fun d => Qabs (floor + 1 * peek g d))
               (seq 0 (length time)) 0%nat k).
    now rewrite seq_nth. }
  rewrite Hnth. split; [reflexivity | apply Qabs_nonneg].
Qed.

Lemma lambda_lightcurve_background_witness :
  exists out : list Q,
    lambda_lightcurve unit flat_light_curve 1 0 100 [] "quadratic" ([], [])
      None [0; 1; 2] tt 25 100 2 25 (constant_rng (-5))
    = Returns (out, advance 3 (constant_rng (-5)))
    /\ nth 1 out 0 = Qabs (2 + 1 * -5).
Proof.
  assert (H : 25 + inject_Z 25 < 100
              \/ (exists shortest,
                     minimum (fst (@nil Q, @nil Q)) = Returns shortest
                     /\ 1 < shortest))
    by (left; reflexivity).
  destruct (lambda_lightcurve_background unit flat_light_curve 1 0 100 []
              "quadratic"%string ([], []) None [0; 1; 2] tt 25 100 2 25%Z
              (constant_rng (-5)) H) as (out & E & _ & Hk).
  exists out. split; [exact E|].
  exact (proj1 (Hk 1%nat ltac:(cbn; lia))).
Defined.

(** Whenever [lambda_lightcurve] returns, on the trace or off it, with a
    planet or without, the light curve has one value per time. *)
Theorem lambda_lightcurve_length :
  forall (TransitParams : Type)
         (transit_light_curve :
            string -> list Q -> Q -> TransitParams -> list Q -> list Q)
         (wavelength response distance : Q) (ld_coeffs : list Q)
         (ld_profile : string) (star : list Q * list Q)
         (planet : option (list Q * list Q)) (time : list Q)
         (params : TransitParams) (trace_radius SNR floor : Q) (extend : Z)
         (g g' : rng) (out : list Q),
    lambda_lightcurve TransitParams transit_light_curve wavelength response
      distance ld_coeffs ld_profile star planet time params trace_radius
      SNR floor extend g
    = Returns (out, g') ->
    length out = length time.
Proof.
  intros TP tlc wavelength response distance ld_coeffs ld_profile star
         planet time params trace_radius SNR floor extend g g' out H.
  unfold lambda_lightcurve in H.
  apply bind_returns in H. destruct H as ([|] & _ & H).
  - apply bind_returns in H. destruct H as ([draws g1] & Hdraws & H).
    apply normal_length in Hdraws. injection H as <- _.
    now rewrite length_map.
  - apply bind_returns in H. destruct H as ([flux g1] & Hflux & H).
    apply scaled_flux_length in Hflux. apply low_signal_length in H.
    congruence.
Qed.

Lemma lambda_lightcurve_length_witness :
  lambda_lightcurve unit flat_light_curve 1 1 100 [] "quadratic" faint_star
    None [0; 1] tt 25 100 2 0 (constant_rng 0)
  = Returns ([Qabs (2 + 1 * 0); Qabs (2 + 1 * 0)], advance 2 (constant_rng 0))
  /\ length [Qabs (2 + 1 * 0); Qabs (2 + 1 * 0)] = length [0; 1].
Proof.
  assert (H : lambda_lightcurve unit flat_light_curve 1 1 100 [] "quadratic"
                faint_star None [0; 1] tt 25 100 2 0 (constant_rng 0)
              = Returns ([Qabs (2 + 1 * 0); Qabs (2 + 1 * 0)],
                         advance 2 (constant_rng 0))) by reflexivity.
  split; [exact H|].
  exact (lambda_lightcurve_length unit flat_light_curve 1 1 100 []
           "quadratic"%string faint_star None [0; 1] tt 25 100 2 0%Z
           (constant_rng 0) _ _ H).
Defined.

(** ** The exposure of a time series and the dark ramps *)

Lemma bget3_in (a : array3) (n i j : nat) :
  (n < cframes a)%nat -> (i < crows a)%nat -> (j < ccols a)%nat ->
  bget3 a n i j = cpix a n i j.
Proof.
  intros Hn Hi Hj. unfold bget3.
  destruct (Nat.eqb_spec (cframes a) 1), (Nat.eqb_spec (crows a) 1),
           (Nat.eqb_spec (ccols a) 1); f_equal; lia.
Qed.

Lemma broadcast3_same (f : Q -> Q -> Q) (a b : array3) :
  cshape b = cshape a ->
  broadcast3 f a b
  = Returns (Cube (cframes a) (crows a) (ccols a)
               (fun n i j => f (bget3 a n i j) (bget3 b n i j))).
Proof.
  unfold cshape. intros H. injection H as Hf Hr Hc.
  unfold broadcast3. now rewrite Hf, Hr, Hc, !broadcast_dim_same.
Qed.

(** The frame time is looked up under the name given or under
    ['SUBSTRIP256']; the exposure is created either way. *)
Lemma TSO_init_exposure (ngrps nints : Z) (subarray : string) (t0 : Q) :
  (1 <= ngrps)%Z -> (1 <= nints)%Z ->
  exists (stdout : list string) (time : list Q),
    length time = (Z.to_nat nints * Z.to_nat ngrps)%nat
    /\ TSO_init ngrps nints subarray t0
       = (stdout,
          Returns (Tso subarray (subarray_rows subarray) 2048 ngrps nints 1
                     time (length time)
                     (zeros (length time) (subarray_rows subarray) 2048))).
Proof.
  intros Hg Hn. unfold TSO_init.
  destruct (frame_time_used subarray ngrps nints t0 1) as (ft & _ & E).
  destruct (get_frame_times subarray ngrps nints t0 1) as [stdout o].
  cbn [snd] in E. subst o.
  rewrite integrations_retained by (assumption || lia). cbn [bind app].
  rewrite concatenate_retained by lia. cbn [bind].
  eexists _, _. split; [|reflexivity].
  apply retained_length; (assumption || lia).
Qed.

Lemma subarray_rows_cases (subarray : string) :
  (contains "256" subarray = true /\ subarray_rows subarray = 256%nat)
  \/ (contains "256" subarray = false
      /\ (subarray_rows subarray = 96%nat
          \/ subarray_rows subarray = 2048%nat)).
Proof.
  unfold subarray_rows. destruct (contains "256" subarray); [now left|].
  right. split; [reflexivity|].
  destruct (contains "96" subarray); [now left | now right].
Qed.

(** The loop over the orders fails on a shape that does not broadcast, or
    keeps the number of rows of an exposure that has more than one. *)
Lemma add_order_keeps_rows (start o : array3) :
  crows start <> 1%nat ->
  add_order start o = Raises ValueError
  \/ exists next,
       add_order start o = Returns next /\ crows next = crows start.
Proof.
  intros Hrows. unfold add_order, broadcast3.
  destruct (broadcast_dim (cframes start) (cframes o)) as [fr|];
    [|now left].
  destruct (broadcast_dim (crows start) (crows o)) as [r|] eqn:Er;
    [|now left].
  destruct (broadcast_dim (ccols start) (ccols o)) as [c|]; [|now left].
  cbn [bind]. right. eexists. split; [reflexivity|].
  cbn [cmap crows]. unfold broadcast_dim in Er.
  destruct (Nat.eqb_spec (crows start) (crows o)); [congruence|].
  destruct (Nat.eqb_spec (crows start) 1); [contradiction|].
  destruct (Nat.eqb_spec (crows o) 1); congruence.
Qed.

Lemma orders_keep_rows (tso_orders : list array3) :
  forall start : array3,
    crows start <> 1%nat ->
    for_each add_order tso_orders start = Raises ValueError
    \/ exists out,
         for_each add_order tso_orders start = Returns out
         /\ crows out = crows start.
Proof.
  induction tso_orders as [|o rest IH]; intros start Hrows;
    cbn [for_each].
  - right. now exists start.
  - destruct (add_order_keeps_rows start o Hrows)
      as [->|(next & -> & Hnext)]; [now left|].
    cbn [bind].
    destruct (IH next) as [->|(out & -> & Hout)]; [congruence | now left|].
    right. exists out. split; [reflexivity | congruence].
Qed.

Lemma orders_added_nonneg (tso_orders : list array3) (n i j : nat) :
  forall start, 0 <= start -> 0 <= orders_added tso_orders start n i j.
Proof.
  unfold orders_added.
  induction tso_orders as [|o rest IH]; intros start Hs; cbn [fold_left];
    [exact Hs|].
  apply IH, Qabs_nonneg.
Qed.

(** On arrays of the shape of the exposure the loop over the orders
    returns, keeps the shape, and leaves in every pixel the absolute value
    of the running sum. *)
Lemma orders_add (tso_orders : list array3) :
  forall start : array3,
    (forall o, In o tso_orders -> cshape o = cshape start) ->
    exists out,
      for_each add_order tso_orders start = Returns out
      /\ cshape out = cshape start
      /\ forall n i j,
           (n < cframes start)%nat -> (i < crows start)%nat ->
           (j < ccols start)%nat ->
           cpix out n i j
           = orders_added tso_orders (cpix start n i j) n i j.
Proof.
  induction tso_orders as [|o rest IH]; intros start Hshape;
    cbn [for_each].
  - exists start. repeat split; reflexivity.
  - unfold add_order at 1.
    pose proof (Hshape o (or_introl eq_refl)) as Ho.
    rewrite broadcast3_same by exact Ho. cbn [bind].
    match goal with
    | |- context [for_each add_order rest ?next] =>
        destruct (IH next) as (out & E & Hs & Hpix)
    end.
    { intros o' Hin. rewrite (Hshape o' (or_intror Hin)). reflexivity. }
    exists out. split; [exact E|]. split; [exact Hs|].
    intros n i j Hn Hi Hj.
    rewrite Hpix by assumption. unfold orders_added. cbn [fold_left].
    cbn [cpix cmap]. unfold cshape in Ho. injection Ho as Hf Hr Hc.
    rewrite !bget3_in by lia. reflexivity.
Qed.

(** The dark ramps have 256 rows whatever the subarray, so the last
    statement of [run_simulation] cannot add them to an exposure of
    another height.  For every subarray name without ['256'] in it, among
    them ['SUBSTRIP96'] and ['FULL'], with at least one group and one
    integration: [TSO.__init__] creates an exposure of 96 or of 2048 rows,
    and [run_simulation] on it raises [ValueError], whatever the arrays of
    the orders are. *)
Theorem run_simulation_needs_256_rows :
  forall (ngrps nints : Z) (subarray : string) (t0 : Q),
    (1 <= ngrps)%Z -> (1 <= nints)%Z ->
    contains "256" subarray = false ->
    exists (stdout : list string) (self : TSO),
      TSO_init ngrps nints subarray t0 = (stdout, Returns self)
      /\ (nrows self = 96%nat \/ nrows self = 2048%nat)
      /\ crows (tso self) = nrows self
      /\ forall tso_orders : list array3,
           run_simulation self tso_orders = Raises ValueError.
Proof.
  intros ngrps nints name t0 Hg Hn H256.
  destruct (TSO_init_exposure ngrps nints name t0 Hg Hn)
    as (stdout & axis & _ & E).
  eexists stdout, _. split; [exact E|]. cbn [nrows tso zeros crows].
  destruct (subarray_rows_cases name) as [[H _]|[_ Hrows]];
    [congruence|].
  split; [exact Hrows|]. split; [reflexivity|].
  intros tso_orders. unfold run_simulation. cbn [tso time subarray].
  destruct (orders_keep_rows tso_orders
              (zeros (length axis) (subarray_rows name) 2048))
    as [->|(out & -> & Hout)].
  { cbn [zeros crows]. lia. }
  { reflexivity. }
  cbn [bind]. unfold iadd, dark_ramps. cbn [zeros cframes crows ccols] in *.
  rewrite Hout.
  assert (E1 : (256 =? subarray_rows name)%nat = false)
    by (apply Nat.eqb_neq; lia).
  rewrite E1. cbn [Nat.eqb orb andb]. rewrite andb_false_r. reflexivity.
Qed.

Lemma run_simulation_needs_256_rows_witness :
  exists (stdout : list string) (self : TSO),
    TSO_init 2 1 "FULL" 0 = (stdout, Returns self)
    /\ run_simulation self [order_two] = Raises ValueError.
Proof.
  assert (Hg : (1 <= 2)%Z) by lia.
  assert (Hn : (1 <= 1)%Z) by lia.
  assert (H256 : contains "256" "FULL" = false) by reflexivity.
  destruct (run_simulation_needs_256_rows 2 1 "FULL"%string 0 Hg Hn H256)
    as (stdout & self & E & _ & _ & Hrun).
  exists stdout, self. split; [exact E | apply Hrun].
Defined.

(** For a subarray name with ['256'] in it, at least one group and one
    integration, the exposure has [nints * ngrps] frames of 256 rows and
    2048 columns, and [run_simulation] returns on arrays of that shape:
    the dark ramps add 0, so every pixel holds what the loop over the
    orders left, the absolute value of the running sum, and no pixel is
    negative. *)
Theorem run_simulation_substrip256 :
  forall (ngrps nints : Z) (subarray : string) (t0 : Q),
    (1 <= ngrps)%Z -> (1 <= nints)%Z ->
    contains "256" subarray = true ->
    exists (stdout : list string) (self : TSO),
      TSO_init ngrps nints subarray t0 = (stdout, Returns self)
      /\ nframes self = (Z.to_nat nints * Z.to_nat ngrps)%nat
      /\ cshape (tso self) = (nframes self, 256%nat, 2048%nat)
      /\ forall tso_orders : list array3,
           (forall o, In o tso_orders ->
                      cshape o = (nframes self, 256%nat, 2048%nat)) ->
           exists out : TSO,
             run_simulation self tso_orders = Returns out
             /\ cshape (tso out) = (nframes self, 256%nat, 2048%nat)
             /\ forall n i j,
                  (n < nframes self)%nat -> (i < 256)%nat ->
                  (j < 2048)%nat ->
                  cpix (tso out) n i j == orders_added tso_orders 0 n i j
                  /\ 0 <= cpix (tso out) n i j.
Proof.
  intros ngrps nints name t0 Hg Hn H256.
  destruct (TSO_init_exposure ngrps nints name t0 Hg Hn)
    as (stdout & axis & Hlen & E).
  eexists stdout, _. split; [exact E|]. cbn [nframes tso].
  destruct (subarray_rows_cases name) as [[_ Hrows]|[H _]];
    [|congruence].
  rewrite Hrows. split; [exact Hlen|]. split; [reflexivity|].
  intros tso_orders Hshape. unfold run_simulation. cbn [tso time subarray].
  destruct (orders_add tso_orders (zeros (length axis) 256 2048) Hshape)
    as (out & -> & Hs & Hpix).
  cbn [bind]. unfold cshape in Hs. cbn [zeros cframes crows ccols] in Hs, Hpix.
  injection Hs as Hf Hr Hc.
  unfold iadd, dark_ramps. cbn [zeros cframes crows ccols].
  rewrite Hf, Hr, Hc, !Nat.eqb_refl. cbn [orb andb bind].
  eexists. split; [reflexivity|]. cbn [tso cshape cframes crows ccols cpix].
  split; [reflexivity|].
  intros n i j Hn' Hi Hj. rewrite Hpix by assumption.
  assert (Hz : bget3 (Cube (length axis) 256 2048 (fun _ _ _ => 0)) n i j = 0).
  { unfold bget3. reflexivity. }
  change (bget3 (zeros (length axis) 256 2048) n i j)
    with (bget3 (Cube (length axis) 256 2048 (fun _ _ _ => 0)) n i j).
  rewrite Hz. cbn [zeros cpix].
  pose proof (orders_added_nonneg tso_orders n i j 0 (Qle_refl 0)) as H0.
  split; [ring | lra].
Qed.

Lemma run_simulation_substrip256_witness :
  exists (stdout : list string) (self out : TSO),
    TSO_init 2 1 "SUBSTRIP256" 0 = (stdout, Returns self)
    /\ run_simulation self [order_minus_three; order_two] = Returns out
    /\ cpix (tso out) 1 0 0 == 5.
Proof.
  assert (Hg : (1 <= 2)%Z) by lia.
  assert (Hn : (1 <= 1)%Z) by lia.
  assert (H256 : contains "256" "SUBSTRIP256" = true) by reflexivity.
  destruct (run_simulation_substrip256 2 1 "SUBSTRIP256"%string 0 Hg Hn H256)
    as (stdout & self & E & Hframes & _ & Hrun).
  destruct (Hrun [order_minus_three; order_two]) as (out & Eo & _ & Hpix).
  { rewrite Hframes. intros o [<-|[<-|[]]]; reflexivity. }
  exists stdout, self, out. split; [exact E|]. split; [exact Eo|].
  destruct (Hpix 1%nat 0%nat 0%nat) as [Hv _];
    [rewrite Hframes; cbn; lia | lia | lia |].
  rewrite Hv. reflexivity.
Defined.
